(** * Gmail clean-up agent: fetch, group by sender, review, archive and trash

    A shallow embedding of [main.py] (console, graph-orchestrated entry point)
    and of the stage functions of [app.py] (web-widget entry point), with the
    properties of the four stages proved over it.

    Conventions of the embedding
    - a Python [str] is a list of Unicode code points ([pystr]);
    - a Python [dict] is an association list in insertion order, updated in
      place when the key is present and extended at the end otherwise;
    - a raised exception is [None] (or a dedicated outcome), a returned value
      is [Some];
    - calls to the mail provider and to the file system are answered by an
      explicit world record, and every call is recorded in a trace. *)

From Stdlib Require Import List Bool Arith NArith ZArith Lia.
From Stdlib Require Import Permutation Sorted.
From Stdlib Require Import Ascii String.
Import ListNotations.

(* ================================================================== *)
(** * Python strings *)
(* ================================================================== *)

Module PyStr.

(** A code point, and a string as the sequence of its code points. *)
Definition codepoint := N.
Definition pystr := list codepoint.

Local Open Scope N_scope.

(** String literals of the source, written as Rocq strings. *)
Definition py (s : string) : pystr :=
  List.map N_of_ascii (list_ascii_of_string s).

Definition pystr_eq_dec : forall a b : pystr, {a = b} + {a <> b} :=
  list_eq_dec N.eq_dec.

Definition pystr_eqb (a b : pystr) : bool :=
  if pystr_eq_dec a b then true else false.

(** [c in s] for a one-character [c]. *)
Definition contains (c : codepoint) (s : pystr) : bool :=
  existsb (N.eqb c) s.

(** [str.isspace] on one code point: the characters [str.strip()] removes. *)
Definition is_space (c : codepoint) : bool :=
  ((9 <=? c) && (c <=? 13)) || ((28 <=? c) && (c <=? 32))
  || (c =? 133) || (c =? 160) || (c =? 5760)
  || ((8192 <=? c) && (c <=? 8202))
  || (c =? 8232) || (c =? 8233) || (c =? 8239) || (c =? 8287)
  || (c =? 12288).

Fixpoint lstrip (s : pystr) : pystr :=
  match s with
  | [] => []
  | c :: r => if is_space c then lstrip r else s
  end.

Definition rstrip (s : pystr) : pystr := rev (lstrip (rev s)).

(** [s.strip()] *)
Definition strip (s : pystr) : pystr := rstrip (lstrip s).

(** [s.split(c)] for a one-character separator: never the empty list. *)
Fixpoint split_on (c : codepoint) (s : pystr) : list pystr :=
  match s with
  | [] => [[]]
  | x :: r =>
      if x =? c then [] :: split_on c r
      else match split_on c r with
           | h :: t => (x :: h) :: t
           | [] => [[x]]
           end
  end.

(** [s.replace(a, b)] for one-character [a] and [b]. *)
Definition replace_char (a b : codepoint) (s : pystr) : pystr :=
  List.map (fun x => if x =? a then b else x) s.

(** [s[:n]] *)
Definition slice_to (n : nat) (s : pystr) : pystr := firstn n s.

(** [str.lower] on the code points below U+0100 (every other code point
    is left as it is).  The stage functions take the case mapping as a
    parameter; this one instantiates it in the worked examples. *)
Definition lower_cp (c : codepoint) : codepoint :=
  if ((65 <=? c) && (c <=? 90))
     || ((192 <=? c) && (c <=? 222) && negb (c =? 215))
  then c + 32 else c.

Definition latin_lower (s : pystr) : pystr := List.map lower_cp s.

(** [len(s) == 0], the falsity of a string in a condition. *)
Definition is_empty (s : pystr) : bool :=
  match s with [] => true | _ => false end.

(** [s in (w1, w2, ...)] *)
Definition member (s : pystr) (ws : list pystr) : bool :=
  existsb (pystr_eqb s) ws.

Definition LT : codepoint := 60.  (* "<" *)
Definition GT : codepoint := 62.  (* ">" *)
Definition AT : codepoint := 64.  (* "@" *)
Definition DOT : codepoint := 46. (* "." *)
Definition USCORE : codepoint := 95. (* "_" *)

End PyStr.
Import PyStr.

(* ================================================================== *)
(** * Python dictionaries *)
(* ================================================================== *)

Module PyDict.
Section Dict.
Variable V : Type.

(** Items in insertion order. *)
Definition dict := list (pystr * V).

(** [d.get(k)] *)
Fixpoint get (k : pystr) (d : dict) : option V :=
  match d with
  | [] => None
  | (k', v) :: r => if pystr_eqb k k' then Some v else get k r
  end.

(** [k in d] *)
Definition mem (k : pystr) (d : dict) : bool :=
  match get k d with Some _ => true | None => false end.

(** [d[k] = v]: a present key keeps its place, a new key goes last. *)
Fixpoint set (k : pystr) (v : V) (d : dict) : dict :=
  match d with
  | [] => [(k, v)]
  | (k', v') :: r =>
      if pystr_eqb k k' then (k', v) :: r else (k', v') :: set k v r
  end.

Definition keys (d : dict) : list pystr := List.map fst d.
Definition values (d : dict) : list V := List.map snd d.

(** What every dictionary satisfies: no key occurs twice. *)
Definition wf (d : dict) : Prop := NoDup (keys d).
End Dict.
Arguments get {V}.
Arguments mem {V}.
Arguments set {V}.
Arguments keys {V}.
Arguments values {V}.
Arguments wf {V}.
End PyDict.
Import PyDict.

(* ================================================================== *)
(** * Data model (main.py 23-48, app.py 41-63) *)
(* ================================================================== *)

Record Email := {
  email_id : pystr;
  subject : pystr;
  sender : pystr;
  date : pystr;
  body_b64 : pystr;
  preview : pystr
}.

Record SenderGroup := {
  group_sender : pystr;
  emails : list Email;
  count : nat
}.

(** [Decision = Literal["skip", "delete"]] *)
Inductive Decision := skip | delete.

Definition Decision_eqb (a b : Decision) : bool :=
  match a, b with
  | skip, skip | delete, delete => true
  | _, _ => false
  end.

Definition Groups := dict SenderGroup.
Definition Decisions := dict Decision.

(** ** Messages as the provider returns them ([format="full"]) *)

Record Header := { name : pystr; value : pystr }.
Record Body := { data : option pystr }.
Record Part := { mimeType : option pystr; part_body : option Body }.
Record Payload := {
  headers : list Header;
  parts : option (list Part);
  body : option Body
}.
Record Message := { payload : Payload }.

(** The result of one provider call: the response, or [HttpError] raised. *)
Inductive ApiResult (A : Type) :=
| ApiOk (a : A)
| HttpError.
Arguments ApiOk {A}.
Arguments HttpError {A}.

(** The read side of the provider.  The list response may lack its
    ["messages"] key. *)
Record Provider := {
  list_messages : Z -> ApiResult (option (list pystr));
  get_message : pystr -> ApiResult Message
}.

Inductive ApiCall :=
| CallList (max_results : Z)
| CallGet (mid : pystr).

(** ** The world of the execute step *)

(** The JSON document written for one archived message. *)
Record ArchiveRecord := {
  archived_email : Email;
  archived_at : pystr;
  decision : pystr;
  sender_normalized : pystr
}.

(** What a path of the archive directory holds: a complete archive
    record, or what a write leaves that failed after the file was opened
    (an empty file, or one cut short). *)
Inductive FileContent :=
| Archive (r : ArchiveRecord)
| Damaged.

(** Calls are numbered by the length of the trace when they are issued.
    [write_ok n path] tells whether opening and writing [path] at step [n]
    succeeds (otherwise the [OSError] propagates); when it does not,
    [open_ok n path] tells whether the failure came after
    [path.open("w")], which by then has created or emptied the file.
    [trash_ok n mid] tells whether the trash call returns (otherwise it
    raises [HttpError]). *)
Record World := {
  save_dir : pystr;
  utcnow : nat -> pystr;
  write_ok : nat -> pystr -> bool;
  open_ok : nat -> pystr -> bool;
  trash_ok : nat -> pystr -> bool
}.

(** What the execute step does to the outside, tagged with the sender
    whose group is being processed. *)
Inductive Event :=
| FileWrite (sender_key filename : pystr) (ok : bool)
| TrashCall (sender_key mid : pystr) (ok : bool).

Record ExecState := {
  saved : list pystr;
  trashed : list pystr;
  disk : dict FileContent;
  trace : list Event
}.

(** The step returned normally, or an exception left it. *)
Inductive Outcome :=
| Returned (st : ExecState)
| Raised (st : ExecState).

Definition final (o : Outcome) : ExecState :=
  match o with Returned st | Raised st => st end.

(** ** The run state threaded through the stages *)

Record AgentState := {
  st_emails : option (list Email);
  st_groups : option Groups;
  st_decisions : option Decisions;
  st_saved_paths : list pystr;
  st_trashed_ids : list pystr;
  st_max_fetch : Z
}.

(** The web front end's stage enum. *)
Inductive Stage := welcome | fetching | review | executing | finished.

(** Button presses of the review stage. *)
Inductive Click :=
| KeepClick (sender_key : pystr)
| DeleteClick (sender_key : pystr).

(** ** Trace observations *)

Definition is_write_for (s : pystr) (ev : Event) : bool :=
  match ev with
  | FileWrite s' _ ok => pystr_eqb s s' && ok
  | TrashCall _ _ _ => false
  end.

(** Number of files written so far for sender [s]. *)
Definition saves_for (s : pystr) (tr : list Event) : nat :=
  List.length (filter (is_write_for s) tr).

Definition event_sender (ev : Event) : pystr :=
  match ev with FileWrite s _ _ | TrashCall s _ _ => s end.

(** Names of the files written, in order. *)
Fixpoint written_files (tr : list Event) : list pystr :=
  match tr with
  | [] => []
  | FileWrite _ f true :: r => f :: written_files r
  | _ :: r => written_files r
  end.

(** Identifiers the trash endpoint was called with, in order. *)
Fixpoint trash_calls (tr : list Event) : list pystr :=
  match tr with
  | [] => []
  | TrashCall _ mid _ :: r => mid :: trash_calls r
  | _ :: r => trash_calls r
  end.

(** Identifiers whose trash call returned. *)
Fixpoint trash_successes (tr : list Event) : list pystr :=
  match tr with
  | [] => []
  | TrashCall _ mid true :: r => mid :: trash_successes r
  | _ :: r => trash_successes r
  end.

(* ================================================================== *)
(** * A decoder to run the examples with *)
(* ================================================================== *)

(** The stage functions take the runtime's [base64.urlsafe_b64decode] and
    [bytes.decode("utf-8", errors="replace")] as parameters.  The
    definitions below follow the standard decoder in its lenient mode and
    are what the worked examples pass for them. *)
Module Base64.
Local Open Scope N_scope.

(** Value of a character of the URL-safe alphabet (after "-" and "_" are
    mapped to "+" and "/", which keep their value too). *)
Definition sextet (c : codepoint) : option N :=
  if (65 <=? c) && (c <=? 90) then Some (c - 65)
  else if (97 <=? c) && (c <=? 122) then Some (c - 97 + 26)
  else if (48 <=? c) && (c <=? 57) then Some (c - 48 + 52)
  else if (c =? 43) || (c =? 45) then Some 62
  else if (c =? 47) || (c =? 95) then Some 63
  else None.

(** Characters outside the alphabet are dropped; a complete run of "="
    ends the input; data left in an unfinished quad is an error. *)
Fixpoint a2b (s : pystr) (quad_pos : nat) (leftchar pads : N)
              (out : list N) : option (list N) :=
  match s with
  | [] => match quad_pos with O => Some (rev out) | _ => None end
  | c :: r =>
      if c =? 61 then
        if (2 <=? quad_pos)%nat then
          if (4 <=? N.of_nat quad_pos + (pads + 1))
          then Some (rev out)
          else a2b r quad_pos leftchar (pads + 1) out
        else a2b r quad_pos leftchar pads out
      else
        match sextet c with
        | None => a2b r quad_pos leftchar pads out
        | Some v =>
            match quad_pos with
            | 0%nat => a2b r 1%nat v 0 out
            | 1%nat =>
                a2b r 2%nat (N.land v 15) 0
                    (N.lor (N.shiftl leftchar 2) (N.shiftr v 4) :: out)
            | 2%nat =>
                a2b r 3%nat (N.land v 3) 0
                    (N.lor (N.shiftl leftchar 4) (N.shiftr v 2) :: out)
            | _ =>
                a2b r 0%nat 0 0 (N.lor (N.shiftl leftchar 6) v :: out)
            end
        end
  end.

(** A [str] argument must be ASCII, otherwise [ValueError]. *)
Definition urlsafe_b64decode (s : pystr) : option (list N) :=
  if forallb (fun c => c <? 128) s then a2b s 0%nat 0 0 [] else None.

(** Decoding of ASCII bytes; any other byte is shown as U+FFFD. *)
Definition ascii_decode_replace (bs : list N) : pystr :=
  List.map (fun b => if b <? 128 then b else 65533) bs.

(** Well-formed base64, as opposed to the claims' "malformed": characters
    of the alphabet only, followed by at most two "=", the whole a
    multiple of four characters long. *)
Definition in_alphabet (c : codepoint) : bool :=
  match sextet c with Some _ => true | None => false end.

Definition drop_pad (r : pystr) : pystr :=
  match r with
  | 61 :: 61 :: r' => r'
  | 61 :: r' => r'
  | _ => r
  end.

Definition well_formed (s : pystr) : bool :=
  (Nat.eqb (Nat.modulo (List.length s) 4) 0)
  && forallb in_alphabet (drop_pad (rev s)).
End Base64.

(** [str(dir / name)] of the path library, for a relative directory and a
    plain file name (one without "/"): the two joined by "/".  The stage
    functions take the join as a parameter; this one instantiates it in
    the worked examples. *)
Definition plain_join (dir filename : pystr) : pystr :=
  dir ++ py "/" ++ filename.

(* ================================================================== *)
(** * Sample data *)
(* ================================================================== *)

(** A small mailbox, the data of the worked examples: two messages of
    a@x.com and one of b@y.com. *)
Module Sample.

Definition mail (mid from : string) : Email :=
  {| email_id := py mid; subject := py "Hello"; sender := py from;
     date := py "Mon, 1 Jan 2024"; body_b64 := []; preview := [] |}.

Definition e1 : Email := mail "m1" "Alice <A@X.com>".
Definition e2 : Email := mail "m2" " b@y.com ".
Definition e3 : Email := mail "m3" "<a@x.com>".
Definition fetched : list Email := [e1; e2; e3].

Definition a_x : pystr := py "a@x.com".
Definition b_y : pystr := py "b@y.com".

Definition groups : Groups :=
  [(a_x, {| group_sender := a_x; emails := [e1; e3]; count := 2 |});
   (b_y, {| group_sender := b_y; emails := [e2]; count := 1 |})].

Definition decisions : Decisions := [(a_x, delete); (b_y, skip)].
Definition only_a : Decisions := [(a_x, delete)].

(** Every write and every trash call succeeds. *)
Definition calm : World :=
  {| save_dir := py "saved_emails";
     utcnow := fun _ => py "2024-01-01T00:00:00";
     write_ok := fun _ _ => true;
     open_ok := fun _ _ => true;
     trash_ok := fun _ _ => true |}.

(** The call number 2, the first trash call, raises [HttpError]. *)
Definition flaky : World :=
  {| save_dir := py "saved_emails";
     utcnow := fun _ => py "2024-01-01T00:00:00";
     write_ok := fun _ _ => true;
     open_ok := fun _ _ => true;
     trash_ok := fun n _ => negb (Nat.eqb n 2) |}.

Definition file1 : pystr := py "m1_a_x_com.json".
Definition file3 : pystr := py "m3_a_x_com.json".

(** A message whose plain-text part is cut short: seven characters of
    base64 where eight are needed. *)
Definition broken : Message :=
  {| payload :=
       {| headers := [ {| name := py "From"; value := py "Bob <b@y.com>" |};
                       {| name := py "Subject"; value := py "Hi" |} ];
          parts := Some [ {| mimeType := Some (py "text/html");
                             part_body := Some {| data := Some (py "PGI+") |} |};
                          {| mimeType := Some (py "text/plain");
                             part_body := Some {| data := Some (py "aGVsbG8") |} |} ];
          body := None |} |}.

Definition inbox : Provider :=
  {| list_messages := fun _ => ApiOk (Some [py "m7"]);
     get_message := fun _ => ApiOk broken |}.

Definition unreachable : Provider :=
  {| list_messages := fun _ => HttpError;
     get_message := fun _ => ApiOk broken |}.

(** Two messages whose archive files get the same name. *)
Definition c1 : Email := mail "a" "b@c.d".
Definition c2 : Email := mail "a_b" "c@d".
Definition clash_groups : Groups :=
  [(py "b@c.d", {| group_sender := py "b@c.d"; emails := [c1]; count := 1 |});
   (py "c@d", {| group_sender := py "c@d"; emails := [c2]; count := 1 |})].
Definition clash_decisions : Decisions :=
  [(py "b@c.d", delete); (py "c@d", delete)].

End Sample.

(* ================================================================== *)
(** * Authorisation, the run as a whole and the web session *)
(* ================================================================== *)

(** ** Credentials (main.py 51-69, app.py 70-90) *)

(** What the code reads off a credentials object. *)
Record Credentials := {
  valid : bool;
  expired : bool;
  refresh_token : option pystr
}.

(** Truth value of [creds.refresh_token]: a non-empty string. *)
Definition has_refresh_token (c : Credentials) : bool :=
  match refresh_token c with
  | Some (_ :: _) => true
  | _ => false
  end.

(** The surroundings of [get_gmail_service]: the cached token file
    ([None] when it does not exist), whether the client-secrets file
    exists, what [creds.refresh] turns credentials into, and what the
    consent flow returns. *)
Record AuthEnv := {
  token_file : option Credentials;
  credentials_file_exists : bool;
  refresh : Credentials -> Credentials;
  run_local_server : Credentials
}.

Inductive AuthEvent :=
| Refreshed (before : Credentials)
| ConsentFlow
| TokenWritten (c : Credentials).

(** The service built with some credentials, or the missing-file error
    ([FileNotFoundError] on the console, [st.stop()] in the web app). *)
Inductive AuthResult :=
| ServiceBuilt (c : Credentials)
| MissingCredentialsFile.

(** ** One console run (main.py 240-279) *)

(** What one pass through the graph did: the provider calls of the fetch
    node, the senders shown by the review node, and the outcome of the
    execute node ([None] when an earlier node raised). *)
Record RunResult := {
  run_calls : list ApiCall;
  run_shown : list pystr;
  run_exec : option Outcome
}.

(** ** The web session (app.py 22-35, 230-332) *)

Record Session := {
  sess_stage : Stage;
  sess_state : option AgentState;
  sess_decisions : Decisions
}.

(** One run of the script: without a button press, or with the one
    button that was pressed. *)
Inductive UiEvent :=
| Rerun
| StartCleanup (max_fetch : Z)
| Press (c : Click)
| ConfirmChoices
| NewSession.

(** The session together with what lies outside it: the archive
    directory, and the log of what was done to it and to the mailbox. *)
Record AppWorld := {
  app_session : Session;
  app_disk : dict FileContent;
  app_log : list Event
}.

(** The session a browser tab starts with (app.py 22-35). *)
Definition fresh_session : Session :=
  {| sess_stage := welcome; sess_state := None; sess_decisions := [] |}.

Definition stage_rank (s : Stage) : nat :=
  match s with
  | welcome => 0
  | fetching => 1
  | review => 2
  | executing => 3
  | finished => 4
  end.

Definition click_target (c : Click) : pystr :=
  match c with KeepClick s | DeleteClick s => s end.

Definition click_value (c : Click) : Decision :=
  match c with KeepClick _ => skip | DeleteClick _ => delete end.

(** The choice of the last press that concerns sender [s]. *)
Fixpoint last_click (s : pystr) (cs : list Click) : option Decision :=
  match cs with
  | [] => None
  | c :: r =>
      match last_click s r with
      | Some d => Some d
      | None => if pystr_eqb (click_target c) s
                then Some (click_value c) else None
      end
  end.

(** ** More sample data *)

Module Sample2.

Definition stale : Credentials :=
  {| valid := false; expired := true; refresh_token := Some (py "r1") |}.
Definition renewed : Credentials :=
  {| valid := true; expired := false; refresh_token := Some (py "r1") |}.
Definition granted : Credentials :=
  {| valid := true; expired := false; refresh_token := Some (py "r2") |}.

(** A cached token that has expired and can be refreshed. *)
Definition returning_user : AuthEnv :=
  {| token_file := Some stale; credentials_file_exists := true;
     refresh := fun _ => renewed; run_local_server := granted |}.

(** Neither a token nor a client-secrets file. *)
Definition bare : AuthEnv :=
  {| token_file := None; credentials_file_exists := false;
     refresh := fun c => c; run_local_server := granted |}.

(** A message with a long plain-text body: 150 times "QUFB", that is 450
    letters "A". *)
Definition long_body : pystr := List.concat (repeat (py "QUFB") 150).

Definition html_only : Payload :=
  {| headers := [];
     parts := Some [ {| mimeType := Some (py "text/html");
                        part_body := Some {| data := Some (py "PGI+") |} |} ];
     body := Some {| data := Some (py "aGVsbG8=") |} |}.

Definition twice_from : Message :=
  {| payload :=
       {| headers := [ {| name := py "FROM"; value := py "first@x.com" |};
                       {| name := py "Subject"; value := py "Hi" |};
                       {| name := py "from"; value := py "second@x.com" |} ];
          parts := None;
          body := Some {| data := Some (py "aGVsbG8=") |} |} |}.

(** The second of two listed messages cannot be fetched. *)
Definition half_broken : Provider :=
  {| list_messages := fun _ => ApiOk (Some [py "m1"; py "m2"; py "m3"]);
     get_message := fun mid =>
       if pystr_eqb mid (py "m2") then HttpError else ApiOk twice_from |}.

(** One message, from second@x.com. *)
Definition small_inbox : Provider :=
  {| list_messages := fun _ => ApiOk (Some [py "m1"]);
     get_message := fun _ => ApiOk twice_from |}.

(** The second write fails. *)
Definition disk_full : World :=
  {| save_dir := py "saved_emails";
     utcnow := fun _ => py "2024-01-01T00:00:00";
     write_ok := fun n _ => negb (Nat.eqb n 1);
     open_ok := fun _ _ => true;
     trash_ok := fun _ _ => true |}.

(** The write number 2 fails, after the file was opened. *)
Definition full_later : World :=
  {| save_dir := py "saved_emails";
     utcnow := fun _ => py "2024-01-01T00:00:00";
     write_ok := fun n _ => negb (Nat.eqb n 2);
     open_ok := fun _ _ => true;
     trash_ok := fun _ _ => true |}.

(** A body with text after the padding. *)
Definition trailing : Message :=
  {| payload :=
       {| headers := [ {| name := py "From"; value := py "c@z.org" |} ];
          parts := None;
          body := Some {| data := Some (py "aGVsbG8=extra") |} |} |}.

(** A body without a single base64 character. *)
Definition garbage : Message :=
  {| payload :=
       {| headers := [ {| name := py "From"; value := py "c@z.org" |} ];
          parts := None;
          body := Some {| data := Some (py "!!!!") |} |} |}.

Definition old_file : pystr := py "saved_emails/old.json".
Definition old_record : ArchiveRecord :=
  {| archived_email := Sample.e2; archived_at := py "2023";
     decision := py "delete"; sender_normalized := Sample.b_y |}.

End Sample2.

(* ================================================================== *)
(** * The four stages *)
(* ================================================================== *)

Section Agent.

Set Default Proof Using "Type".

(** [str.lower], [base64.urlsafe_b64decode] ([None] when it raises) and
    [bytes.decode("utf-8", errors="replace")] of the Python runtime. *)
Variable lower : pystr -> pystr.
Variable urlsafe_b64decode : pystr -> option (list N).
Variable utf8_decode_replace : list N -> pystr.

(** [str(dir / filename)] of the path library. *)
Variable path_join : pystr -> pystr -> pystr.

(** ** Fetch (main.py 75-127, app.py 98-159) *)

(** [{h["name"].lower(): h["value"] for h in ...}] *)
Definition header_lookup (hs : list Header) : dict pystr :=
  fold_left (fun d h => set (lower (name h)) (value h) d) hs [].

Definition get_default (k : pystr) (d : dict pystr) (dflt : pystr) : pystr :=
  match get k d with Some v => v | None => dflt end.

Definition has_data (b : option Body) : option pystr :=
  match b with
  | Some b' => data b'
  | None => None
  end.

(** The loop over [payload["parts"]]: the first plain-text part that
    carries data. *)
Fixpoint first_plain_part (ps : list Part) : pystr :=
  match ps with
  | [] => []
  | p :: r =>
      match mimeType p, has_data (part_body p) with
      | Some m, Some d =>
          if pystr_eqb m (py "text/plain") then d else first_plain_part r
      | _, _ => first_plain_part r
      end
  end.

Definition extract_body (pl : Payload) : pystr :=
  match parts pl with
  | Some ps => first_plain_part ps
  | None => match has_data (body pl) with
            | Some d => d
            | None => []
            end
  end.

Definition ELLIPSIS : codepoint := 8230%N.

Definition decode_error : pystr := py "[decode error]".

(** The [try]/[except] around the decoding (main.py 105-111). *)
Definition make_preview (b64 : pystr) : pystr :=
  if is_empty b64 then []
  else match urlsafe_b64decode b64 with
       | None => decode_error
       | Some raw =>
           let decoded := utf8_decode_replace raw in
           if (140 <? List.length decoded)%nat
           then slice_to 140 decoded ++ [ELLIPSIS]
           else decoded
       end.

Definition email_of_message (mid : pystr) (msg : Message) : Email :=
  let hs := header_lookup (headers (payload msg)) in
  let b64 := extract_body (payload msg) in
  {| email_id := mid;
     subject := get_default (py "subject") hs (py "(no subject)");
     sender := get_default (py "from") hs (py "Unknown");
     date := get_default (py "date") hs (py "Unknown");
     body_b64 := b64;
     preview := make_preview b64 |}.

(** The loop over the listed ids.  The second component is the list of
    calls issued; the first is [None] when a [get] raised [HttpError]. *)
Fixpoint fetch_loop (P : Provider) (ids : list pystr) (acc : list Email)
  : option (list Email) * list ApiCall :=
  match ids with
  | [] => (Some acc, [])
  | mid :: r =>
      match get_message P mid with
      | HttpError => (None, [CallGet mid])
      | ApiOk msg =>
          let (res, calls) :=
            fetch_loop P r (acc ++ [email_of_message mid msg]) in
          (res, CallGet mid :: calls)
      end
  end.

(** Body of the [try] block: [None] when [HttpError] was raised. *)
Definition fetch_try (P : Provider) (max_fetch : Z)
  : option (list Email) * list ApiCall :=
  match list_messages P max_fetch with
  | HttpError => (None, [CallList max_fetch])
  | ApiOk res =>
      let ids := match res with Some l => l | None => [] end in
      let (out, calls) := fetch_loop P ids [] in
      (out, CallList max_fetch :: calls)
  end.

(** main.py: the node returns [{"emails": ...}]. *)
Definition fetch_emails (P : Provider) (max_fetch : Z)
  : list Email * list ApiCall :=
  match fetch_try P max_fetch with
  | (Some es, calls) => (es, calls)
  | (None, calls) => ([], calls)
  end.

(** app.py: the whole state is returned, unchanged on [HttpError]. *)
Definition fetch_emails_app (P : Provider) (state : AgentState)
  : AgentState * list ApiCall :=
  match fetch_try P (st_max_fetch state) with
  | (Some es, calls) =>
      ({| st_emails := Some es;
          st_groups := st_groups state;
          st_decisions := st_decisions state;
          st_saved_paths := st_saved_paths state;
          st_trashed_ids := st_trashed_ids state;
          st_max_fetch := st_max_fetch state |}, calls)
  | (None, calls) => (state, calls)
  end.

(** The state the welcome stage builds on "Start Cleanup". *)
Definition initial_state (max_fetch : Z) : AgentState :=
  {| st_emails := None; st_groups := None; st_decisions := None;
     st_saved_paths := []; st_trashed_ids := [];
     st_max_fetch := max_fetch |}.

(** [state.get("emails", [])] *)
Definition state_emails (state : AgentState) : list Email :=
  match st_emails state with Some es => es | None => [] end.

(** ** Group (main.py 130-146, app.py 161-177) *)

(** The sender expression (main.py 134-138).  [None] is the [IndexError]
    an out-of-range list index would raise. *)
Definition normalize_sender (sender_header : pystr) : option pystr :=
  let sender_raw := strip sender_header in
  if contains LT sender_raw && contains GT sender_raw then
    match nth_error (split_on LT sender_raw) 1 with
    | None => None
    | Some after_lt =>
        match nth_error (split_on GT after_lt) 0 with
        | None => None
        | Some addr => Some (lower (strip addr))
        end
    end
  else Some (lower sender_raw).

Definition new_group (s : pystr) : SenderGroup :=
  {| group_sender := s; emails := []; count := 0 |}.

(** One iteration of the loop: create the group when the key is new,
    then append the email and bump the count. *)
Definition add_email (groups : Groups) (email : Email) : option Groups :=
  match normalize_sender (sender email) with
  | None => None
  | Some s =>
      let groups1 :=
        if mem s groups then groups else set s (new_group s) groups in
      match get s groups1 with
      | None => None
      | Some g =>
          Some (set s {| group_sender := group_sender g;
                         emails := emails g ++ [email];
                         count := count g + 1 |} groups1)
      end
  end.

Fixpoint group_loop (es : list Email) (groups : Groups) : option Groups :=
  match es with
  | [] => Some groups
  | e :: r =>
      match add_email groups e with
      | None => None
      | Some groups' => group_loop r groups'
      end
  end.

Definition group_by_sender (es : list Email) : option Groups :=
  group_loop es [].

(** The stage as it reads the run state: [state.get("emails", [])]. *)
Definition group_stage (state : AgentState) : option Groups :=
  group_by_sender (state_emails state).

(** ** Decide (main.py 149-185, app.py 266-310) *)

(** [sorted(items, key=...)]: the stable sort, smallest key first. *)
Fixpoint insert_by {A : Type} (key : A -> Z) (x : A) (l : list A)
  : list A :=
  match l with
  | [] => [x]
  | y :: r => if (key x <=? key y)%Z then x :: l
              else y :: insert_by key x r
  end.

Definition sorted_by {A : Type} (key : A -> Z) (l : list A) : list A :=
  fold_right (insert_by key) [] l.

(** [lambda x: -x[1]["count"]] *)
Definition review_key (x : pystr * SenderGroup) : Z :=
  (- Z.of_nat (count (snd x)))%Z.

(** The order in which both front ends walk the groups
    (main.py 157, app.py 278). *)
Definition review_order (groups : Groups) : list (pystr * SenderGroup) :=
  sorted_by review_key groups.

Definition skip_words : list pystr := [py "skip"; py "keep"; py "k"].
Definition delete_words : list pystr :=
  [py "d"; py "delete"; py "t"; py "trash"; py "remove"].

(** The [while True] prompt of one sender (main.py 167-181), reading the
    console lines in [inputs].  [None] is the [EOFError] of [input()]
    once the lines are used up. *)
Fixpoint ask (inputs : list pystr) : option (Decision * list pystr) :=
  match inputs with
  | [] => None
  | line :: rest =>
      let choice := lower (strip line) in
      if is_empty choice || member choice skip_words
      then Some (skip, rest)
      else if member choice delete_words
      then Some (delete, rest)
      else ask rest
  end.

(** The loop over the sorted groups.  [shown] collects the senders whose
    summary was printed; the result is [None] when [input()] raised. *)
Fixpoint review_loop (order : list (pystr * SenderGroup))
         (inputs : list pystr) (decisions : Decisions)
         (shown : list pystr)
  : option Decisions * list pystr :=
  match order with
  | [] => (Some decisions, shown)
  | (s, g) :: r =>
      let shown' := shown ++ [group_sender g] in
      match ask inputs with
      | None => (None, shown')
      | Some (d, inputs') => review_loop r inputs' (set s d decisions) shown'
      end
  end.

Definition human_review (groups : Groups) (inputs : list pystr)
  : option Decisions * list pystr :=
  review_loop (review_order groups) inputs [] [].

(** The review stage of the web front end: every group is rendered on
    each refresh, a button press stores the choice, and the label shows
    [decisions.get(sender, "skip")]. *)
Definition review_stage_shown (groups : Groups) : list pystr :=
  List.map fst (review_order groups).

Definition click (decisions : Decisions) (c : Click) : Decisions :=
  match c with
  | KeepClick s => set s skip decisions
  | DeleteClick s => set s delete decisions
  end.

Definition current_choice (decisions : Decisions) (s : pystr) : Decision :=
  match get s decisions with Some d => d | None => skip end.

(** "Confirm choices & Run cleanup": the decisions go to the run state
    only if some sender is marked delete. *)
Definition confirm (decisions : Decisions) : option Decisions :=
  if existsb (Decision_eqb delete) (values decisions)
  then Some decisions else None.

(** ** Execute (main.py 188-237, app.py 179-224) *)

(** [sender.replace("@", "_").replace(".", "_")[:48]] *)
Definition safe_sender (s : pystr) : pystr :=
  slice_to 48 (replace_char DOT USCORE (replace_char AT USCORE s)).

(** [f"{email['id']}_{safe_sender}.json"] *)
Definition archive_filename (mid safe : pystr) : pystr :=
  mid ++ py "_" ++ safe ++ py ".json".

Definition tick (st : ExecState) : nat := List.length (trace st).

(** One iteration of the save loop (main.py 207-222).  [path] stands
    for [str(CONFIG.save_dir / filename)].  A write that fails after the
    file was opened leaves the file behind, created or emptied. *)
Definition save_email (w : World) (s safe : pystr) (email : Email)
           (st : ExecState) : Outcome :=
  let filename := archive_filename (email_id email) safe in
  let path := path_join (save_dir w) filename in
  let record := {| archived_email := email;
                   archived_at := utcnow w (tick st);
                   decision := py "delete";
                   sender_normalized := s |} in
  if write_ok w (tick st) path then
    Returned {| saved := saved st ++ [path];
                trashed := trashed st;
                disk := set path (Archive record) (disk st);
                trace := trace st ++ [FileWrite s filename true] |}
  else
    Raised {| saved := saved st;
              trashed := trashed st;
              disk := if open_ok w (tick st) path
                      then set path Damaged (disk st) else disk st;
              trace := trace st ++ [FileWrite s filename false] |}.

Fixpoint save_phase (w : World) (s safe : pystr) (es : list Email)
         (st : ExecState) : Outcome :=
  match es with
  | [] => Returned st
  | e :: r =>
      match save_email w s safe e st with
      | Returned st' => save_phase w s safe r st'
      | Raised st' => Raised st'
      end
  end.

(** One iteration of the trash loop (main.py 226-232): an [HttpError] is
    printed and the loop goes on. *)
Definition trash_email (w : World) (s : pystr) (email : Email)
           (st : ExecState) : ExecState :=
  let ok := trash_ok w (tick st) (email_id email) in
  {| saved := saved st;
     trashed := if ok then trashed st ++ [email_id email] else trashed st;
     disk := disk st;
     trace := trace st ++ [TrashCall s (email_id email) ok] |}.

Definition trash_phase (w : World) (s : pystr) (es : list Email)
           (st : ExecState) : ExecState :=
  fold_left (fun st' e => trash_email w s e st') es st.

(** The body of the loop over [decisions.items()] (main.py 196-232). *)
Definition process_sender (w : World) (groups : Groups)
           (s : pystr) (d : Decision) (st : ExecState) : Outcome :=
  match d with
  | skip => Returned st
  | delete =>
      match get s groups with
      | None => Returned st
      | Some group =>
          let safe := safe_sender s in
          match save_phase w s safe (emails group) st with
          | Returned st' => Returned (trash_phase w s (emails group) st')
          | Raised st' => Raised st'
          end
      end
  end.

Fixpoint execute_loop (w : World) (groups : Groups)
         (items : list (pystr * Decision)) (st : ExecState) : Outcome :=
  match items with
  | [] => Returned st
  | (s, d) :: r =>
      match process_sender w groups s d st with
      | Returned st' => execute_loop w groups r st'
      | Raised st' => Raised st'
      end
  end.

(** [disk0] is what the archive directory holds when the step starts. *)
Definition start (disk0 : dict FileContent) : ExecState :=
  {| saved := []; trashed := []; disk := disk0; trace := [] |}.

Definition execute_actions (w : World) (disk0 : dict FileContent)
           (groups : Groups) (decisions : Decisions) : Outcome :=
  execute_loop w groups decisions (start disk0).

(** ** The claims' wording, where it is compared with the code *)

(** Sender normalisation as the specification words it: the address is
    the text between the first "<" and the first ">" that follows it;
    when there is no such pair the full string is used. *)
Fixpoint until_gt (s : pystr) : option pystr :=
  match s with
  | [] => None
  | x :: r =>
      if (x =? GT)%N then Some []
      else match until_gt r with
           | Some a => Some (x :: a)
           | None => None
           end
  end.

Fixpoint angle_address (s : pystr) : option pystr :=
  match s with
  | [] => None
  | x :: r => if (x =? LT)%N then until_gt r else angle_address r
  end.

Definition spec_normalize (sender_header : pystr) : pystr :=
  match angle_address sender_header with
  | Some addr => lower (strip addr)
  | None => lower (strip sender_header)
  end.

(** The decide step as the specification words it: a delete trigger
    gives delete, any other input gives skip. *)
Definition spec_choice (line : pystr) : Decision :=
  if member (lower (strip line)) delete_words then delete else skip.

(** ** Authorisation (main.py 51-69, app.py 70-90) *)

(** The [else] branch: the consent flow, which needs the client-secrets
    file; the new token is written to the token file. *)
Definition consent (env : AuthEnv) : AuthResult * list AuthEvent :=
  if credentials_file_exists env
  then (ServiceBuilt (run_local_server env),
        [ConsentFlow; TokenWritten (run_local_server env)])
  else (MissingCredentialsFile, []).

(** main.py: the token file is written after a refresh as well. *)
Definition get_gmail_service (env : AuthEnv)
  : AuthResult * list AuthEvent :=
  match token_file env with
  | Some c =>
      if valid c then (ServiceBuilt c, [])
      else if expired c && has_refresh_token c
      then (ServiceBuilt (refresh env c),
            [Refreshed c; TokenWritten (refresh env c)])
      else consent env
  | None => consent env
  end.

(** app.py: the write sits inside the [else] branch. *)
Definition get_gmail_service_app (env : AuthEnv)
  : AuthResult * list AuthEvent :=
  match token_file env with
  | Some c =>
      if valid c then (ServiceBuilt c, [])
      else if expired c && has_refresh_token c
      then (ServiceBuilt (refresh env c), [Refreshed c])
      else consent env
  | None => consent env
  end.

(** ** The graph of the console entry point (main.py 240-254) *)

(** fetch, group, human_review, execute, in this order; an exception in
    a node ends the run. *)
Definition run_workflow (P : Provider) (w : World)
           (disk0 : dict FileContent) (max_fetch : Z)
           (inputs : list pystr) : RunResult :=
  let (es, calls) := fetch_emails P max_fetch in
  match group_by_sender es with
  | None => {| run_calls := calls; run_shown := []; run_exec := None |}
  | Some groups =>
      match human_review groups inputs with
      | (None, shown) =>
          {| run_calls := calls; run_shown := shown; run_exec := None |}
      | (Some decisions, shown) =>
          {| run_calls := calls; run_shown := shown;
             run_exec := Some (execute_actions w disk0 groups decisions) |}
      end
  end.

(** ** The stages of the web entry point (app.py 230-332) *)

Definition with_session (a : AppWorld) (s : Session) : AppWorld :=
  {| app_session := s; app_disk := app_disk a; app_log := app_log a |}.

Definition set_groups (st : AgentState) (g : Groups) : AgentState :=
  {| st_emails := st_emails st; st_groups := Some g;
     st_decisions := st_decisions st;
     st_saved_paths := st_saved_paths st;
     st_trashed_ids := st_trashed_ids st;
     st_max_fetch := st_max_fetch st |}.

Definition set_decisions (st : AgentState) (d : Decisions) : AgentState :=
  {| st_emails := st_emails st; st_groups := st_groups st;
     st_decisions := Some d;
     st_saved_paths := st_saved_paths st;
     st_trashed_ids := st_trashed_ids st;
     st_max_fetch := st_max_fetch st |}.

Definition set_outputs (st : AgentState) (x : ExecState) : AgentState :=
  {| st_emails := st_emails st; st_groups := st_groups st;
     st_decisions := st_decisions st;
     st_saved_paths := saved x;
     st_trashed_ids := trashed x;
     st_max_fetch := st_max_fetch st |}.

(** The groups the review stage renders, when it renders any. *)
Definition review_groups (s : Session) : option Groups :=
  match sess_state s with
  | Some st => st_groups st
  | None => None
  end.

(** One run of the script.  A button can only be pressed in the stage
    that renders it, and a sender's buttons only when the sender has a
    group; any other event leaves everything as it is. *)
Definition app_step (P : Provider) (w : World) (a : AppWorld)
           (ev : UiEvent) : AppWorld :=
  let s := app_session a in
  match sess_stage s, ev with
  | welcome, StartCleanup m =>
      with_session a {| sess_stage := fetching;
                        sess_state := Some (initial_state m);
                        sess_decisions := sess_decisions s |}
  | fetching, Rerun =>
      match sess_state s with
      | None => a
      | Some st =>
          let st1 := fst (fetch_emails_app P st) in
          match group_stage st1 with
          | None => a
          | Some g =>
              with_session a {| sess_stage := review;
                                sess_state := Some (set_groups st1 g);
                                sess_decisions := sess_decisions s |}
          end
      end
  | review, Press c =>
      match review_groups s with
      | Some g =>
          if mem (click_target c) g
          then with_session a {| sess_stage := review;
                                 sess_state := sess_state s;
                                 sess_decisions := click (sess_decisions s) c |}
          else a
      | None => a
      end
  | review, ConfirmChoices =>
      match sess_state s, review_groups s with
      | Some st, Some _ =>
          match confirm (sess_decisions s) with
          | Some d =>
              with_session a {| sess_stage := executing;
                                sess_state := Some (set_decisions st d);
                                sess_decisions := sess_decisions s |}
          | None => a
          end
      | _, _ => a
      end
  | executing, Rerun =>
      match sess_state s with
      | Some st =>
          match st_groups st, st_decisions st with
          | Some g, Some d =>
              match execute_actions w (app_disk a) g d with
              | Returned x =>
                  {| app_session :=
                       {| sess_stage := finished;
                          sess_state := Some (set_outputs st x);
                          sess_decisions := sess_decisions s |};
                     app_disk := disk x;
                     app_log := app_log a ++ trace x |}
              | Raised x =>
                  {| app_session := s;
                     app_disk := disk x;
                     app_log := app_log a ++ trace x |}
              end
          | _, _ => a
          end
      | None => a
      end
  | finished, NewSession => with_session a fresh_session
  | _, _ => a
  end.

Definition app_run (P : Provider) (w : World) (a : AppWorld)
           (evs : list UiEvent) : AppWorld :=
  fold_left (app_step P w) evs a.

(** A tab opened on archive directory [disk0]. *)
Definition app_start (disk0 : dict FileContent) : AppWorld :=
  {| app_session := fresh_session; app_disk := disk0; app_log := [] |}.

(** ** Vocabulary of the statements *)

(** Ascending in the sort key. *)
Definition key_le {A : Type} (key : A -> Z) (a b : A) : Prop :=
  (key a <= key b)%Z.

Definition all_emails (groups : Groups) : list Email :=
  flat_map (fun kg => emails (snd kg)) groups.

Definition total_count (groups : Groups) : nat :=
  list_sum (List.map (fun kg => count (snd kg)) groups).

(** What one group looks like when it is filed under key [k]. *)
Definition group_ok (k : pystr) (g : SenderGroup) : Prop :=
  group_sender g = k /\
  count g = List.length (emails g) /\
  forall e, In e (emails g) -> normalize_sender (sender e) = Some k.

(** The loop invariant: [done] are the emails consumed so far. *)
Definition groups_inv (groups : Groups) (done : list Email) : Prop :=
  wf groups /\
  (forall k g, In (k, g) groups -> group_ok k g) /\
  Permutation (all_emails groups) done.

Definition shown_labels (order : list (pystr * SenderGroup)) : list pystr :=
  List.map (fun x => group_sender (snd x)) order.

(** A console line that ends the prompt of one sender. *)
Definition recognised (line : pystr) : bool :=
  let choice := lower (strip line) in
  is_empty choice || member choice skip_words || member choice delete_words.

(** The events of a sender's save loop when no write fails. *)
Definition write_events (s : pystr) (es : list Email) : list Event :=
  List.map
    (fun e => FileWrite s (archive_filename (email_id e) (safe_sender s)) true)
    es.

Definition sender_paths (w : World) (s : pystr) (es : list Email)
  : list pystr :=
  List.map
    (fun e => path_join (save_dir w)
                        (archive_filename (email_id e) (safe_sender s)))
    es.

(** The events of a sender's trash loop, the first call being number
    [n]. *)
Fixpoint trash_events (w : World) (s : pystr) (es : list Email) (n : nat)
  : list Event :=
  match es with
  | [] => []
  | e :: r =>
      TrashCall s (email_id e) (trash_ok w n (email_id e))
      :: trash_events w s r (S n)
  end.


Definition is_returned (o : Outcome) : bool :=
  match o with Returned _ => true | Raised _ => false end.

(** At a trash call for message [mid] of sender [s], with [pre] the
    events before it: the sender has a group, as many files were written
    for the sender as the group counts, and the file of [mid] is one of
    them. *)
Definition backed_up (groups : Groups) (s mid : pystr) (pre : list Event)
  : Prop :=
  exists g,
    get s groups = Some g /\
    saves_for s pre = count g /\
    In (FileWrite s (archive_filename mid (safe_sender s)) true) pre.

(** Every trash call of [tr], run after [pre], is backed up. *)
Fixpoint trace_safe (groups : Groups) (pre tr : list Event) : Prop :=
  match tr with
  | [] => True
  | ev :: r =>
      match ev with
      | TrashCall s mid _ => backed_up groups s mid pre
      | FileWrite _ _ _ => True
      end /\ trace_safe groups (pre ++ [ev]) r
  end.

(** The output lists and the directory agree with the trace. *)
Definition bookkeeping (w : World) (st : ExecState) : Prop :=
  saved st = List.map (path_join (save_dir w)) (written_files (trace st)) /\
  trashed st = trash_successes (trace st) /\
  (forall p, In p (saved st) -> mem p (disk st) = true).

(** The loop invariant behind save-before-trash: the trace so far is
    safe, and no event belongs to a sender still to be processed. *)
Definition safe_inv (groups : Groups) (pending : list (pystr * Decision))
           (st : ExecState) : Prop :=
  trace_safe groups [] (trace st) /\
  (forall ev, In ev (trace st) -> ~ In (event_sender ev) (keys pending)) /\
  NoDup (keys pending).

(** Event [ev] is the write or the trash call of email [e], done while
    sender [s] was processed. *)
Definition from_email (s : pystr) (e : Email) (ev : Event) : Prop :=
  match ev with
  | FileWrite s' f _ =>
      s' = s /\ f = archive_filename (email_id e) (safe_sender s)
  | TrashCall s' mid _ => s' = s /\ mid = email_id e
  end.




(** The loop invariant behind distinct file names: the files written so
    far are distinct, and each is the file of an email of a group whose
    sender is not pending any more. *)
Definition names_inv (groups : Groups) (pending : list (pystr * Decision))
           (st : ExecState) : Prop :=
  NoDup (keys pending) /\
  NoDup (written_files (trace st)) /\
  forall f, In f (written_files (trace st)) ->
    exists k g e,
      ~ In k (keys pending) /\ get k groups = Some g /\
      In e (emails g) /\
      f = archive_filename (email_id e) (safe_sender k).

(** ** Further vocabulary *)

(** The key an email is grouped under. *)
Definition sender_key (e : Email) : pystr :=
  match normalize_sender (sender e) with
  | Some k => k
  | None => []
  end.

(** The distinct elements of a list, in the order of their first
    occurrence. *)
Definition first_seen (l : list pystr) : list pystr :=
  rev (nodup pystr_eq_dec (rev l)).

(** The data of a part that counts as plain text with data. *)
Definition plain_with_data (p : Part) : option pystr :=
  match mimeType p, has_data (part_body p) with
  | Some m, Some d => if pystr_eqb m (py "text/plain") then Some d else None
  | _, _ => None
  end.

(** The groups the execute step works on, in the order of the
    decisions: those of the senders marked delete that have a group. *)
Definition delete_plan (groups : Groups) (decisions : Decisions)
  : list (pystr * SenderGroup) :=
  flat_map (fun sd => match snd sd, get (fst sd) groups with
                      | delete, Some g => [(fst sd, g)]
                      | _, _ => []
                      end) decisions.

Definition plan_paths (w : World) (plan : list (pystr * SenderGroup))
  : list pystr :=
  flat_map (fun sg => sender_paths w (fst sg) (emails (snd sg))) plan.

Definition plan_ids (plan : list (pystr * SenderGroup)) : list pystr :=
  flat_map (fun sg => List.map email_id (emails (snd sg))) plan.

(** File [p] holds the archive of an email of a delete-marked group. *)
Definition archived_ok (w : World) (groups : Groups) (decisions : Decisions)
           (p : pystr) (r : ArchiveRecord) : Prop :=
  decision r = py "delete" /\
  exists k g,
    In (k, delete) decisions /\ get k groups = Some g /\
    In (archived_email r) (emails g) /\
    sender_normalized r = k /\
    p = path_join (save_dir w)
          (archive_filename (email_id (archived_email r)) (safe_sender k)).

Definition is_failed_write (ev : Event) : bool :=
  match ev with
  | FileWrite _ _ ok => negb ok
  | TrashCall _ _ _ => false
  end.

(** Some sender of the mapping is marked delete. *)
Definition some_delete (d : Decisions) : bool :=
  existsb (Decision_eqb delete) (values d).

(** What holds of the session in every stage the web app can be in. *)
Definition session_ok (s : Session) : Prop :=
  match sess_stage s with
  | welcome => True
  | fetching => sess_state s <> None
  | review => review_groups s <> None
  | executing | finished =>
      exists st g d,
        sess_state s = Some st /\ st_groups st = Some g /\
        st_decisions st = Some d /\ some_delete d = true
  end.

(** [decisions[k] = v] for an item [(k, v)]. *)
Definition assign (d : Decisions) (kv : pystr * Decision) : Decisions :=
  set (fst kv) (snd kv) d.

(** The saved files hold archives of this run. *)
Definition records_ok (w : World) (groups : Groups) (decisions : Decisions)
           (st : ExecState) : Prop :=
  forall p, In p (saved st) ->
    exists r, get p (disk st) = Some (Archive r) /\
              archived_ok w groups decisions p r.

(** The files that were not saved are as they were at the start. *)
Definition others_untouched (disk0 : dict FileContent) (st : ExecState)
  : Prop :=
  forall p, ~ In p (saved st) -> get p (disk st) = get p disk0.

(** Path [p] was opened for writing by a write that then failed: the
    write is an event of [tr], it went to [p], and the open before it
    succeeded (the tick of a write is the length of the trace before
    it). *)
Definition truncated (w : World) (tr : list Event) (p : pystr) : Prop :=
  exists pre s f post,
    tr = pre ++ FileWrite s f false :: post /\
    path_join (save_dir w) f = p /\
    open_ok w (List.length pre) p = true.

(** The archive directory at the end of a step, returned or raised. *)
Definition disk_ok (w : World) (groups : Groups) (decisions : Decisions)
           (disk0 : dict FileContent) (st : ExecState) : Prop :=
  (forall p, In p (saved st) -> ~ truncated w (trace st) p ->
     exists r, get p (disk st) = Some (Archive r) /\
               archived_ok w groups decisions p r) /\
  (forall p, ~ In p (saved st) -> ~ truncated w (trace st) p ->
     get p (disk st) = get p disk0) /\
  (forall p, truncated w (trace st) p -> get p (disk st) = Some Damaged).

Definition no_failed_write (tr : list Event) : Prop :=
  forall ev, In ev tr -> is_failed_write ev = false.

(* ================================================================ *)
(** * Facts about strings and dictionaries *)
(* ================================================================ *)

Lemma pystr_eqb_eq (a b : pystr) : pystr_eqb a b = true <-> a = b.
Proof.
  unfold pystr_eqb. destruct (pystr_eq_dec a b); split; congruence.
Qed.

Lemma pystr_eqb_refl (a : pystr) : pystr_eqb a a = true.
Proof. now apply pystr_eqb_eq. Qed.

Lemma pystr_eqb_neq (a b : pystr) : pystr_eqb a b = false <-> a <> b.
Proof.
  unfold pystr_eqb. destruct (pystr_eq_dec a b); split; congruence.
Qed.

Lemma contains_In (c : codepoint) (s : pystr) :
  contains c s = true <-> In c s.
Proof.
  unfold contains. rewrite existsb_exists. split.
  - intros (x & Hx & E). apply N.eqb_eq in E. now subst.
  - intro H. exists c. split; [assumption | apply N.eqb_refl].
Qed.

Lemma contains_not_In (c : codepoint) (s : pystr) :
  contains c s = false <-> ~ In c s.
Proof.
  rewrite <- contains_In. destruct (contains c s); split; congruence.
Qed.

(** The first field of a split is the text before the first separator,
    and the other fields are the split of what follows it. *)
Lemma split_on_head (c : codepoint) (s : pystr) :
  exists h r,
    s = h ++ r /\ ~ In c h /\
    (r = [] \/ exists r', r = c :: r') /\
    nth_error (split_on c s) 0 = Some h /\
    (forall r', r = c :: r' -> split_on c s = h :: split_on c r').
Proof.
  induction s as [|x s IH].
  - exists [], []. simpl. repeat split; auto. intros r' E. discriminate.
  - simpl. destruct (N.eqb_spec x c) as [->|Hxc].
    + exists [], (c :: s). simpl. repeat split; auto.
      * right. now exists s.
      * intros r' E. now injection E as ->.
    + destruct IH as (h & r & Es & Hh & Hr & Hn & Hs).
      exists (x :: h), r.
      destruct (split_on c s) as [|h0 t] eqn:Esp; [discriminate|].
      simpl in Hn. injection Hn as ->.
      repeat split.
      * simpl. now rewrite Es.
      * simpl. intros [E|Hin]; [congruence | now apply Hh].
      * exact Hr.
      * intros r' E. specialize (Hs r' E). now injection Hs as <-.
Qed.

(** ** Dictionaries *)

Lemma get_set_same {V} (k : pystr) (v : V) (d : dict V) :
  get k (set k v d) = Some v.
Proof.
  induction d as [|[k' v'] d IH]; simpl.
  - now rewrite pystr_eqb_refl.
  - destruct (pystr_eqb k k') eqn:E; simpl; rewrite E; auto.
Qed.

Lemma get_set_other {V} (k k' : pystr) (v : V) (d : dict V) :
  k <> k' -> get k' (set k v d) = get k' d.
Proof.
  intro Hne. induction d as [|[k0 v0] d IH]; simpl.
  - apply not_eq_sym in Hne. apply pystr_eqb_neq in Hne. now rewrite Hne.
  - destruct (pystr_eqb k k0) eqn:E; simpl.
    + apply pystr_eqb_eq in E. subst k0.
      apply not_eq_sym in Hne. apply pystr_eqb_neq in Hne.
      now rewrite Hne.
    + now rewrite IH.
Qed.

Lemma get_None_keys {V} (k : pystr) (d : dict V) :
  get k d = None <-> ~ In k (keys d).
Proof.
  induction d as [|[k' v'] d IH]; simpl.
  - split; [intros _ [] | reflexivity].
  - destruct (pystr_eqb k k') eqn:E.
    + apply pystr_eqb_eq in E. subst. split; [discriminate|].
      intro H. exfalso. apply H. now left.
    + apply pystr_eqb_neq in E. rewrite IH. split.
      * intros H [E'|H']; [congruence | contradiction].
      * intros H H'. apply H. now right.
Qed.

Lemma get_Some_In {V} (k : pystr) (v : V) (d : dict V) :
  get k d = Some v -> In (k, v) d.
Proof.
  induction d as [|[k' v'] d IH]; simpl; [discriminate|].
  destruct (pystr_eqb k k') eqn:E.
  - apply pystr_eqb_eq in E. subst. intro H. injection H as ->. now left.
  - intro H. right. now apply IH.
Qed.

Lemma In_get_Some {V} (k : pystr) (v : V) (d : dict V) :
  wf d -> In (k, v) d -> get k d = Some v.
Proof.
  unfold wf. induction d as [|[k' v'] d IH]; simpl; [intros _ []|].
  intros Hnd [E|Hin].
  - injection E as -> ->. now rewrite pystr_eqb_refl.
  - inversion Hnd as [|? ? Hni Hnd']; subst.
    destruct (pystr_eqb k k') eqn:E.
    + apply pystr_eqb_eq in E. subst. exfalso. apply Hni.
      change k' with (fst (k', v)). now apply in_map.
    + now apply IH.
Qed.

(** Assigning to an absent key appends the item. *)
Lemma set_absent {V} (k : pystr) (v : V) (d : dict V) :
  get k d = None -> set k v d = d ++ [(k, v)].
Proof.
  induction d as [|[k' v'] d IH]; simpl; [reflexivity|].
  destruct (pystr_eqb k k'); [discriminate|].
  intro H. now rewrite IH.
Qed.

(** Assigning to a present key replaces the value where it stands. *)
Lemma set_present {V} (k : pystr) (v0 v : V) (d : dict V) :
  get k d = Some v0 ->
  exists d1 d2, d = d1 ++ (k, v0) :: d2 /\ set k v d = d1 ++ (k, v) :: d2.
Proof.
  induction d as [|[k' v'] d IH]; simpl; [discriminate|].
  destruct (pystr_eqb k k') eqn:E.
  - apply pystr_eqb_eq in E. subst. intro H. injection H as ->.
    now exists [], d.
  - intro H. destruct (IH H) as (d1 & d2 & E1 & E2).
    exists ((k', v') :: d1), d2. simpl. now rewrite <- E1, E2.
Qed.

Lemma keys_app {V} (d1 d2 : dict V) : keys (d1 ++ d2) = keys d1 ++ keys d2.
Proof. unfold keys. apply map_app. Qed.

Lemma wf_set {V} (k : pystr) (v : V) (d : dict V) : wf d -> wf (set k v d).
Proof.
  unfold wf. intro H. destruct (get k d) as [v0|] eqn:G.
  - destruct (set_present _ _ v _ G) as (d1 & d2 & E1 & E2).
    rewrite E2. rewrite E1 in H. rewrite keys_app in *. exact H.
  - rewrite (set_absent _ v _ G), keys_app. simpl.
    apply get_None_keys in G.
    apply NoDup_app; auto.
    + constructor; [intros [] | constructor].
    + intros x Hx [<-|[]]. contradiction.
Qed.

(* ================================================================ *)
(** * Group *)
(* ================================================================ *)

(** The sender expression never raises. *)
Lemma normalize_sender_total (raw : pystr) :
  exists k, normalize_sender raw = Some k.
Proof.
  unfold normalize_sender. set (t := strip raw).
  destruct (contains LT t && contains GT t) eqn:Hc; [|eauto].
  apply andb_true_iff in Hc. destruct Hc as [Hlt _].
  apply contains_In in Hlt.
  destruct (split_on_head LT t) as (pre & r & Et & Hpre & Hr & _ & Hsp).
  destruct Hr as [->|(r' & ->)].
  { rewrite app_nil_r in Et. subst pre. contradiction. }
  rewrite (Hsp r' eq_refl).
  change (nth_error (pre :: split_on LT r') 1)
    with (nth_error (split_on LT r') 0).
  destruct (split_on_head LT r') as (a & r1 & _ & _ & _ & Hn1 & _).
  rewrite Hn1.
  destruct (split_on_head GT a) as (b & r2 & _ & _ & _ & Hn2 & _).
  rewrite Hn2. eauto.
Qed.

(** C3 (as amended).  The sender is trimmed first.  When the trimmed
    string lacks "<" or lacks ">", the key is the lower-cased trimmed
    string.  When it has both, the key is the lower-cased, trimmed text
    that follows the first "<" and runs up to the next "<" or ">" (or to
    the end of the string when neither follows). *)
Theorem normalize_sender_shape (raw : pystr) :
  let t := strip raw in
  (contains LT t && contains GT t = false /\
   normalize_sender raw = Some (lower t))
  \/
  (exists pre seg rest,
      t = pre ++ LT :: seg ++ rest /\
      ~ In LT pre /\ ~ In LT seg /\ ~ In GT seg /\
      (rest = [] \/ exists c r, rest = c :: r /\ (c = LT \/ c = GT)) /\
      In GT t /\
      normalize_sender raw = Some (lower (strip seg))).
Proof.
  intro t. unfold normalize_sender. fold t.
  destruct (contains LT t && contains GT t) eqn:Hc; [right | left; auto].
  apply andb_true_iff in Hc. destruct Hc as [Hlt Hgt].
  apply contains_In in Hlt. apply contains_In in Hgt.
  destruct (split_on_head LT t) as (pre & r & Et & Hpre & Hr & _ & Hsp).
  destruct Hr as [->|(r' & ->)].
  { rewrite app_nil_r in Et. subst pre. contradiction. }
  rewrite (Hsp r' eq_refl).
  change (nth_error (pre :: split_on LT r') 1)
    with (nth_error (split_on LT r') 0).
  destruct (split_on_head LT r') as (a & r1 & Er' & Ha & Hr1 & Hn1 & _).
  rewrite Hn1.
  destruct (split_on_head GT a) as (b & r2 & Ea & Hb & Hr2 & Hn2 & _).
  rewrite Hn2.
  exists pre, b, (r2 ++ r1). repeat split; auto.
  - rewrite Et, Er', Ea. now rewrite <- app_assoc.
  - intro Hin. apply Ha. rewrite Ea. apply in_or_app. now left.
  - destruct Hr2 as [->|(r2' & ->)].
    + simpl. destruct Hr1 as [->|(r1' & ->)]; [now left|].
      right. exists LT, r1'. auto.
    + right. exists GT, (r2' ++ r1). auto.
Qed.

(** ** The grouping loop *)

Lemma all_emails_app (g1 g2 : Groups) :
  all_emails (g1 ++ g2) = all_emails g1 ++ all_emails g2.
Proof. unfold all_emails. apply flat_map_app. Qed.

Lemma add_email_inv (groups : Groups) (done : list Email) (e : Email) :
  groups_inv groups done ->
  exists groups',
    add_email groups e = Some groups' /\ groups_inv groups' (done ++ [e]).
Proof.
  intros (Hwf & Hok & Hperm).
  unfold add_email.
  destruct (normalize_sender_total (sender e)) as (k & Hk). rewrite Hk.
  unfold mem. destruct (get k groups) as [g|] eqn:G.
  - (* the sender already has a group *)
    rewrite G. eexists. split; [reflexivity|].
    destruct (set_present _ _
                {| group_sender := group_sender g;
                   emails := emails g ++ [e];
                   count := count g + 1 |} _ G) as (d1 & d2 & E1 & E2).
    rewrite E2. subst groups.
    assert (Hg : group_ok k g) by (apply Hok, in_elt).
    destruct Hg as (Hs & Hc & Hn).
    split; [|split].
    + unfold wf in *. rewrite keys_app in *. exact Hwf.
    + intros k' g' Hin. apply in_app_or in Hin.
      destruct Hin as [Hin|[Heq|Hin]].
      * apply Hok. apply in_or_app. now left.
      * injection Heq as <- <-. repeat split; simpl; auto.
        -- rewrite length_app. simpl. lia.
        -- intros e' He'. apply in_app_or in He'.
           destruct He' as [He'|[<-|[]]]; auto.
      * apply Hok. apply in_or_app. right. now right.
    + rewrite all_emails_app in *. simpl in *.
      rewrite <- app_assoc.
      apply Permutation_trans
        with (l' := (all_emails d1 ++ emails g ++ all_emails d2) ++ [e]).
      * rewrite <- !app_assoc. apply Permutation_app_head.
        apply Permutation_app_head. apply Permutation_app_comm.
      * now apply Permutation_app_tail.
  - (* a new group is created first *)
    rewrite get_set_same. eexists. split; [reflexivity|].
    rewrite (set_absent _ (new_group k) _ G).
    assert (G' : get k (groups ++ [(k, new_group k)]) = Some (new_group k)).
    { rewrite <- (set_absent _ (new_group k) _ G). apply get_set_same. }
    destruct (set_present _ _
                {| group_sender := group_sender (new_group k);
                   emails := emails (new_group k) ++ [e];
                   count := count (new_group k) + 1 |} _ G')
      as (d1 & d2 & E1 & E2).
    (* the new item is the last one *)
    assert (Hlast : d2 = [] /\ d1 = groups).
    { apply get_None_keys in G.
      destruct d2 as [|x d2] using rev_ind.
      - split; [reflexivity|]. now apply app_inj_tail in E1.
      - exfalso. clear IHd2.
        rewrite app_comm_cons, app_assoc in E1.
        apply app_inj_tail in E1. destruct E1 as [E1 _].
        apply G. rewrite E1, keys_app. apply in_or_app. right. now left. }
    destruct Hlast as [-> ->]. rewrite E2. simpl.
    split; [|split].
    + unfold wf in *. rewrite keys_app. simpl.
      apply get_None_keys in G.
      apply NoDup_app; auto.
      * constructor; [intros [] | constructor].
      * intros x Hx [<-|[]]. contradiction.
    + intros k' g' Hin. apply in_app_or in Hin.
      destruct Hin as [Hin|[Heq|[]]]; [now apply Hok|].
      injection Heq as <- <-. repeat split; simpl; auto.
      intros e' [<-|[]]. assumption.
    + rewrite all_emails_app. simpl.
      now apply Permutation_app_tail.
Qed.

Lemma group_loop_inv (es : list Email) :
  forall groups done,
    groups_inv groups done ->
    exists groups',
      group_loop es groups = Some groups' /\
      groups_inv groups' (done ++ es).
Proof.
  induction es as [|e es IH]; intros groups done Hinv; simpl.
  - exists groups. rewrite app_nil_r. auto.
  - destruct (add_email_inv _ _ e Hinv) as (g1 & -> & Hinv1).
    destruct (IH _ _ Hinv1) as (g2 & Hg2 & Hinv2).
    exists g2. split; [assumption|].
    now rewrite <- app_assoc in Hinv2.
Qed.

Lemma group_by_sender_inv (es : list Email) :
  exists groups, group_by_sender es = Some groups /\ groups_inv groups es.
Proof.
  apply (group_loop_inv es [] []).
  split; [constructor | split; [intros k g [] | constructor]].
Qed.

Lemma total_count_length (groups : Groups) :
  (forall k g, In (k, g) groups -> count g = List.length (emails g)) ->
  total_count groups = List.length (all_emails groups).
Proof.
  unfold total_count, all_emails.
  induction groups as [|[k g] groups IH]; intro H; simpl; [reflexivity|].
  rewrite length_app, (H k g) by now left.
  rewrite IH; [reflexivity|]. intros k' g' Hin. apply (H k' g'). now right.
Qed.

(** C2.  Grouping returns, and what it returns is a partition of the
    fetched emails: the keys are distinct, every group's count is the
    length of its email sequence, a group holds only emails whose
    normalised sender is its key, the groups together hold the fetched
    emails (each as often as it was fetched), the counts add up to the
    number of fetched emails, and an email lies in exactly one group. *)
Theorem group_by_sender_partition (es : list Email) :
  exists groups,
    group_by_sender es = Some groups /\
    wf groups /\
    (forall k g, In (k, g) groups ->
       group_sender g = k /\
       count g = List.length (emails g) /\
       forall e, In e (emails g) -> normalize_sender (sender e) = Some k) /\
    Permutation (all_emails groups) es /\
    total_count groups = List.length es /\
    (forall e, In e es ->
       exists k g,
         In (k, g) groups /\ In e (emails g) /\
         forall k' g', In (k', g') groups -> In e (emails g') ->
                       k' = k /\ g' = g).
Proof.
  destruct (group_by_sender_inv es) as (groups & Hg & Hwf & Hok & Hperm).
  exists groups. repeat split; auto; try (now apply (Hok k g)).
  - rewrite total_count_length.
    + now apply Permutation_length.
    + intros k g Hin. now apply (Hok k g).
  - intros e He.
    apply (Permutation_in _ (Permutation_sym Hperm)) in He.
    unfold all_emails in He. apply in_flat_map in He.
    destruct He as ([k g] & Hin & He). simpl in He.
    exists k, g. repeat split; auto.
    + destruct (Hok _ _ Hin) as (_ & _ & Hn).
      destruct (Hok _ _ H) as (_ & _ & Hn').
      specialize (Hn _ He). specialize (Hn' _ H0). congruence.
    + destruct (Hok _ _ Hin) as (_ & _ & Hn).
      destruct (Hok _ _ H) as (_ & _ & Hn').
      specialize (Hn _ He). specialize (Hn' _ H0).
      assert (k' = k) by congruence. subst k'.
      apply In_get_Some in Hin; auto. apply In_get_Some in H; auto.
      congruence.
Qed.

(* ================================================================ *)
(** * Decide *)
(* ================================================================ *)

(** ** The stable sort *)

Section StableSort.
Context {A : Type} (key : A -> Z).

Lemma insert_by_perm (x : A) (l : list A) :
  Permutation (insert_by key x l) (x :: l).
Proof.
  induction l as [|y l IH]; simpl; [reflexivity|].
  destruct (key x <=? key y)%Z; [reflexivity|].
  rewrite IH. apply perm_swap.
Qed.

Lemma sorted_by_perm (l : list A) : Permutation (sorted_by key l) l.
Proof.
  induction l as [|x l IH]; simpl; [reflexivity|].
  rewrite insert_by_perm. now constructor.
Qed.

Lemma insert_by_sorted (x : A) (l : list A) :
  StronglySorted (key_le key) l -> StronglySorted (key_le key) (insert_by key x l).
Proof.
  induction l as [|y l IH]; intro Hs; simpl.
  - repeat constructor.
  - inversion Hs as [|? ? Hs' Hall]; subst.
    destruct (Z.leb_spec (key x) (key y)) as [Hle|Hgt].
    + constructor; [assumption|]. constructor; [assumption|].
      eapply Forall_impl; [|exact Hall].
      intros a Ha. unfold key_le in *. lia.
    + constructor; [now apply IH|].
      apply (Permutation_Forall (Permutation_sym (insert_by_perm x l))).
      constructor; [unfold key_le; lia | assumption].
Qed.

Lemma sorted_by_sorted (l : list A) :
  StronglySorted (key_le key) (sorted_by key l).
Proof.
  induction l as [|x l IH]; simpl; [constructor|].
  now apply insert_by_sorted.
Qed.

(** Items of equal key keep the order they had. *)
Lemma insert_by_filter (c : Z) (x : A) (l : list A) :
  filter (fun a => (key a =? c)%Z) (insert_by key x l) =
  filter (fun a => (key a =? c)%Z) (x :: l).
Proof.
  induction l as [|y l IH]; [reflexivity|].
  cbn [insert_by].
  destruct (Z.leb_spec (key x) (key y)) as [Hle|Hgt]; [reflexivity|].
  cbn [filter] in *. rewrite IH.
  destruct (Z.eqb_spec (key x) c), (Z.eqb_spec (key y) c);
    try reflexivity.
  lia.
Qed.

Lemma sorted_by_stable (c : Z) (l : list A) :
  filter (fun a => (key a =? c)%Z) (sorted_by key l) =
  filter (fun a => (key a =? c)%Z) l.
Proof.
  induction l as [|x l IH]; [reflexivity|].
  cbn [sorted_by fold_right]. rewrite insert_by_filter.
  cbn [filter]. fold (sorted_by key l). now rewrite IH.
Qed.
End StableSort.

Lemma StronglySorted_weaken {A : Type} (R R' : A -> A -> Prop)
      (l : list A) :
  (forall a b, R a b -> R' a b) ->
  StronglySorted R l -> StronglySorted R' l.
Proof.
  intros HR Hs. induction Hs as [|a l Hs IH Hall]; constructor; auto.
  eapply Forall_impl; [|exact Hall]. intros b. apply HR.
Qed.

(** ** The console loop *)

Lemma ask_recognised (line : pystr) (rest : list pystr) :
  recognised line = true ->
  exists d, ask (line :: rest) = Some (d, rest).
Proof.
  unfold recognised. cbn [ask].
  destruct (is_empty (lower (strip line)) ||
            member (lower (strip line)) skip_words); simpl.
  - intros _. now exists skip.
  - intros ->. now exists delete.
Qed.

Lemma review_loop_shown (order : list (pystr * SenderGroup)) :
  forall inputs decisions shown,
    exists n,
      snd (review_loop order inputs decisions shown) =
      shown ++ firstn n (shown_labels order) /\
      (forall ds, fst (review_loop order inputs decisions shown) = Some ds ->
                  snd (review_loop order inputs decisions shown) =
                  shown ++ shown_labels order).
Proof.
  induction order as [|[s g] order IH]; intros inputs decisions shown.
  - exists 0. simpl. rewrite app_nil_r. auto.
  - cbn [review_loop].
    destruct (ask inputs) as [[d inputs']|].
    + destruct (IH inputs' (set s d decisions) (shown ++ [group_sender g]))
        as (n & Hn & Hall).
      exists (S n). simpl. rewrite <- app_assoc in Hn, Hall. simpl in *.
      split; [exact Hn | exact Hall].
    + exists 1. simpl. split; [reflexivity | discriminate].
Qed.

Lemma review_loop_returns (order : list (pystr * SenderGroup)) :
  forall inputs decisions shown,
    Forall (fun l => recognised l = true) inputs ->
    List.length order <= List.length inputs ->
    exists ds, fst (review_loop order inputs decisions shown) = Some ds.
Proof.
  induction order as [|[s g] order IH]; intros inputs decisions shown Hr Hl.
  - simpl. eauto.
  - destruct inputs as [|line rest]; [simpl in Hl; lia|].
    inversion Hr as [|? ? Hline Hrest]; subst.
    destruct (ask_recognised line rest Hline) as (d & Hd).
    cbn [review_loop]. rewrite Hd.
    apply IH; [assumption | simpl in Hl; lia].
Qed.

(** The decisions the console hands on form a dictionary. *)
Lemma review_loop_wf (order : list (pystr * SenderGroup)) :
  forall inputs decisions shown ds,
    wf decisions ->
    fst (review_loop order inputs decisions shown) = Some ds -> wf ds.
Proof.
  induction order as [|[s g] order IH]; intros inputs decisions shown ds Hwf.
  - simpl. intro H. now injection H as <-.
  - cbn [review_loop]. destruct (ask inputs) as [[d inputs']|].
    + apply IH. now apply wf_set.
    + discriminate.
Qed.

Lemma human_review_wf (groups : Groups) (inputs : list pystr)
      (ds : Decisions) :
  fst (human_review groups inputs) = Some ds -> wf ds.
Proof. apply review_loop_wf. constructor. Qed.

(** C9.  Both front ends walk the groups in [review_order]: it holds
    every group once, counts never increase along it, and groups of equal
    count keep the order they have in the mapping.  The web front end
    renders all of it; the console shows an initial part of it, all of it
    whenever the step returns, and the step returns when every line
    typed is a recognised answer and there is one per group. *)
Theorem review_order_descending_stable (groups : Groups) :
  Permutation (review_order groups) groups /\
  StronglySorted
    (fun x y => count (snd y) <= count (snd x)) (review_order groups) /\
  (forall n,
      filter (fun x => count (snd x) =? n) (review_order groups) =
      filter (fun x => count (snd x) =? n) groups) /\
  review_stage_shown groups = List.map fst (review_order groups) /\
  (forall inputs,
      (exists n, snd (human_review groups inputs) =
                 firstn n (shown_labels (review_order groups))) /\
      (forall ds, fst (human_review groups inputs) = Some ds ->
                  snd (human_review groups inputs) =
                  shown_labels (review_order groups)) /\
      (Forall (fun l => recognised l = true) inputs ->
       List.length groups <= List.length inputs ->
       exists ds, fst (human_review groups inputs) = Some ds)).
Proof.
  unfold review_order. split; [|split; [|split; [|split]]].
  - apply sorted_by_perm.
  - apply StronglySorted_weaken with (R := key_le review_key);
      [|apply sorted_by_sorted].
    intros x y. unfold key_le, review_key. lia.
  - intro n.
    assert (E : forall l : list (pystr * SenderGroup),
               filter (fun x => count (snd x) =? n) l =
               filter (fun x => (review_key x =? - Z.of_nat n)%Z) l).
    { intro l. apply filter_ext. intros [k g]. unfold review_key. simpl.
      destruct (Nat.eqb_spec (count g) n),
               (Z.eqb_spec (- Z.of_nat (count g)) (- Z.of_nat n));
        auto; lia. }
    rewrite !E. apply sorted_by_stable.
  - reflexivity.
  - intro inputs. unfold human_review, review_order.
    destruct (review_loop_shown (sorted_by review_key groups) inputs [] [])
      as (n & Hn & Hall).
    split; [|split].
    + exists n. exact Hn.
    + exact Hall.
    + intros Hr Hl. apply review_loop_returns; [assumption|].
      now rewrite (Permutation_length (sorted_by_perm review_key groups)).
Qed.

(** ** The answers of the decide step *)

Lemma member_In (s : pystr) (ws : list pystr) :
  member s ws = true <-> In s ws.
Proof.
  unfold member. rewrite existsb_exists. split.
  - intros (x & Hx & E). apply pystr_eqb_eq in E. now subst.
  - intro H. exists s. split; [assumption | apply pystr_eqb_refl].
Qed.

Lemma delete_word_not_skip (choice : pystr) :
  In choice delete_words ->
  is_empty choice || member choice skip_words = false.
Proof.
  unfold delete_words. simpl.
  intros [<-|[<-|[<-|[<-|[<-|[]]]]]]; reflexivity.
Qed.

Lemma skip_answer_not_delete (choice : pystr) :
  is_empty choice || member choice skip_words = true ->
  member choice delete_words = false.
Proof.
  intro H. destruct (member choice delete_words) eqn:M; [|reflexivity].
  apply member_In in M. apply delete_word_not_skip in M. congruence.
Qed.

(** A recognised line settles the sender, as the worded rule says. *)
Lemma ask_recognised_choice (line : pystr) (rest : list pystr) :
  recognised line = true ->
  ask (line :: rest) = Some (spec_choice line, rest).
Proof.
  unfold recognised, spec_choice. cbn [ask].
  destruct (is_empty (lower (strip line)) ||
            member (lower (strip line)) skip_words) eqn:C.
  - intros _. now rewrite (skip_answer_not_delete _ C).
  - cbn [orb]. now intros ->.
Qed.

Lemma ask_unrecognised (line : pystr) (rest : list pystr) :
  recognised line = false -> ask (line :: rest) = ask rest.
Proof.
  unfold recognised. cbn [ask]. intro H.
  apply orb_false_iff in H. destruct H as [-> ->]. reflexivity.
Qed.

Lemma ask_filter (inputs : list pystr) :
  ask (filter recognised inputs) =
  match ask inputs with
  | Some (d, rest) => Some (d, filter recognised rest)
  | None => None
  end.
Proof.
  induction inputs as [|line rest IH]; [reflexivity|].
  cbn [filter]. destruct (recognised line) eqn:R.
  - now rewrite !ask_recognised_choice.
  - now rewrite ask_unrecognised.
Qed.

Lemma review_loop_filter (order : list (pystr * SenderGroup)) :
  forall inputs decisions shown,
    review_loop order inputs decisions shown =
    review_loop order (filter recognised inputs) decisions shown.
Proof.
  induction order as [|[s g] order IH]; intros inputs decisions shown;
    [reflexivity|].
  cbn [review_loop]. rewrite ask_filter.
  destruct (ask inputs) as [[d rest]|]; [apply IH | reflexivity].
Qed.

Lemma review_loop_enough (order : list (pystr * SenderGroup)) :
  forall lines decisions shown,
    Forall (fun l => recognised l = true) lines ->
    List.length order <= List.length lines ->
    review_loop order lines decisions shown =
    (Some (fold_left assign
             (combine (List.map fst order)
                      (List.map spec_choice
                                (firstn (List.length order) lines)))
             decisions),
     shown ++ shown_labels order).
Proof.
  induction order as [|[s g] order IH]; intros lines decisions shown Hr Hl.
  - simpl. now rewrite app_nil_r.
  - destruct lines as [|line rest]; [simpl in Hl; lia|].
    inversion Hr as [|? ? Hline Hrest]; subst.
    cbn [review_loop]. rewrite (ask_recognised_choice line rest Hline).
    rewrite IH by (auto; simpl in Hl; lia).
    simpl. now rewrite <- app_assoc.
Qed.

Lemma review_loop_short (order : list (pystr * SenderGroup)) :
  forall lines decisions shown,
    Forall (fun l => recognised l = true) lines ->
    List.length lines < List.length order ->
    review_loop order lines decisions shown =
    (None, shown ++ firstn (S (List.length lines)) (shown_labels order)).
Proof.
  induction order as [|[s g] order IH]; intros lines decisions shown Hr Hl.
  - simpl in Hl. lia.
  - destruct lines as [|line rest].
    + reflexivity.
    + inversion Hr as [|? ? Hline Hrest]; subst.
      cbn [review_loop]. rewrite (ask_recognised_choice line rest Hline).
      rewrite IH by (auto; simpl in Hl; lia).
      simpl. now rewrite <- app_assoc.
Qed.

Lemma fold_assign_fresh (l : list (pystr * Decision)) :
  forall d : Decisions,
    NoDup (List.map fst l) ->
    (forall k, In k (List.map fst l) -> get k d = None) ->
    fold_left assign l d = d ++ l.
Proof.
  induction l as [|[k v] l IH]; intros d Hnd Hfresh.
  - simpl. now rewrite app_nil_r.
  - inversion Hnd as [|? ? Hk Hnd']; subst.
    cbn [fold_left]. unfold assign at 2. cbn [fst snd].
    rewrite (set_absent k v d) by (apply Hfresh; now left).
    rewrite IH; [now rewrite <- app_assoc | exact Hnd' |].
    intros k' Hk'. apply get_None_keys. rewrite keys_app.
    intro Hin. apply in_app_or in Hin. destruct Hin as [Hin|[<-|[]]].
    + assert (G : get k' d = None) by (apply Hfresh; now right).
      now apply get_None_keys in G.
    + contradiction.
Qed.

Lemma combine_keys_prefix {B : Type} (ks : list pystr) (vs : list B) :
  NoDup ks -> NoDup (List.map fst (combine ks vs)).
Proof.
  intro Hnd. revert vs.
  induction Hnd as [|k ks Hk Hnd IH]; intros [|v vs]; simpl;
    try constructor; auto.
  intro Hin. apply Hk. apply in_map_iff in Hin.
  destruct Hin as ([k' v'] & E & Hin). simpl in E. subst k'.
  now apply in_combine_l in Hin.
Qed.

(** A decision that the loop has stored for a sender it will not meet
    again is in the mapping it returns. *)
Lemma review_loop_keeps (order : list (pystr * SenderGroup)) :
  forall inputs decisions shown final k v,
    get k decisions = Some v ->
    ~ In k (List.map fst order) ->
    fst (review_loop order inputs decisions shown) = Some final ->
    get k final = Some v.
Proof.
  induction order as [|[s g] order IH];
    intros inputs decisions shown final k v G Hk.
  - simpl. intro E. now injection E as <-.
  - cbn [review_loop]. destruct (ask inputs) as [[d inputs']|];
      [|discriminate].
    apply IH.
    + rewrite get_set_other; [exact G|].
      intros ->. apply Hk. now left.
    + intro H. apply Hk. now right.
Qed.

(** C8 (as amended).  On the console an empty line, "skip", "keep" or
    "k" (after trimming and lower-casing) gives skip; "d", "delete", "t",
    "trash" or "remove" gives delete; any other line is not accepted: it
    is consumed and the prompt is repeated, and when no line is left the
    read raises.  The review loop stores the answer under the sender on
    display and goes on to the next sender with the lines that are left,
    and the answer is the sender's decision in the mapping the step
    returns; a line that is not accepted leaves the sender on display and
    the mapping as it was.  So the step returns, when there is an
    accepted line for each group, the senders in the order shown, each
    with the choice of its accepted line.  In the web front end a sender
    without a button press shows skip, "Keep" stores skip and "Delete"
    stores delete. *)
Theorem decide_inputs (line : pystr) (rest : list pystr)
        (decisions : Decisions) (s : pystr) :
  let choice := lower (strip line) in
  (is_empty choice = true \/ In choice skip_words ->
   ask (line :: rest) = Some (skip, rest)) /\
  (In choice delete_words -> ask (line :: rest) = Some (delete, rest)) /\
  (is_empty choice = false -> ~ In choice skip_words ->
   ~ In choice delete_words -> ask (line :: rest) = ask rest) /\
  ask [] = None /\
  (get s decisions = None -> current_choice decisions s = skip) /\
  current_choice (click decisions (KeepClick s)) s = skip /\
  current_choice (click decisions (DeleteClick s)) s = delete /\
  (forall g order shown,
     (is_empty choice = true \/ In choice skip_words ->
      review_loop ((s, g) :: order) (line :: rest) decisions shown =
      review_loop order rest (set s skip decisions)
                  (shown ++ [group_sender g])) /\
     (In choice delete_words ->
      review_loop ((s, g) :: order) (line :: rest) decisions shown =
      review_loop order rest (set s delete decisions)
                  (shown ++ [group_sender g])) /\
     (is_empty choice = false -> ~ In choice skip_words ->
      ~ In choice delete_words ->
      review_loop ((s, g) :: order) (line :: rest) decisions shown =
      review_loop ((s, g) :: order) rest decisions shown) /\
     review_loop ((s, g) :: order) [] decisions shown =
       (None, shown ++ [group_sender g]) /\
     (forall final,
        ~ In s (List.map fst order) ->
        fst (review_loop ((s, g) :: order) (line :: rest) decisions shown)
          = Some final ->
        (is_empty choice = true \/ In choice skip_words ->
         get s final = Some skip) /\
        (In choice delete_words -> get s final = Some delete))) /\
  (forall groups inputs,
     wf groups ->
     List.length groups <= List.length (filter recognised inputs) ->
     human_review groups inputs =
     (Some (combine (List.map fst (review_order groups))
                    (List.map
                       (fun l => if member (lower (strip l)) delete_words
                                 then delete else skip)
                       (firstn (List.length groups)
                               (filter recognised inputs)))),
      shown_labels (review_order groups))).
Proof.
  intro choice.
  assert (Hskip : is_empty choice = true \/ In choice skip_words ->
                  ask (line :: rest) = Some (skip, rest)).
  { cbn [ask]. fold choice. intros [He|Hin].
    - now rewrite He.
    - apply member_In in Hin. rewrite Hin. now rewrite orb_true_r. }
  assert (Hdel : In choice delete_words ->
                 ask (line :: rest) = Some (delete, rest)).
  { cbn [ask]. fold choice. intro Hin.
    rewrite (delete_word_not_skip _ Hin).
    apply member_In in Hin. now rewrite Hin. }
  assert (Hother : is_empty choice = false -> ~ In choice skip_words ->
                   ~ In choice delete_words ->
                   ask (line :: rest) = ask rest).
  { cbn [ask]. fold choice. intros He Hs Hd. rewrite He.
    destruct (member choice skip_words) eqn:Ms;
      [apply member_In in Ms; contradiction|].
    destruct (member choice delete_words) eqn:Md;
      [apply member_In in Md; contradiction|].
    reflexivity. }
  split; [exact Hskip|]. split; [exact Hdel|]. split; [exact Hother|].
  split; [reflexivity|].
  split; [unfold current_choice; now intros ->|].
  split; [unfold current_choice, click; now rewrite get_set_same|].
  split; [unfold current_choice, click; now rewrite get_set_same|].
  split.
  - intros g order shown.
    split; [intro H; cbn [review_loop]; now rewrite (Hskip H)|].
    split; [intro H; cbn [review_loop]; now rewrite (Hdel H)|].
    split; [intros He Hs Hd; cbn [review_loop];
            now rewrite (Hother He Hs Hd)|].
    split; [reflexivity|].
    intros final Hfresh Hfin. split; intro H.
    + cbn [review_loop] in Hfin. rewrite (Hskip H) in Hfin.
      apply (review_loop_keeps order rest (set s skip decisions)
               (shown ++ [group_sender g]) final s skip);
        [apply get_set_same | exact Hfresh | exact Hfin].
    + cbn [review_loop] in Hfin. rewrite (Hdel H) in Hfin.
      apply (review_loop_keeps order rest (set s delete decisions)
               (shown ++ [group_sender g]) final s delete);
        [apply get_set_same | exact Hfresh | exact Hfin].
  - intros groups inputs Hwf Hlen.
    assert (Hrec : Forall (fun l => recognised l = true)
                          (filter recognised inputs)).
    { apply Forall_forall. intros l Hl. now apply filter_In in Hl. }
    assert (Hord : List.length (review_order groups) = List.length groups).
    { apply Permutation_length. apply sorted_by_perm. }
    unfold human_review. rewrite review_loop_filter.
    rewrite review_loop_enough by (auto; lia).
    rewrite Hord. rewrite fold_assign_fresh; [reflexivity| |].
    + apply combine_keys_prefix.
      apply (Permutation_NoDup
               (Permutation_map fst
                  (Permutation_sym (sorted_by_perm review_key groups)))).
      exact Hwf.
    + reflexivity.
Qed.

(* ================================================================ *)
(** * Fetch *)
(* ================================================================ *)

(** C6.  When the listing call raises, the fetch stage issues no other
    call (in particular no second listing call) and hands on no email:
    the console node returns the empty list, the web stage returns the
    state as it was, in which the group stage finds no email. *)
Theorem fetch_listing_failure (P : Provider) (max_fetch : Z) :
  list_messages P max_fetch = HttpError ->
  fetch_emails P max_fetch = ([], [CallList max_fetch]) /\
  fetch_emails_app P (initial_state max_fetch) =
    (initial_state max_fetch, [CallList max_fetch]) /\
  state_emails (fst (fetch_emails_app P (initial_state max_fetch))) = [] /\
  group_stage (fst (fetch_emails_app P (initial_state max_fetch))) = Some [].
Proof.
  intro H.
  unfold fetch_emails, fetch_emails_app, fetch_try. simpl.
  rewrite H. repeat split.
Qed.

(** A failing [get] discards the emails built so far as well. *)
Lemma fetch_no_partial_result (P : Provider) (max_fetch : Z) :
  fst (fetch_try P max_fetch) = None ->
  fst (fetch_emails P max_fetch) = [].
Proof.
  unfold fetch_emails. destruct (fetch_try P max_fetch) as [[es|] calls];
    [discriminate | reflexivity].
Qed.

Lemma fetch_loop_all_ok (P : Provider) (ids : list pystr) :
  forall acc,
    Forall (fun i => exists m, get_message P i = ApiOk m) ids ->
    exists es,
      fetch_loop P ids acc = (Some (acc ++ es), List.map CallGet ids) /\
      List.map email_id es = ids /\
      (forall mid msg, In mid ids -> get_message P mid = ApiOk msg ->
                       In (email_of_message mid msg) es).
Proof.
  induction ids as [|i ids IH]; intros acc Hall.
  - exists []. simpl. rewrite app_nil_r. repeat split. intros ? ? [].
  - inversion Hall as [|? ? (m & Hm) Hrest]; subst.
    destruct (IH (acc ++ [email_of_message i m]) Hrest)
      as (es & Hloop & Hids & Hin).
    exists (email_of_message i m :: es).
    cbn [fetch_loop]. rewrite Hm, Hloop. rewrite <- app_assoc.
    repeat split.
    + simpl. now rewrite Hids.
    + intros mid msg [<-|Hmid] Hget.
      * left. congruence.
      * right. now apply Hin.
Qed.

Lemma make_preview_decode_failure (b64 : pystr) :
  b64 <> [] -> urlsafe_b64decode b64 = None ->
  make_preview b64 = decode_error.
Proof.
  intros Hne Hdec. unfold make_preview.
  destruct b64; [contradiction|]. simpl. now rewrite Hdec.
Qed.

(** C7 (as amended).  Take a run in which the listing and every [get]
    succeed, and a listed message with a body.  Whatever the decoder does
    with the body, the fetch stage still returns one email per listed id,
    in order, after exactly the calls of an undisturbed run, and the
    email of that message is among them.  When the decoder rejects the
    body, the preview is the literal "[decode error]"; when the decoder
    returns bytes, the preview is their text, cut to 140 characters and an
    ellipsis when it is longer, however the body was formed. *)
Theorem decode_failure_gives_sentinel
        (P : Provider) (max_fetch : Z) (ids : list pystr)
        (mid : pystr) (msg : Message) :
  list_messages P max_fetch = ApiOk (Some ids) ->
  Forall (fun i => exists m, get_message P i = ApiOk m) ids ->
  In mid ids ->
  get_message P mid = ApiOk msg ->
  extract_body (payload msg) <> [] ->
  exists es,
    fetch_emails P max_fetch =
      (es, CallList max_fetch :: List.map CallGet ids) /\
    List.map email_id es = ids /\
    In (email_of_message mid msg) es /\
    (urlsafe_b64decode (extract_body (payload msg)) = None ->
     preview (email_of_message mid msg) = py "[decode error]") /\
    (forall raw,
       urlsafe_b64decode (extract_body (payload msg)) = Some raw ->
       preview (email_of_message mid msg) =
       if (140 <? List.length (utf8_decode_replace raw))%nat
       then firstn 140 (utf8_decode_replace raw) ++ [ELLIPSIS]
       else utf8_decode_replace raw).
Proof.
  intros Hlist Hall Hin Hget Hne.
  destruct (fetch_loop_all_ok P ids [] Hall) as (es & Hloop & Hids & Hmem).
  exists es. unfold fetch_emails, fetch_try. rewrite Hlist, Hloop. simpl.
  split; [reflexivity|]. split; [exact Hids|]. split; [auto|]. split.
  - now apply make_preview_decode_failure.
  - intros raw Hraw. unfold make_preview.
    destruct (extract_body (payload msg)); [contradiction|].
    simpl. rewrite Hraw. reflexivity.
Qed.

(* ================================================================ *)
(** * Execute *)
(* ================================================================ *)

(** ** Reading traces *)

Lemma written_files_app (a b : list Event) :
  written_files (a ++ b) = written_files a ++ written_files b.
Proof.
  induction a as [|[s f [|]|s m ok] a IH]; simpl; auto. now rewrite IH.
Qed.

Lemma trash_calls_app (a b : list Event) :
  trash_calls (a ++ b) = trash_calls a ++ trash_calls b.
Proof.
  induction a as [|[s f ok|s m ok] a IH]; simpl; auto. now rewrite IH.
Qed.

Lemma trash_successes_app (a b : list Event) :
  trash_successes (a ++ b) = trash_successes a ++ trash_successes b.
Proof.
  induction a as [|[s f ok|s m [|]] a IH]; simpl; auto. now rewrite IH.
Qed.

Lemma saves_for_app (s : pystr) (a b : list Event) :
  saves_for s (a ++ b) = saves_for s a + saves_for s b.
Proof. unfold saves_for. now rewrite filter_app, length_app. Qed.

Lemma written_files_write_events (s : pystr) (es : list Email) :
  written_files (write_events s es) =
  List.map (fun e => archive_filename (email_id e) (safe_sender s)) es.
Proof. induction es as [|e es IH]; simpl; auto. now rewrite IH. Qed.

Lemma written_files_trash_events w s es n :
  written_files (trash_events w s es n) = [].
Proof. revert n. induction es as [|e es IH]; intro n; simpl; auto. Qed.

Lemma trash_calls_write_events (s : pystr) (es : list Email) :
  trash_calls (write_events s es) = [].
Proof. induction es as [|e es IH]; simpl; auto. Qed.

Lemma trash_calls_trash_events w s es n :
  trash_calls (trash_events w s es n) = List.map email_id es.
Proof.
  revert n. induction es as [|e es IH]; intro n; simpl; auto.
  now rewrite IH.
Qed.

Lemma saves_for_write_events (s : pystr) (es : list Email) :
  saves_for s (write_events s es) = List.length es.
Proof.
  unfold saves_for. induction es as [|e es IH]; simpl; auto.
  rewrite pystr_eqb_refl. simpl. now rewrite IH.
Qed.

Lemma saves_for_trash_events s' w s es n :
  saves_for s' (trash_events w s es n) = 0.
Proof.
  unfold saves_for. revert n.
  induction es as [|e es IH]; intro n; simpl; auto.
Qed.

Lemma saves_for_other_sender (s : pystr) (tr : list Event) :
  (forall ev, In ev tr -> event_sender ev <> s) -> saves_for s tr = 0.
Proof.
  unfold saves_for. induction tr as [|ev tr IH]; intro H; simpl; auto.
  destruct ev as [s' f ok|s' m ok]; simpl.
  - destruct (pystr_eqb s s') eqn:E.
    + apply pystr_eqb_eq in E. subst s'.
      exfalso. apply (H (FileWrite s f ok)); [now left | reflexivity].
    + simpl. apply IH. intros ev Hin. apply H. now right.
  - apply IH. intros ev Hin. apply H. now right.
Qed.

(** ** The archive directory only grows *)

Lemma mem_set_same {V} (k : pystr) (v : V) (d : dict V) :
  mem k (set k v d) = true.
Proof. unfold mem. now rewrite get_set_same. Qed.

Lemma mem_set_mono {V} (k k' : pystr) (v : V) (d : dict V) :
  mem k d = true -> mem k (set k' v d) = true.
Proof.
  destruct (pystr_eq_dec k' k) as [->|Hne].
  - intros _. apply mem_set_same.
  - unfold mem. now rewrite get_set_other.
Qed.

(** ** The two loops of one sender *)

(** The save loop writes the files of an initial part of the group; it
    either covers the whole group and returns, or stops at the first
    write that fails. *)
Lemma save_phase_shape (w : World) (s : pystr) (es : list Email) :
  forall st,
    let o := save_phase w s (safe_sender s) es st in
    exists es1 es2 tail,
      es = es1 ++ es2 /\
      trace (final o) = trace st ++ write_events s es1 ++ tail /\
      saved (final o) = saved st ++ sender_paths w s es1 /\
      trashed (final o) = trashed st /\
      (forall k, mem k (disk st) = true -> mem k (disk (final o)) = true) /\
      (forall p, In p (sender_paths w s es1) ->
                 mem p (disk (final o)) = true) /\
      ((o = Returned (final o) /\ es2 = [] /\ tail = []) \/
       (o = Raised (final o) /\
        exists e es2',
          es2 = e :: es2' /\
          tail = [FileWrite s (archive_filename (email_id e) (safe_sender s))
                        false])).
Proof.
  induction es as [|e es IH]; intros st o.
  - exists [], [], []. subst o. simpl. rewrite !app_nil_r.
    repeat split; auto.
  - subst o. cbn [save_phase]. unfold save_email.
    destruct (write_ok w (tick st) _) eqn:Hw.
    + match goal with
      | |- context [save_phase w s (safe_sender s) es ?st1] =>
          destruct (IH st1)
            as (es1 & es2 & tail & Ees & Htr & Hsv & Htd & Hmono & Hnew & Hc)
      end.
      cbn [trace saved trashed disk] in *.
      exists (e :: es1), es2, tail.
      split; [simpl; now rewrite Ees|].
      split; [rewrite Htr; simpl; now rewrite <- app_assoc|].
      split; [rewrite Hsv; simpl; now rewrite <- app_assoc|].
      split; [exact Htd|].
      split; [intros k Hk; apply Hmono; now apply mem_set_mono|].
      split; [|exact Hc].
      intros p [<-|Hp]; [|now apply Hnew].
      apply Hmono. apply mem_set_same.
    + exists [], (e :: es), [FileWrite s (archive_filename (email_id e) (safe_sender s)) false].
      simpl. rewrite app_nil_r.
      split; [reflexivity|]. split; [reflexivity|].
      split; [reflexivity|]. split; [reflexivity|].
      split.
      { intros k Hk. destruct (open_ok w _ _);
          [now apply mem_set_mono | exact Hk]. }
      split; [intros p []|].
      right. split; [reflexivity|]. now exists e, es.
Qed.

Lemma trash_phase_shape (w : World) (s : pystr) (es : list Email) :
  forall st,
    trace (trash_phase w s es st) =
      trace st ++ trash_events w s es (tick st) /\
    saved (trash_phase w s es st) = saved st /\
    disk (trash_phase w s es st) = disk st /\
    trashed (trash_phase w s es st) =
      trashed st ++ trash_successes (trash_events w s es (tick st)).
Proof.
  unfold trash_phase.
  induction es as [|e es IH]; intro st; cbn [fold_left trash_events].
  - rewrite !app_nil_r. auto.
  - destruct (IH (trash_email w s e st)) as (Htr & Hsv & Hdk & Htd).
    rewrite Htr, Hsv, Hdk, Htd. clear IH Htr Hsv Hdk Htd.
    unfold trash_email, tick. cbn [trace saved disk trashed].
    rewrite length_app. simpl List.length. rewrite Nat.add_1_r.
    rewrite <- !app_assoc. simpl.
    repeat split.
    destruct (trash_ok w (List.length (trace st)) (email_id e));
      [now rewrite <- app_assoc | reflexivity].
Qed.

(** What processing one delete-marked sender adds. *)
Lemma process_sender_delete (w : World) (groups : Groups) (s : pystr)
      (g : SenderGroup) (st : ExecState) :
  get s groups = Some g ->
  let o := process_sender w groups s delete st in
  exists es1 es2 tail,
    emails g = es1 ++ es2 /\
    trace (final o) = trace st ++ write_events s es1 ++ tail /\
    saved (final o) = saved st ++ sender_paths w s es1 /\
    trashed (final o) = trashed st ++ trash_successes tail /\
    written_files tail = [] /\
    (forall k, mem k (disk st) = true -> mem k (disk (final o)) = true) /\
    (forall p, In p (sender_paths w s es1) ->
               mem p (disk (final o)) = true) /\
    ((o = Returned (final o) /\ es2 = [] /\
      tail = trash_events w s (emails g)
               (tick st + List.length (emails g))) \/
     (o = Raised (final o) /\
      exists e es2',
        es2 = e :: es2' /\
        tail = [FileWrite s (archive_filename (email_id e) (safe_sender s))
                      false])).
Proof.
  intros G o. subst o. unfold process_sender. rewrite G.
  destruct (save_phase_shape w s (emails g) st)
    as (es1 & es2 & tail & Ees & Htr & Hsv & Htd & Hmono & Hnew & Hc).
  destruct Hc as [(Ho & -> & ->)|(Ho & e & es2' & -> & ->)].
  - rewrite Ho. cbn [final].
    destruct (trash_phase_shape w s (emails g)
                (final (save_phase w s (safe_sender s) (emails g) st)))
      as (Htr' & Hsv' & Hdk' & Htd').
    rewrite app_nil_r in *. subst es1.
    exists (emails g), [], (trash_events w s (emails g)
                              (tick st + List.length (emails g))).
    assert (Etick : tick (final (save_phase w s (safe_sender s) (emails g) st))
                    = tick st + List.length (emails g)).
    { unfold tick. rewrite Htr, length_app. unfold write_events.
      now rewrite length_map. }
    rewrite Etick in *.
    rewrite Htr', Hsv', Hdk', Htd', Htr, Hsv, Htd.
    rewrite app_nil_r, <- app_assoc.
    repeat split; auto.
    apply written_files_trash_events.
  - rewrite Ho. cbn [final].
    exists es1, (e :: es2'),
      [FileWrite s (archive_filename (email_id e) (safe_sender s)) false].
    rewrite Htd. simpl. rewrite app_nil_r.
    repeat split; auto.
    right. split; [reflexivity|]. now exists e, es2'.
Qed.

(** Nothing happens for a sender marked skip or without a group. *)
Lemma process_sender_idle (w : World) (groups : Groups) (s : pystr)
      (d : Decision) (st : ExecState) :
  d = skip \/ get s groups = None ->
  process_sender w groups s d st = Returned st.
Proof.
  intros [->|G]; [reflexivity|].
  unfold process_sender. rewrite G. now destruct d.
Qed.

(** Loop invariants of [execute_loop]: [Inv pending st] relates the
    items still to process with the state reached. *)
Lemma execute_loop_invariant (w : World) (groups : Groups)
      (Inv : list (pystr * Decision) -> ExecState -> Prop) :
  (forall s d r st,
      Inv ((s, d) :: r) st ->
      Inv r (final (process_sender w groups s d st))) ->
  forall items st,
    Inv items st ->
    exists r, Inv r (final (execute_loop w groups items st)).
Proof.
  intros Hstep items.
  induction items as [|[s d] items IH]; intros st Hinv.
  - exists []. exact Hinv.
  - cbn [execute_loop]. specialize (Hstep s d items st Hinv).
    destruct (process_sender w groups s d st) as [st'|st'].
    + apply IH. exact Hstep.
    + exists items. exact Hstep.
Qed.

(** ** Bookkeeping *)

Lemma bookkeeping_step (w : World) (groups : Groups) (s : pystr)
      (d : Decision) (st : ExecState) :
  bookkeeping w st ->
  bookkeeping w (final (process_sender w groups s d st)).
Proof.
  intros (Hsv & Htd & Hdk).
  destruct d; [exact (conj Hsv (conj Htd Hdk))|].
  destruct (get s groups) as [g|] eqn:G.
  - destruct (process_sender_delete w groups s g st G)
      as (es1 & es2 & tail & _ & Htr & Hsv' & Htd' & Hwf & Hmono & Hnew & _).
    split; [|split].
    + rewrite Hsv', Htr, Hsv, !written_files_app, Hwf, app_nil_r, map_app.
      f_equal. rewrite written_files_write_events, map_map. reflexivity.
    + rewrite Htd', Htr, Htd, !trash_successes_app. f_equal.
      unfold write_events.
      clear. induction es1 as [|e es1 IH]; simpl; auto.
    + intros p Hp. rewrite Hsv' in Hp. apply in_app_or in Hp.
      destruct Hp as [Hp|Hp]; [apply Hmono; now apply Hdk | now apply Hnew].
  - rewrite process_sender_idle by now right.
    exact (conj Hsv (conj Htd Hdk)).
Qed.

Lemma execute_bookkeeping (w : World) (disk0 : dict FileContent)
      (groups : Groups) (decisions : Decisions) :
  bookkeeping w (final (execute_actions w disk0 groups decisions)).
Proof.
  unfold execute_actions.
  destruct (execute_loop_invariant w groups
              (fun _ st => bookkeeping w st)) with
      (items := decisions) (st := start disk0) as (_ & H).
  - intros s d r st. apply bookkeeping_step.
  - repeat split. intros p [].
  - exact H.
Qed.


(** ** Save before trash *)

Lemma trace_safe_app (groups : Groups) (a b : list Event) :
  forall pre,
    trace_safe groups pre (a ++ b) <->
    trace_safe groups pre a /\ trace_safe groups (pre ++ a) b.
Proof.
  induction a as [|ev a IH]; intro pre; simpl.
  - rewrite app_nil_r. split; [intro H; now split | now intros [_ H]].
  - rewrite IH, <- app_assoc. simpl.
    split; [intros (H1 & H2 & H3) | intros ((H1 & H2) & H3)]; auto.
Qed.

Lemma trace_safe_write_events groups pre s es :
  trace_safe groups pre (write_events s es).
Proof.
  revert pre. induction es as [|e es IH]; intro pre; simpl; auto.
Qed.

Lemma trace_safe_trash_events groups w s g es :
  get s groups = Some g ->
  forall n pre,
    saves_for s pre = count g ->
    (forall e, In e es ->
       In (FileWrite s (archive_filename (email_id e) (safe_sender s)) true)
          pre) ->
    trace_safe groups pre (trash_events w s es n).
Proof.
  intro G. induction es as [|e es IH]; intros n pre Hcount Hfiles; simpl.
  - exact I.
  - split.
    + exists g. repeat split; auto. apply Hfiles. now left.
    + apply IH.
      * rewrite saves_for_app. simpl. unfold saves_for at 2. simpl. lia.
      * intros e' He'. apply in_or_app. left. apply Hfiles. now right.
Qed.

Lemma event_sender_write_events s es ev :
  In ev (write_events s es) -> event_sender ev = s.
Proof.
  unfold write_events. rewrite in_map_iff. now intros (e & <- & _).
Qed.

Lemma event_sender_trash_events w s es ev :
  forall n, In ev (trash_events w s es n) -> event_sender ev = s.
Proof.
  induction es as [|e es IH]; intros n; simpl; [intros []|].
  intros [<-|H]; [reflexivity | now apply (IH (S n))].
Qed.

Lemma from_email_sender s e ev : from_email s e ev -> event_sender ev = s.
Proof. destruct ev; simpl; intros [H _]; exact H. Qed.

Lemma trash_events_from_email w s es ev :
  forall n, In ev (trash_events w s es n) ->
            exists e, In e es /\ from_email s e ev.
Proof.
  induction es as [|e es IH]; intros n; simpl; [intros []|].
  intros [<-|H].
  - exists e. simpl. auto.
  - destruct (IH (S n) H) as (e' & He' & Hf). exists e'. auto.
Qed.

(** Every event one sender adds comes from an email of its group. *)
Lemma process_sender_events (w : World) (groups : Groups) (s : pystr)
      (d : Decision) (st : ExecState) (ev : Event) :
  In ev (trace (final (process_sender w groups s d st))) ->
  In ev (trace st) \/
  (d = delete /\
   exists g e, get s groups = Some g /\ In e (emails g) /\
               from_email s e ev).
Proof.
  destruct d; [now left|].
  destruct (get s groups) as [g|] eqn:G.
  - destruct (process_sender_delete w groups s g st G)
      as (es1 & es2 & tail & Ees & Htr & _ & _ & _ & _ & _ & Hc).
    rewrite Htr. intro Hin.
    apply in_app_or in Hin. destruct Hin as [Hin|Hin]; [now left|].
    right. split; [reflexivity|]. exists g.
    apply in_app_or in Hin. destruct Hin as [Hin|Hin].
    + unfold write_events in Hin. apply in_map_iff in Hin.
      destruct Hin as (e & <- & He). exists e. simpl.
      repeat split; auto. rewrite Ees. apply in_or_app. now left.
    + destruct Hc as [(_ & _ & ->)|(_ & e & es2' & -> & ->)].
      * destruct (trash_events_from_email _ _ _ _ _ Hin) as (e & He & Hf).
        exists e. auto.
      * destruct Hin as [<-|[]]. exists e. simpl.
        repeat split; auto. rewrite Ees. apply in_or_app. right. now left.
  - rewrite process_sender_idle by now right. now left.
Qed.

Lemma execute_loop_events (w : World) (groups : Groups) (ev : Event) :
  forall items st,
    In ev (trace (final (execute_loop w groups items st))) ->
    In ev (trace st) \/
    exists s g e,
      In (s, delete) items /\ get s groups = Some g /\
      In e (emails g) /\ from_email s e ev.
Proof.
  induction items as [|[s d] items IH]; intros st Hin; [now left|].
  cbn [execute_loop] in Hin.
  assert (Hstep : In ev (trace (final (process_sender w groups s d st))) ->
                  In ev (trace st) \/
                  exists s' g e,
                    In (s', delete) ((s, d) :: items) /\
                    get s' groups = Some g /\
                    In e (emails g) /\ from_email s' e ev).
  { intro H. apply process_sender_events in H.
    destruct H as [H|(-> & g & e & G & He & Hf)]; [now left|].
    right. exists s, g, e. repeat split; auto. now left. }
  destruct (process_sender w groups s d st) as [st'|st'] eqn:Hp.
  - destruct (IH st' Hin) as [H|(s' & g & e & Hs' & G & He & Hf)].
    + now apply Hstep.
    + right. exists s', g, e. repeat split; auto. now right.
  - now apply Hstep.
Qed.

Lemma safe_inv_step (w : World) (groups : Groups) :
  (forall k g, In (k, g) groups -> count g = List.length (emails g)) ->
  forall s d r st,
    safe_inv groups ((s, d) :: r) st ->
    safe_inv groups r (final (process_sender w groups s d st)).
Proof.
  intros Hcount s d r st (Hsafe & Hfresh & Hnd).
  simpl in Hnd. inversion Hnd as [|? ? Hs Hnd']; subst.
  assert (Hold : forall ev, In ev (trace st) ->
                            ~ In (event_sender ev) (keys r)).
  { intros ev Hev Hin. apply (Hfresh ev Hev). now right. }
  split; [|split; [|exact Hnd']].
  - destruct d; [exact Hsafe|].
    destruct (get s groups) as [g|] eqn:G;
      [|rewrite process_sender_idle by (now right); exact Hsafe].
    destruct (process_sender_delete w groups s g st G)
      as (es1 & es2 & tail & Ees & Htr & _ & _ & _ & _ & _ & Hc).
    rewrite Htr. apply trace_safe_app. split; [exact Hsafe|]. simpl.
    apply trace_safe_app. split; [apply trace_safe_write_events|].
    destruct Hc as [(_ & -> & ->)|(_ & e & es2' & _ & ->)];
      [|simpl; auto].
    rewrite app_nil_r in Ees. subst es1.
    apply trace_safe_trash_events with (g := g); auto.
    + rewrite saves_for_app, saves_for_write_events.
      rewrite saves_for_other_sender.
      * simpl. symmetry. apply (Hcount s). now apply get_Some_In.
      * intros ev Hev E. apply (Hfresh ev Hev). left. now symmetry.
    + intros e He. apply in_or_app. right.
      unfold write_events. apply in_map_iff. now exists e.
  - intros ev Hev.
    destruct (process_sender_events _ _ _ _ _ _ Hev)
      as [Hin|(_ & g & e & _ & _ & Hf)].
    + now apply Hold.
    + now rewrite (from_email_sender _ _ _ Hf).
Qed.

Lemma execute_trace_safe (w : World) (disk0 : dict FileContent)
      (groups : Groups) (decisions : Decisions) :
  (forall k g, In (k, g) groups -> count g = List.length (emails g)) ->
  wf decisions ->
  trace_safe groups []
             (trace (final (execute_actions w disk0 groups decisions))).
Proof.
  intros Hcount Hwf. unfold execute_actions.
  destruct (execute_loop_invariant w groups (safe_inv groups)) with
      (items := decisions) (st := start disk0) as (r & H & _).
  - apply safe_inv_step. exact Hcount.
  - split; [exact I | split; [intros ev [] | exact Hwf]].
  - exact H.
Qed.


(** ** Senders that are skipped or absent *)

Lemma execute_loop_drop_skip (w : World) (groups : Groups) (s : pystr)
      (a b : list (pystr * Decision)) :
  forall st,
    execute_loop w groups (a ++ (s, skip) :: b) st =
    execute_loop w groups (a ++ b) st.
Proof.
  induction a as [|[k d] a IH]; intro st; [reflexivity|].
  simpl. destruct (process_sender w groups k d st); [apply IH | reflexivity].
Qed.

Lemma groups_of_fetched (es : list Email) (groups : Groups) :
  group_by_sender es = Some groups -> groups_inv groups es.
Proof.
  intro Hg. destruct (group_by_sender_inv es) as (groups' & Hg' & Hinv).
  rewrite Hg in Hg'. now injection Hg' as <-.
Qed.

Lemma group_email_fetched (es : list Email) (groups : Groups)
      (k : pystr) (g : SenderGroup) (e : Email) :
  groups_inv groups es -> In (k, g) groups -> In e (emails g) -> In e es.
Proof.
  intros (_ & _ & Hperm) Hin He.
  apply (Permutation_in _ Hperm). unfold all_emails.
  apply in_flat_map. now exists (k, g).
Qed.

Lemma same_id_same_email (es : list Email) (a b : Email) :
  NoDup (List.map email_id es) -> In a es -> In b es ->
  email_id a = email_id b -> a = b.
Proof.
  induction es as [|x es IH]; simpl; [intros _ []|].
  intros Hnd Ha Hb E. inversion Hnd as [|? ? Hx Hnd']; subst.
  destruct Ha as [<-|Ha], Hb as [<-|Hb]; auto.
  - exfalso. apply Hx. rewrite E. now apply in_map.
  - exfalso. apply Hx. rewrite <- E. now apply in_map.
Qed.

(** With distinct ids, emails of different groups have different ids. *)
Lemma other_group_other_id (es : list Email) (groups : Groups)
      (k k' : pystr) (g g' : SenderGroup) (e e' : Email) :
  groups_inv groups es -> NoDup (List.map email_id es) ->
  get k groups = Some g -> get k' groups = Some g' ->
  In e (emails g) -> In e' (emails g') ->
  email_id e = email_id e' -> k = k'.
Proof.
  intros Hinv Hnd G G' He He' E.
  apply get_Some_In in G. apply get_Some_In in G'.
  assert (e = e').
  { apply (same_id_same_email es); auto.
    - now apply (group_email_fetched es groups k g).
    - now apply (group_email_fetched es groups k' g'). }
  subst e'. destruct Hinv as (_ & Hok & _).
  destruct (Hok _ _ G) as (_ & _ & Hn).
  destruct (Hok _ _ G') as (_ & _ & Hn').
  specialize (Hn _ He). specialize (Hn' _ He'). congruence.
Qed.

Lemma In_trash_calls (mid : pystr) (tr : list Event) :
  In mid (trash_calls tr) -> exists s ok, In (TrashCall s mid ok) tr.
Proof.
  induction tr as [|[s f ok|s m ok] tr IH]; simpl; [intros []| |].
  - intro H. destruct (IH H) as (s' & ok' & H'). eauto.
  - intros [<-|H]; [eauto|].
    destruct (IH H) as (s' & ok' & H'). eauto.
Qed.

(** C4.  Let sender [s] be absent from the decisions.  Mapping it to
    skip, at any place of the mapping or by assignment, gives the very
    same run: same outcome, same files, same trash calls.  That run has
    no write and no trash event of [s], and, the fetched ids being
    distinct, no trash call names a message of the group of [s]. *)
Theorem absent_sender_is_skip
        (w : World) (disk0 : dict FileContent) (es : list Email)
        (groups : Groups) (decisions : Decisions) (s : pystr) :
  group_by_sender es = Some groups ->
  NoDup (List.map email_id es) ->
  get s decisions = None ->
  let run := execute_actions w disk0 groups decisions in
  (forall a b, decisions = a ++ b ->
               execute_actions w disk0 groups (a ++ (s, skip) :: b) = run) /\
  execute_actions w disk0 groups (set s skip decisions) = run /\
  (forall ev, In ev (trace (final run)) -> event_sender ev <> s) /\
  saves_for s (trace (final run)) = 0 /\
  (forall g e, get s groups = Some g -> In e (emails g) ->
               ~ In (email_id e) (trash_calls (trace (final run)))).
Proof.
  intros Hg Hnd Habs run.
  apply groups_of_fetched in Hg.
  assert (Hev : forall ev, In ev (trace (final run)) ->
                exists s' g e,
                  s' <> s /\ get s' groups = Some g /\
                  In e (emails g) /\ from_email s' e ev).
  { intros ev Hin. unfold run, execute_actions in Hin.
    apply execute_loop_events in Hin.
    destruct Hin as [[]|(s' & g & e & Hs' & G & He & Hf)].
    exists s', g, e. repeat split; auto.
    intros ->. apply get_None_keys in Habs. apply Habs.
    change s with (fst (s, delete)). now apply in_map. }
  assert (Hother : forall ev, In ev (trace (final run)) ->
                              event_sender ev <> s).
  { intros ev Hin. destruct (Hev ev Hin) as (s' & g & e & Hne & _ & _ & Hf).
    now rewrite (from_email_sender _ _ _ Hf). }
  split; [|split; [|split; [|split]]].
  - intros a b ->. unfold run, execute_actions.
    apply execute_loop_drop_skip.
  - rewrite (set_absent _ skip _ Habs). unfold run, execute_actions.
    rewrite <- (app_nil_r decisions) at 2.
    apply execute_loop_drop_skip.
  - exact Hother.
  - now apply saves_for_other_sender.
  - intros g e G He Hin.
    apply In_trash_calls in Hin. destruct Hin as (s' & ok & Hin).
    destruct (Hev _ Hin) as (s'' & g' & e' & Hne & G' & He' & Hs'' & Hid).
    subst s''. apply Hne. symmetry.
    eapply other_group_other_id; eauto.
Qed.

(** ** Failing trash calls *)








Lemma In_trash_successes (mid : pystr) (tr : list Event) :
  In mid (trash_successes tr) <-> exists s, In (TrashCall s mid true) tr.
Proof.
  induction tr as [|ev tr IH]; simpl.
  - split; [intros [] | intros (s & [])].
  - destruct ev as [s f ok|s m [|]]; simpl; rewrite ?IH.
    + split.
      * intros (s' & H). eauto.
      * intros (s' & [H|H]); [discriminate | eauto].
    + split.
      * intros [<-|(s' & H)]; eauto.
      * intros (s' & [H|H]); [injection H as <- <-; now left | eauto].
    + split.
      * intros (s' & H). eauto.
      * intros (s' & [H|H]); [discriminate | eauto].
Qed.






(** ** Archive file names *)

(** Two strings that agree up to and including their first [c]. *)
Lemma prefix_before_first (c : codepoint) (a b x y : pystr) :
  ~ In c a -> ~ In c b -> a ++ c :: x = b ++ c :: y -> a = b.
Proof.
  revert b. induction a as [|p a IH]; intros [|q b] Ha Hb E; simpl in *.
  - reflexivity.
  - injection E as E1 _. exfalso. apply Hb. now left.
  - injection E as E1 _. exfalso. apply Ha. now left.
  - injection E as -> E. f_equal.
    apply IH; [intro H; apply Ha; now right
              | intro H; apply Hb; now right | exact E].
Qed.

(** An id without "_" can be read back from the file name. *)
Lemma archive_filename_id (id1 id2 safe1 safe2 : pystr) :
  ~ In USCORE id1 -> ~ In USCORE id2 ->
  archive_filename id1 safe1 = archive_filename id2 safe2 -> id1 = id2.
Proof.
  unfold archive_filename. intros H1 H2 E.
  change (py "_") with [USCORE] in E. simpl in E.
  eapply prefix_before_first; eauto.
Qed.

(** For one sender the file name determines the id. *)
Lemma archive_filename_same_sender (id1 id2 safe : pystr) :
  archive_filename id1 safe = archive_filename id2 safe -> id1 = id2.
Proof. unfold archive_filename. apply app_inv_tail. Qed.

Lemma NoDup_map_injective {A B : Type} (f : A -> B) (l : list A) :
  (forall a b, In a l -> In b l -> f a = f b -> a = b) ->
  NoDup l -> NoDup (List.map f l).
Proof.
  intros Hinj Hnd. induction Hnd as [|x l Hx Hnd IH]; simpl; constructor.
  - intro Hin. apply in_map_iff in Hin. destruct Hin as (y & E & Hy).
    assert (y = x) by (apply Hinj; simpl; auto). now subst.
  - apply IH. intros a b Ha Hb. apply Hinj; now right.
Qed.

Lemma group_ids_distinct (es : list Email) (groups : Groups)
      (k : pystr) (g : SenderGroup) :
  groups_inv groups es -> NoDup (List.map email_id es) ->
  In (k, g) groups -> NoDup (List.map email_id (emails g)).
Proof.
  intros (_ & _ & Hperm) Hnd Hin.
  apply (Permutation_NoDup
           (Permutation_map email_id (Permutation_sym Hperm))) in Hnd.
  apply in_split in Hin. destruct Hin as (d1 & d2 & ->).
  rewrite all_emails_app in Hnd. simpl in Hnd.
  rewrite !map_app in Hnd.
  apply NoDup_app_remove_l in Hnd. now apply NoDup_app_remove_r in Hnd.
Qed.

Lemma NoDup_map_prefix {A B : Type} (f : A -> B) (l1 l2 : list A) :
  NoDup (List.map f (l1 ++ l2)) -> NoDup (List.map f l1).
Proof. rewrite map_app. apply NoDup_app_remove_r. Qed.

Lemma names_inv_step (w : World) (es : list Email) (groups : Groups) :
  groups_inv groups es ->
  NoDup (List.map email_id es) ->
  Forall (fun e => ~ In USCORE (email_id e)) es ->
  forall s d r st,
    names_inv groups ((s, d) :: r) st ->
    names_inv groups r (final (process_sender w groups s d st)).
Proof.
  intros Hinv Hids Hus s d r st (Hnd & Hfiles & Hprov).
  simpl in Hnd. inversion Hnd as [|? ? Hs Hnd']; subst.
  assert (Hold : forall f, In f (written_files (trace st)) ->
            exists k g e,
              (k <> s /\ ~ In k (keys r)) /\ get k groups = Some g /\
              In e (emails g) /\
              f = archive_filename (email_id e) (safe_sender k)).
  { intros f Hf. destruct (Hprov f Hf) as (k & g & e & Hk & G & He & E).
    exists k, g, e. repeat split; auto.
    - intros ->. apply Hk. now left.
    - intro H. apply Hk. now right. }
  assert (Hsame : names_inv groups r st).
  { split; [exact Hnd'|]. split; [exact Hfiles|].
    intros f Hf. destruct (Hold f Hf) as (k & g & e & (_ & Hk) & H).
    exists k, g, e. auto. }
  destruct d; [exact Hsame|].
  destruct (get s groups) as [g|] eqn:G;
    [|rewrite process_sender_idle by (now right); exact Hsame].
  destruct (process_sender_delete w groups s g st G)
    as (es1 & es2 & tail & Ees & Htr & _ & _ & Hwf & _ & _ & _).
  unfold names_inv.
  rewrite Htr, !written_files_app, Hwf, app_nil_r,
    written_files_write_events.
  pose proof (get_Some_In _ _ _ G) as Hin.
  assert (Hfetched : forall e, In e (emails g) -> In e es).
  { intros e He. now apply (group_email_fetched es groups s g). }
  split; [exact Hnd'|]. split.
  - apply NoDup_app; auto.
    + apply NoDup_map_injective.
      * intros a b Ha Hb E. apply archive_filename_same_sender in E.
        apply (same_id_same_email es); auto;
          apply Hfetched; rewrite Ees; apply in_or_app; now left.
      * pose proof (group_ids_distinct es groups s g Hinv Hids Hin) as Hg.
        rewrite Ees in Hg. apply NoDup_map_prefix in Hg.
        now apply NoDup_map_inv in Hg.
    + intros f Hf Hnew.
      destruct (Hold f Hf) as (k & g' & e' & (Hk & _) & G' & He' & E).
      apply in_map_iff in Hnew. destruct Hnew as (e & E2 & He).
      assert (He_g : In e (emails g))
        by (rewrite Ees; apply in_or_app; now left).
      rewrite E in E2. rewrite Forall_forall in Hus.
      apply archive_filename_id in E2.
      * apply Hk. symmetry.
        eapply (other_group_other_id es groups s k g g' e e'); eauto.
      * apply Hus. now apply Hfetched.
      * apply Hus. apply (group_email_fetched es groups k g'); auto.
        now apply get_Some_In.
  - intros f Hf. apply in_app_or in Hf. destruct Hf as [Hf|Hf].
    + destruct (Hold f Hf) as (k & g' & e' & (_ & Hk) & H).
      exists k, g', e'. auto.
    + apply in_map_iff in Hf. destruct Hf as (e & <- & He).
      exists s, g, e. repeat split; auto.
      rewrite Ees. apply in_or_app. now left.
Qed.

Lemma written_files_In (f : pystr) (tr : list Event) :
  In f (written_files tr) -> exists s, In (FileWrite s f true) tr.
Proof.
  induction tr as [|ev tr IH]; simpl; [intros []|].
  destruct ev as [s f' [|]|s m ok]; simpl.
  - intros [<-|H]; [eauto|]. destruct (IH H) as (s' & H'). eauto.
  - intro H. destruct (IH H) as (s' & H'). eauto.
  - intro H. destruct (IH H) as (s' & H'). eauto.
Qed.

(** C10 (as amended).  Every file name written in a run is that of an
    email of a delete-marked group: the message id, "_", the first 48
    characters of the sender key with "@" and "." replaced by "_", and
    ".json".  When the fetched ids are distinct and none of them contains
    "_", these names are pairwise distinct; the saved paths are pairwise
    distinct as well whenever joining the archive directory with two
    different written names gives two different paths. *)
Theorem archive_names_distinct
        (w : World) (disk0 : dict FileContent) (es : list Email)
        (groups : Groups) (decisions : Decisions) :
  group_by_sender es = Some groups ->
  NoDup (List.map email_id es) ->
  Forall (fun e => ~ In USCORE (email_id e)) es ->
  wf decisions ->
  let st := final (execute_actions w disk0 groups decisions) in
  NoDup (written_files (trace st)) /\
  ((forall f1 f2,
      In f1 (written_files (trace st)) ->
      In f2 (written_files (trace st)) ->
      path_join (save_dir w) f1 = path_join (save_dir w) f2 -> f1 = f2) ->
   NoDup (saved st)) /\
  (forall f, In f (written_files (trace st)) ->
     exists k g e,
       In (k, delete) decisions /\ get k groups = Some g /\
       In e (emails g) /\
       f = email_id e ++ py "_"
           ++ firstn 48 (replace_char DOT USCORE (replace_char AT USCORE k))
           ++ py ".json").
Proof.
  intros Hg Hids Hus Hwf st.
  apply groups_of_fetched in Hg.
  assert (Hnames : NoDup (written_files (trace st))).
  { unfold st, execute_actions.
    destruct (execute_loop_invariant w groups (names_inv groups)) with
        (items := decisions) (st := start disk0) as (r & _ & H & _).
    - now apply (names_inv_step w es).
    - split; [exact Hwf|]. split; [constructor | intros f []].
    - exact H. }
  split; [exact Hnames|]. split.
  - intro Hjoin.
    destruct (execute_bookkeeping w disk0 groups decisions) as (Hsv & _).
    fold st in Hsv. rewrite Hsv.
    apply NoDup_map_injective; auto.
  - intros f Hf. apply written_files_In in Hf. destruct Hf as (s & Hf).
    unfold st, execute_actions in Hf. apply execute_loop_events in Hf.
    destruct Hf as [[]|(k & g & e & Hk & G & He & _ & Ef)].
    exists k, g, e. repeat split; auto.
Qed.

(* ================================================================ *)
(** * Further properties: fetch *)
(* ================================================================ *)

Lemma header_fold_other (key : pystr) (hs : list Header) :
  forall d : dict pystr,
    (forall h, In h hs -> lower (name h) <> key) ->
    get key (fold_left (fun d h => set (lower (name h)) (value h) d) hs d)
    = get key d.
Proof.
  induction hs as [|h hs IH]; intros d Hno; [reflexivity|].
  cbn [fold_left]. rewrite IH.
  - apply get_set_other. apply Hno. now left.
  - intros h' Hin. apply Hno. now right.
Qed.

Lemma header_lookup_last (key : pystr) (hs1 hs2 : list Header)
      (h : Header) :
  lower (name h) = key ->
  (forall h', In h' hs2 -> lower (name h') <> key) ->
  get key (header_lookup (hs1 ++ h :: hs2)) = Some (value h).
Proof.
  intros Hk Hno. unfold header_lookup.
  rewrite fold_left_app. cbn [fold_left].
  rewrite header_fold_other by exact Hno.
  rewrite Hk. apply get_set_same.
Qed.

Lemma header_lookup_none (key : pystr) (hs : list Header) :
  (forall h, In h hs -> lower (name h) <> key) ->
  get key (header_lookup hs) = None.
Proof.
  intro Hno. unfold header_lookup. now rewrite header_fold_other.
Qed.

(** X1.  A header is found whatever the letter case of its name; when a
    name occurs more than once its last occurrence counts; a header that
    does not occur gives the default ("(no subject)", "Unknown",
    "Unknown"). *)
Theorem header_fields_last_wins (mid : pystr) (msg : Message) :
  let e := email_of_message mid msg in
  let hs := headers (payload msg) in
  (forall hs1 h hs2,
      hs = hs1 ++ h :: hs2 ->
      (forall h', In h' hs2 -> lower (name h') <> lower (name h)) ->
      (lower (name h) = py "from" -> sender e = value h) /\
      (lower (name h) = py "subject" -> subject e = value h) /\
      (lower (name h) = py "date" -> date e = value h)) /\
  ((forall h, In h hs -> lower (name h) <> py "from") ->
   sender e = py "Unknown") /\
  ((forall h, In h hs -> lower (name h) <> py "subject") ->
   subject e = py "(no subject)") /\
  ((forall h, In h hs -> lower (name h) <> py "date") ->
   date e = py "Unknown").
Proof.
  intros e hs. subst e hs. unfold email_of_message, get_default.
  cbn [sender subject date].
  split; [|split; [|split]].
  - intros hs1 h hs2 -> Hlast.
    split; [|split]; intro Hk; rewrite Hk in Hlast;
      now rewrite (header_lookup_last _ hs1 hs2 h Hk Hlast).
  - intro Hno. now rewrite header_lookup_none.
  - intro Hno. now rewrite header_lookup_none.
  - intro Hno. now rewrite header_lookup_none.
Qed.

Lemma first_plain_part_cons (p : Part) (ps : list Part) :
  first_plain_part (p :: ps) =
  match plain_with_data p with
  | Some d => d
  | None => first_plain_part ps
  end.
Proof.
  unfold plain_with_data. cbn [first_plain_part].
  destruct (mimeType p) as [m|]; [|reflexivity].
  destruct (has_data (part_body p)) as [d|]; [|reflexivity].
  now destruct (pystr_eqb m (py "text/plain")).
Qed.

Lemma first_plain_part_none (ps : list Part) :
  (forall q, In q ps -> plain_with_data q = None) ->
  first_plain_part ps = [].
Proof.
  induction ps as [|p ps IH]; intro Hno; [reflexivity|].
  rewrite first_plain_part_cons, (Hno p) by now left.
  apply IH. intros q Hq. apply Hno. now right.
Qed.

(** X2.  In a multipart message the body is the data of the first part
    that is text/plain and carries data.  When no part is, the body is
    empty and so is the preview, also when the payload has a top-level
    body of its own: that one is only read when there are no parts. *)
Theorem body_of_multipart (pl : Payload) (ps : list Part) :
  parts pl = Some ps ->
  (forall ps1 p ps2 d,
      ps = ps1 ++ p :: ps2 ->
      (forall q, In q ps1 -> plain_with_data q = None) ->
      plain_with_data p = Some d ->
      extract_body pl = d) /\
  ((forall q, In q ps -> plain_with_data q = None) ->
   extract_body pl = [] /\ make_preview (extract_body pl) = []).
Proof.
  intro Hps. unfold extract_body. rewrite Hps. split.
  - intros ps1 p ps2 d -> Hno Hp. clear Hps.
    induction ps1 as [|q ps1 IH]; simpl app.
    + now rewrite first_plain_part_cons, Hp.
    + rewrite first_plain_part_cons, (Hno q) by now left.
      apply IH. intros q' Hq'. apply Hno. now right.
  - intro Hno. rewrite (first_plain_part_none ps Hno). now split.
Qed.

Lemma decode_error_length : List.length decode_error = 14.
Proof. reflexivity. Qed.

(** X3.  A preview never has more than 141 characters.  A decoded body
    of at most 140 characters is the preview as it is; a longer one is cut
    to its first 140 characters, followed by the ellipsis. *)
Theorem preview_bounded (b64 : pystr) :
  List.length (make_preview b64) <= 141 /\
  (forall raw,
      b64 <> [] -> urlsafe_b64decode b64 = Some raw ->
      let decoded := utf8_decode_replace raw in
      (List.length decoded <= 140 -> make_preview b64 = decoded) /\
      (140 < List.length decoded ->
       make_preview b64 = firstn 140 decoded ++ [ELLIPSIS] /\
       List.length (make_preview b64) = 141)).
Proof.
  split.
  - unfold make_preview. destruct (is_empty b64); [simpl; lia|].
    destruct (urlsafe_b64decode b64) as [raw|];
      [|rewrite decode_error_length; lia].
    destruct (Nat.ltb_spec 140 (List.length (utf8_decode_replace raw)))
      as [Hlong|Hshort]; [|lia].
    unfold slice_to. rewrite length_app, length_firstn.
    cbn [List.length]. lia.
  - intros raw Hne Hdec decoded. subst decoded.
    unfold make_preview. rewrite Hdec.
    destruct b64 as [|c b64]; [contradiction|]. cbn [is_empty].
    destruct (Nat.ltb_spec 140 (List.length (utf8_decode_replace raw)))
      as [Hlong|Hshort].
    + split; [lia|]. intros _. unfold slice_to. split; [reflexivity|].
      rewrite length_app, length_firstn. cbn [List.length]. lia.
    + split; [reflexivity | lia].
Qed.

Lemma fetch_loop_get_failure (P : Provider) (ids1 ids2 : list pystr)
      (bad : pystr) :
  forall acc,
    Forall (fun i => exists m, get_message P i = ApiOk m) ids1 ->
    get_message P bad = HttpError ->
    fetch_loop P (ids1 ++ bad :: ids2) acc =
    (None, List.map CallGet ids1 ++ [CallGet bad]).
Proof.
  induction ids1 as [|i ids1 IH]; intros acc Hall Hbad.
  - simpl. now rewrite Hbad.
  - inversion Hall as [|? ? (m & Hm) Hrest]; subst.
    simpl. rewrite Hm, (IH _ Hrest Hbad). reflexivity.
Qed.

(** X4.  When the [get] of one listed message raises [HttpError], the
    emails fetched before it are dropped: the console node returns the
    empty list and the web stage the unchanged state.  The messages
    listed after the failing one are not asked for. *)
Theorem fetch_get_failure (P : Provider) (max_fetch : Z)
        (ids1 ids2 : list pystr) (bad : pystr) (state : AgentState) :
  list_messages P max_fetch = ApiOk (Some (ids1 ++ bad :: ids2)) ->
  Forall (fun i => exists m, get_message P i = ApiOk m) ids1 ->
  get_message P bad = HttpError ->
  fetch_emails P max_fetch =
    ([], CallList max_fetch :: List.map CallGet ids1 ++ [CallGet bad]) /\
  (st_max_fetch state = max_fetch ->
   fst (fetch_emails_app P state) = state).
Proof.
  intros Hlist Hall Hbad.
  unfold fetch_emails, fetch_emails_app, fetch_try.
  split.
  - rewrite Hlist, (fetch_loop_get_failure P ids1 ids2 bad [] Hall Hbad).
    reflexivity.
  - intros ->.
    rewrite Hlist, (fetch_loop_get_failure P ids1 ids2 bad [] Hall Hbad).
    reflexivity.
Qed.

(** X5.  When the listing and every [get] succeed, the fetch stage
    returns exactly one email per listed id, in the listed order, each
    built from the message the provider gave for that id; a listing
    without the "messages" key gives no email and no [get]. *)
Theorem fetch_success (P : Provider) (max_fetch : Z) :
  (forall ids,
      list_messages P max_fetch = ApiOk (Some ids) ->
      Forall (fun i => exists m, get_message P i = ApiOk m) ids ->
      exists msgs,
        Forall2 (fun i m => get_message P i = ApiOk m) ids msgs /\
        fetch_emails P max_fetch =
          (List.map (fun im => email_of_message (fst im) (snd im))
                    (combine ids msgs),
           CallList max_fetch :: List.map CallGet ids)) /\
  (list_messages P max_fetch = ApiOk None ->
   fetch_emails P max_fetch = ([], [CallList max_fetch])).
Proof.
  split.
  - intros ids Hlist Hall.
    assert (Hloop : forall acc,
               exists msgs,
                 Forall2 (fun i m => get_message P i = ApiOk m) ids msgs /\
                 fetch_loop P ids acc =
                 (Some (acc ++ List.map
                                 (fun im => email_of_message (fst im) (snd im))
                                 (combine ids msgs)),
                  List.map CallGet ids)).
    { clear Hlist. induction Hall as [|i ids (m & Hm) Hrest IH]; intro acc.
      - exists []. split; [constructor|]. simpl. now rewrite app_nil_r.
      - destruct (IH (acc ++ [email_of_message i m])) as (msgs & HF & Hl).
        exists (m :: msgs). split; [now constructor|].
        cbn [fetch_loop]. rewrite Hm, Hl. rewrite <- app_assoc.
        reflexivity. }
    destruct (Hloop []) as (msgs & HF & Hl).
    exists msgs. split; [exact HF|].
    unfold fetch_emails, fetch_try. rewrite Hlist, Hl. reflexivity.
  - intro Hlist. unfold fetch_emails, fetch_try. rewrite Hlist. reflexivity.
Qed.

(* ================================================================ *)
(** * Further properties: group *)
(* ================================================================ *)

Lemma sender_key_normalize (e : Email) :
  normalize_sender (sender e) = Some (sender_key e).
Proof.
  unfold sender_key.
  destruct (normalize_sender_total (sender e)) as (k & Hk). now rewrite Hk.
Qed.

(** What one iteration of the grouping loop does to the mapping. *)
Lemma add_email_cases (groups : Groups) (e : Email) :
  let k := sender_key e in
  (exists g d1 d2,
      get k groups = Some g /\
      groups = d1 ++ (k, g) :: d2 /\
      add_email groups e =
      Some (d1 ++ (k, {| group_sender := group_sender g;
                         emails := emails g ++ [e];
                         count := count g + 1 |}) :: d2)) \/
  (get k groups = None /\
   add_email groups e =
   Some (groups ++ [(k, {| group_sender := k; emails := [e];
                           count := 1 |})])).
Proof.
  intro k. unfold add_email. rewrite sender_key_normalize. fold k.
  unfold mem. destruct (get k groups) as [g|] eqn:G.
  - left. rewrite G.
    destruct (set_present k g
                {| group_sender := group_sender g;
                   emails := emails g ++ [e];
                   count := count g + 1 |} groups G) as (d1 & d2 & E1 & E2).
    exists g, d1, d2. rewrite E2. auto.
  - right. split; [reflexivity|].
    rewrite get_set_same.
    rewrite (set_absent k (new_group k) groups G).
    assert (G' : get k (groups ++ [(k, new_group k)]) = Some (new_group k)).
    { rewrite <- (set_absent k (new_group k) groups G). apply get_set_same. }
    destruct (set_present k (new_group k)
                {| group_sender := group_sender (new_group k);
                   emails := emails (new_group k) ++ [e];
                   count := count (new_group k) + 1 |}
                _ G') as (d1 & d2 & E1 & E2).
    rewrite E2. f_equal.
    apply get_None_keys in G.
    destruct d2 as [|x d2 _] using rev_ind.
    + apply app_inj_tail in E1. destruct E1 as [-> _]. reflexivity.
    + exfalso. rewrite app_comm_cons, app_assoc in E1.
      apply app_inj_tail in E1. destruct E1 as [E1 _].
      apply G. rewrite E1, keys_app. apply in_or_app. right. now left.
Qed.

Lemma first_seen_snoc (l : list pystr) (x : pystr) :
  first_seen (l ++ [x]) =
  if in_dec pystr_eq_dec x l then first_seen l else first_seen l ++ [x].
Proof.
  unfold first_seen. rewrite rev_app_distr. cbn [rev app nodup].
  destruct (in_dec pystr_eq_dec x (rev l)) as [Hin|Hni],
           (in_dec pystr_eq_dec x l) as [Hin'|Hni']; try reflexivity.
  - exfalso. apply Hni'. now apply in_rev.
  - exfalso. apply Hni. now apply in_rev in Hin'.
Qed.

Lemma first_seen_In (l : list pystr) (x : pystr) :
  In x (first_seen l) <-> In x l.
Proof.
  unfold first_seen. rewrite <- in_rev, nodup_In, <- in_rev. reflexivity.
Qed.

Lemma filter_key_absent (k : pystr) (es : list Email) :
  ~ In k (List.map sender_key es) ->
  filter (fun e => pystr_eqb (sender_key e) k) es = [].
Proof.
  induction es as [|e es IH]; intro Hni; [reflexivity|].
  cbn [filter]. destruct (pystr_eqb (sender_key e) k) eqn:E.
  - apply pystr_eqb_eq in E. exfalso. apply Hni. left. exact E.
  - apply IH. intro H. apply Hni. now right.
Qed.

Lemma group_loop_order (es : list Email) :
  forall groups done,
    wf groups ->
    (forall k g, In (k, g) groups ->
       emails g = filter (fun e => pystr_eqb (sender_key e) k) done) ->
    keys groups = first_seen (List.map sender_key done) ->
    exists groups',
      group_loop es groups = Some groups' /\
      (forall k g, In (k, g) groups' ->
         emails g =
         filter (fun e => pystr_eqb (sender_key e) k) (done ++ es)) /\
      keys groups' = first_seen (List.map sender_key (done ++ es)).
Proof.
  induction es as [|e es IH]; intros groups done Hwf Hem Hkeys.
  - exists groups. rewrite app_nil_r. auto.
  - cbn [group_loop].
    assert (Hstep : exists groups1,
               add_email groups e = Some groups1 /\ wf groups1 /\
               (forall k g, In (k, g) groups1 ->
                  emails g =
                  filter (fun e => pystr_eqb (sender_key e) k)
                         (done ++ [e])) /\
               keys groups1 =
               first_seen (List.map sender_key (done ++ [e]))).
    { destruct (add_email_cases groups e)
        as [(g & d1 & d2 & G & Eg & Ha)|(G & Ha)].
      - eexists. split; [exact Ha|]. subst groups.
        assert (Hk : In (sender_key e)
                        (List.map sender_key done)).
        { apply first_seen_In. rewrite <- Hkeys, keys_app.
          apply in_or_app. right. now left. }
        split; [|split].
        + unfold wf in *. rewrite keys_app in *. exact Hwf.
        + intros k g' Hin. rewrite filter_app. cbn [filter].
          apply in_app_or in Hin. destruct Hin as [Hin|[Heq|Hin]].
          * assert (Hne : sender_key e <> k).
            { intro E. unfold wf in Hwf. rewrite keys_app in Hwf.
              apply NoDup_remove_2 in Hwf. cbn [fst] in Hwf. apply Hwf.
              apply in_or_app. left. rewrite E.
              change k with (fst (k, g')). now apply in_map. }
            apply pystr_eqb_neq in Hne. rewrite Hne, app_nil_r.
            apply Hem. apply in_or_app. now left.
          * injection Heq as <- <-. cbn [emails].
            rewrite pystr_eqb_refl. f_equal. apply Hem. apply in_elt.
          * assert (Hne : sender_key e <> k).
            { intro E. unfold wf in Hwf. rewrite keys_app in Hwf.
              apply NoDup_remove_2 in Hwf. cbn [fst] in Hwf. apply Hwf.
              apply in_or_app. right. rewrite E.
              change k with (fst (k, g')). now apply in_map. }
            apply pystr_eqb_neq in Hne. rewrite Hne, app_nil_r.
            apply Hem. apply in_or_app. right. now right.
        + rewrite map_app. cbn [List.map]. rewrite first_seen_snoc.
          destruct (in_dec pystr_eq_dec (sender_key e)
                           (List.map sender_key done)) as [_|Hni];
            [|contradiction].
          rewrite <- Hkeys, !keys_app. reflexivity.
      - eexists. split; [exact Ha|].
        assert (Hni : ~ In (sender_key e) (List.map sender_key done)).
        { intro H. apply first_seen_In in H. rewrite <- Hkeys in H.
          now apply get_None_keys in G. }
        split; [|split].
        + unfold wf in *. rewrite keys_app. cbn [keys List.map fst].
          apply NoDup_app; auto.
          * constructor; [intros [] | constructor].
          * intros x Hx [<-|[]]. now apply get_None_keys in G.
        + intros k g' Hin. rewrite filter_app. cbn [filter].
          apply in_app_or in Hin. destruct Hin as [Hin|[Heq|[]]].
          * assert (Hne : sender_key e <> k).
            { intro E. apply get_None_keys in G. apply G. rewrite E.
              change k with (fst (k, g')). now apply in_map. }
            apply pystr_eqb_neq in Hne. rewrite Hne, app_nil_r.
            now apply Hem.
          * injection Heq as <- <-. cbn [emails].
            rewrite pystr_eqb_refl, filter_key_absent by exact Hni.
            reflexivity.
        + rewrite map_app. cbn [List.map]. rewrite first_seen_snoc.
          destruct (in_dec pystr_eq_dec (sender_key e)
                           (List.map sender_key done)) as [Hin|_];
            [contradiction|].
          rewrite <- Hkeys, keys_app. reflexivity. }
    destruct Hstep as (groups1 & -> & Hwf1 & Hem1 & Hkeys1).
    destruct (IH groups1 (done ++ [e]) Hwf1 Hem1 Hkeys1)
      as (groups' & Hl & Hem' & Hkeys').
    exists groups'. rewrite <- app_assoc in Hem', Hkeys'. auto.
Qed.

Lemma group_order_facts (es : list Email) (groups : Groups) :
  group_by_sender es = Some groups ->
  (forall k g, In (k, g) groups ->
     emails g = filter (fun e => pystr_eqb (sender_key e) k) es) /\
  keys groups = first_seen (List.map sender_key es).
Proof.
  intro Hg.
  destruct (group_loop_order es [] []) as (groups' & Hl & Hem & Hk).
  - constructor.
  - intros k g [].
  - reflexivity.
  - unfold group_by_sender in Hg. rewrite Hg in Hl. injection Hl as <-.
    auto.
Qed.

(** X6.  Grouping keeps the fetch order: a group holds exactly the
    fetched emails whose normalised sender is its key, in the order in
    which they were fetched, and the groups stand in the order in which
    their senders first occur among the fetched emails. *)
Theorem group_by_sender_order (es : list Email) :
  exists groups,
    group_by_sender es = Some groups /\
    (forall k g, In (k, g) groups ->
       emails g = filter (fun e => pystr_eqb (sender_key e) k) es) /\
    keys groups = first_seen (List.map sender_key es).
Proof.
  destruct (group_by_sender_inv es) as (groups & Hg & _).
  exists groups. split; [exact Hg|]. now apply group_order_facts.
Qed.

(** X7.  No fetched email, no group; and a group is never empty: each
    key of the mapping is the normalised sender of at least one fetched
    email, and its count is at least 1. *)
Theorem groups_never_empty (es : list Email) (groups : Groups)
        (k : pystr) (g : SenderGroup) :
  group_by_sender es = Some groups ->
  (es = [] -> groups = []) /\
  (In (k, g) groups ->
   1 <= count g /\
   exists e, In e es /\ In e (emails g) /\
             normalize_sender (sender e) = Some k).
Proof.
  intro Hg. split.
  - intros ->. unfold group_by_sender in Hg. simpl in Hg. congruence.
  - intro Hin.
    destruct (group_order_facts es groups Hg) as (Hem & Hkeys).
    pose proof (groups_of_fetched es groups Hg) as (_ & Hok & _).
    destruct (Hok k g Hin) as (_ & Hc & _).
    assert (Hk : In k (List.map sender_key es)).
    { apply first_seen_In. rewrite <- Hkeys.
      change k with (fst (k, g)). now apply in_map. }
    apply in_map_iff in Hk. destruct Hk as (e & Ek & He).
    assert (Hmem : In e (emails g)).
    { rewrite (Hem k g Hin). apply filter_In. split; [exact He|].
      now apply pystr_eqb_eq. }
    split.
    + rewrite Hc. destruct (emails g); [destruct Hmem | simpl; lia].
    + exists e. repeat split; auto.
      rewrite <- Ek. apply sender_key_normalize.
Qed.

(* ================================================================ *)
(** * Further properties: decide *)
(* ================================================================ *)

(** X8.  Console lines that are no recognised answer have no effect on
    the review: dropping them from the input gives the same decisions and
    the same senders shown. *)
Theorem unrecognised_lines_ignored (groups : Groups) (inputs : list pystr) :
  human_review groups inputs =
  human_review groups (filter recognised inputs).
Proof. unfold human_review. apply review_loop_filter. Qed.

(** X9.  On the console the review returns exactly when the input holds
    at least one recognised line per group.  Then the senders get, in the
    order shown, the choices of the first such lines, one each: delete for
    a delete word, skip otherwise.  With fewer such lines the read fails
    while the sender after the last answered one is on display. *)
Theorem human_review_outcome (groups : Groups) (inputs : list pystr) :
  wf groups ->
  let lines := filter recognised inputs in
  let order := review_order groups in
  (List.length groups <= List.length lines ->
   human_review groups inputs =
   (Some (combine (List.map fst order)
                  (List.map spec_choice
                            (firstn (List.length groups) lines))),
    shown_labels order)) /\
  (List.length lines < List.length groups ->
   human_review groups inputs =
   (None, firstn (S (List.length lines)) (shown_labels order))).
Proof.
  intros Hwf lines order.
  assert (Hrec : Forall (fun l => recognised l = true) lines).
  { apply Forall_forall. intros l Hl. unfold lines in Hl.
    now apply filter_In in Hl. }
  assert (Hlen : List.length order = List.length groups).
  { apply Permutation_length. apply sorted_by_perm. }
  unfold human_review. rewrite review_loop_filter. fold lines order.
  split; intro H.
  - rewrite review_loop_enough by (auto; lia).
    rewrite Hlen. rewrite fold_assign_fresh; [reflexivity| |].
    + apply combine_keys_prefix.
      apply (Permutation_NoDup
               (Permutation_map fst
                  (Permutation_sym (sorted_by_perm review_key groups)))).
      exact Hwf.
    + reflexivity.
  - now rewrite review_loop_short by (auto; lia).
Qed.

Lemma current_choice_click (d : Decisions) (c : Click) (s : pystr) :
  current_choice (click d c) s =
  if pystr_eqb (click_target c) s then click_value c
  else current_choice d s.
Proof.
  unfold current_choice.
  destruct (pystr_eqb (click_target c) s) eqn:E.
  - apply pystr_eqb_eq in E. subst s.
    destruct c; simpl; now rewrite get_set_same.
  - apply pystr_eqb_neq in E.
    destruct c; simpl in *; now rewrite get_set_other.
Qed.

(** X10.  In the web review the choice shown for a sender is that of the
    last button pressed for this sender; presses for other senders do not
    change it, and without any press it is what it was (skip at first). *)
Theorem clicks_last_wins (d : Decisions) (cs : list Click) (s : pystr) :
  current_choice (fold_left click cs d) s =
  match last_click s cs with
  | Some choice => choice
  | None => current_choice d s
  end.
Proof.
  revert d. induction cs as [|c cs IH]; intro d; [reflexivity|].
  cbn [fold_left last_click]. rewrite IH.
  destruct (last_click s cs); [reflexivity|].
  rewrite current_choice_click.
  now destruct (pystr_eqb (click_target c) s).
Qed.

(* ================================================================ *)
(** * Further properties: execute *)
(* ================================================================ *)

(** ** Runs without a failing write *)

Lemma save_phase_calm (w : World) (s safe : pystr) (es : list Email) :
  (forall n p, write_ok w n p = true) ->
  forall st, is_returned (save_phase w s safe es st) = true.
Proof.
  intro Hw. induction es as [|e es IH]; intro st; [reflexivity|].
  cbn [save_phase]. unfold save_email. rewrite Hw. apply IH.
Qed.

Lemma process_sender_calm (w : World) (groups : Groups) (s : pystr)
      (d : Decision) (st : ExecState) :
  (forall n p, write_ok w n p = true) ->
  is_returned (process_sender w groups s d st) = true.
Proof.
  intro Hw. unfold process_sender. destruct d; [reflexivity|].
  destruct (get s groups) as [g|]; [|reflexivity].
  pose proof (save_phase_calm w s (safe_sender s) (emails g) Hw st) as H.
  destruct (save_phase w s (safe_sender s) (emails g) st);
    [reflexivity | discriminate].
Qed.

Lemma trash_successes_calm (w : World) (s : pystr) (es : list Email) :
  (forall n m, trash_ok w n m = true) ->
  forall n, trash_successes (trash_events w s es n) = List.map email_id es.
Proof.
  intro Hok. induction es as [|e es IH]; intro n; [reflexivity|].
  simpl. rewrite Hok, IH. reflexivity.
Qed.

Lemma trash_successes_write_events (s : pystr) (es : list Email) :
  trash_successes (write_events s es) = [].
Proof. induction es as [|e es IH]; simpl; auto. Qed.

Lemma execute_loop_calm (w : World) (groups : Groups)
      (items : list (pystr * Decision)) :
  (forall n p, write_ok w n p = true) ->
  forall st,
    exists st',
      execute_loop w groups items st = Returned st' /\
      saved st' = saved st ++ plan_paths w (delete_plan groups items) /\
      trash_calls (trace st') =
        trash_calls (trace st) ++ plan_ids (delete_plan groups items) /\
      ((forall n m, trash_ok w n m = true) ->
       trashed st' = trashed st ++ plan_ids (delete_plan groups items)).
Proof.
  intro Hw. induction items as [|[s d] items IH]; intro st.
  - exists st. simpl. rewrite !app_nil_r. auto.
  - cbn [execute_loop].
    pose proof (process_sender_calm w groups s d st Hw) as Hret.
    destruct (process_sender w groups s d st) as [st1|st1] eqn:Hp;
      [clear Hret | discriminate].
    destruct (IH st1) as (st' & Hl & Hsv & Htc & Htd).
    exists st'. split; [exact Hl|].
    unfold delete_plan. cbn [flat_map fst snd].
    fold (delete_plan groups items).
    destruct d.
    + simpl in Hp. injection Hp as <-. auto.
    + destruct (get s groups) as [g|] eqn:G.
      * destruct (process_sender_delete w groups s g st G)
          as (es1 & es2 & tail & Ees & Htr & Hsv1 & Htd1 & _ & _ & _ & Hc).
        rewrite Hp in *. cbn [final] in *.
        destruct Hc as [(_ & -> & ->)|(Hr & _)]; [|discriminate].
        rewrite app_nil_r in Ees. subst es1.
        unfold plan_paths, plan_ids. cbn [flat_map fst snd].
        fold (plan_paths w (delete_plan groups items)).
        fold (plan_ids (delete_plan groups items)).
        rewrite Hsv, Htc, Hsv1, Htr, !trash_calls_app,
          trash_calls_write_events, trash_calls_trash_events.
        rewrite <- !app_assoc. repeat split; auto.
        intro Hok. rewrite (Htd Hok), Htd1.
        rewrite trash_successes_calm by exact Hok.
        now rewrite <- app_assoc.
      * rewrite process_sender_idle in Hp by now right.
        injection Hp as <-. auto.
Qed.

(** X11.  When no file write fails the step returns.  The saved paths
    are the archive paths of the emails of the delete-marked senders that
    have a group, sender after sender in the order of the decisions and
    email after email in the order of the group; the trash endpoint is
    called for the ids of the same emails in the same order, and when no
    call fails these are the trashed ids. *)
Theorem run_without_write_failure
        (w : World) (disk0 : dict FileContent)
        (groups : Groups) (decisions : Decisions) :
  (forall n p, write_ok w n p = true) ->
  let plan := delete_plan groups decisions in
  exists st,
    execute_actions w disk0 groups decisions = Returned st /\
    saved st = plan_paths w plan /\
    trash_calls (trace st) = plan_ids plan /\
    List.length (saved st) = List.length (trash_calls (trace st)) /\
    ((forall n m, trash_ok w n m = true) -> trashed st = plan_ids plan).
Proof.
  intros Hw plan. unfold execute_actions.
  destruct (execute_loop_calm w groups decisions Hw (start disk0))
    as (st & Hl & Hsv & Htc & Htd).
  exists st. simpl in Hsv, Htc, Htd. fold plan in Hsv, Htc, Htd.
  repeat split; auto.
  rewrite Hsv, Htc. unfold plan_paths, plan_ids, sender_paths.
  clear. induction plan as [|[s g] plan IH]; simpl; auto.
  rewrite !length_app, !length_map, IH. reflexivity.
Qed.

(** ** A failing write *)

Lemma no_failed_write_app (a b : list Event) :
  no_failed_write a -> no_failed_write b -> no_failed_write (a ++ b).
Proof.
  intros Ha Hb ev Hin. apply in_app_or in Hin.
  destruct Hin; [now apply Ha | now apply Hb].
Qed.

Lemma no_failed_write_events (s : pystr) (es : list Email) :
  no_failed_write (write_events s es).
Proof.
  intros ev Hin. unfold write_events in Hin. apply in_map_iff in Hin.
  now destruct Hin as (e & <- & _).
Qed.

Lemma no_failed_write_trash_events w s es n :
  no_failed_write (trash_events w s es n).
Proof.
  revert n. induction es as [|e es IH]; intros n ev; simpl; [intros []|].
  intros [<-|Hin]; [reflexivity | now apply (IH (S n))].
Qed.

Lemma execute_loop_failure (w : World) (groups : Groups)
      (items : list (pystr * Decision)) :
  forall st,
    NoDup (keys items) ->
    no_failed_write (trace st) ->
    (forall ev, In ev (trace st) -> ~ In (event_sender ev) (keys items)) ->
    match execute_loop w groups items st with
    | Returned st' => no_failed_write (trace st')
    | Raised st' =>
        exists tr s f,
          trace st' = tr ++ [FileWrite s f false] /\
          no_failed_write tr /\
          forall mid ok, ~ In (TrashCall s mid ok) (trace st')
    end.
Proof.
  induction items as [|[s d] items IH]; intros st Hnd Hno Hfresh.
  - exact Hno.
  - cbn [execute_loop].
    simpl in Hnd. inversion Hnd as [|? ? Hs Hnd']; subst.
    assert (Hold : forall ev, In ev (trace st) ->
                              ~ In (event_sender ev) (keys items)).
    { intros ev Hev Hin. apply (Hfresh ev Hev). now right. }
    assert (Hidle : process_sender w groups s d st = Returned st ->
              match
                match process_sender w groups s d st with
                | Returned st' => execute_loop w groups items st'
                | Raised st' => Raised st'
                end
              with
              | Returned st' => no_failed_write (trace st')
              | Raised st' =>
                  exists tr s0 f,
                    trace st' = tr ++ [FileWrite s0 f false] /\
                    no_failed_write tr /\
                    forall mid ok, ~ In (TrashCall s0 mid ok) (trace st')
              end).
    { intros ->. now apply IH. }
    destruct d; [now apply Hidle|].
    destruct (get s groups) as [g|] eqn:G;
      [|apply Hidle; apply process_sender_idle; now right].
    clear Hidle.
    destruct (process_sender_delete w groups s g st G)
      as (es1 & es2 & tail & Ees & Htr & _ & _ & _ & _ & _ & Hc).
    destruct Hc as [(Ho & -> & ->)|(Ho & e & es2' & -> & ->)];
      rewrite Ho.
    + apply IH; [exact Hnd' | |].
      * rewrite Htr. apply no_failed_write_app; [exact Hno|].
        apply no_failed_write_app;
          [apply no_failed_write_events
          | apply no_failed_write_trash_events].
      * intros ev Hev.
        destruct (process_sender_events _ _ _ _ _ _ Hev)
          as [Hin|(_ & g' & e & _ & _ & Hf)].
        -- now apply Hold.
        -- now rewrite (from_email_sender _ _ _ Hf).
    + exists (trace st ++ write_events s es1), s,
        (archive_filename (email_id e) (safe_sender s)).
      split; [rewrite Htr; now rewrite app_assoc|].
      split; [apply no_failed_write_app;
              [exact Hno | apply no_failed_write_events]|].
      intros mid ok Hin. rewrite Htr in Hin.
      apply in_app_or in Hin. destruct Hin as [Hin|Hin].
      * apply (Hfresh _ Hin). now left.
      * apply in_app_or in Hin. destruct Hin as [Hin|[Hin|[]]].
        -- unfold write_events in Hin. apply in_map_iff in Hin.
           now destruct Hin as (e' & E & _).
        -- discriminate Hin.
Qed.

(** X12.  A failing file write ends the step at once: when the step
    raises, the failed write is the last thing it did, every write before
    it succeeded, and no message of the sender whose write failed has been
    sent to the trash endpoint.  When the step returns, no write
    failed. *)
Theorem write_failure_stops_step
        (w : World) (disk0 : dict FileContent)
        (groups : Groups) (decisions : Decisions) :
  wf decisions ->
  match execute_actions w disk0 groups decisions with
  | Returned st => no_failed_write (trace st)
  | Raised st =>
      exists tr s f,
        trace st = tr ++ [FileWrite s f false] /\
        no_failed_write tr /\
        forall mid ok, ~ In (TrashCall s mid ok) (trace st)
  end.
Proof.
  intro Hwf. unfold execute_actions.
  apply execute_loop_failure; [exact Hwf | intros ev [] | intros ev []].
Qed.

(** ** What is in the archive directory *)

Lemma no_failed_write_not_truncated (w : World) (tr : list Event)
      (p : pystr) :
  no_failed_write tr -> ~ truncated w tr p.
Proof.
  intros Hno (pre & s & f & post & -> & _).
  specialize (Hno (FileWrite s f false)). simpl in Hno.
  assert (H : false = true -> False) by discriminate.
  apply H. symmetry. apply Hno. apply in_or_app. right. now left.
Qed.

(** The failed write that ends a trace without other failed writes is
    the only one. *)
Lemma last_failed_write (tr pre post : list Event) (s f s' f' : pystr) :
  no_failed_write tr ->
  tr ++ [FileWrite s f false] = pre ++ FileWrite s' f' false :: post ->
  pre = tr /\ f' = f.
Proof.
  revert pre. induction tr as [|ev tr IH]; intros pre Hno E.
  - destruct pre as [|ev' pre]; simpl in E.
    + injection E as _ <- _. auto.
    + injection E as _ E. now destruct pre.
  - destruct pre as [|ev' pre]; simpl in E.
    + injection E as -> _. specialize (Hno _ (or_introl eq_refl)).
      discriminate Hno.
    + injection E as <- E.
      destruct (IH pre) as (-> & ->); auto.
      intros x Hx. apply Hno. now right.
Qed.

Lemma truncated_last (w : World) (tr : list Event) (s f p : pystr) :
  no_failed_write tr ->
  (truncated w (tr ++ [FileWrite s f false]) p <->
   path_join (save_dir w) f = p /\ open_ok w (List.length tr) p = true).
Proof.
  intro Hno. split.
  - intros (pre & s' & f' & post & E & Hp & Ho).
    destruct (last_failed_write _ _ _ _ _ _ _ Hno E) as (-> & ->). auto.
  - intros (Hp & Ho). now exists tr, s, f, [].
Qed.

Lemma clean_disk_ok (w : World) (groups : Groups) (decisions : Decisions)
      (disk0 : dict FileContent) (st : ExecState) :
  no_failed_write (trace st) ->
  records_ok w groups decisions st -> others_untouched disk0 st ->
  disk_ok w groups decisions disk0 st.
Proof.
  intros Hno Hrec Hunt. split; [|split].
  - intros p Hp _. now apply Hrec.
  - intros p Hp _. now apply Hunt.
  - intros p Ht. now apply no_failed_write_not_truncated in Ht.
Qed.

(** What holds while the step is running: no write has failed, the saved
    files hold their archives and the other files are as they were. *)
Lemma save_email_disk (w : World) (groups : Groups) (decisions : Decisions)
      (disk0 : dict FileContent) (s : pystr) (g : SenderGroup)
      (e : Email) (st : ExecState) :
  In (s, delete) decisions -> get s groups = Some g -> In e (emails g) ->
  no_failed_write (trace st) ->
  records_ok w groups decisions st -> others_untouched disk0 st ->
  match save_email w s (safe_sender s) e st with
  | Returned st' =>
      no_failed_write (trace st') /\
      records_ok w groups decisions st' /\ others_untouched disk0 st'
  | Raised st' => disk_ok w groups decisions disk0 st'
  end.
Proof.
  intros Hs G He Hno Hrec Hunt. unfold save_email.
  set (path := path_join (save_dir w)
                 (archive_filename (email_id e) (safe_sender s))) in *.
  destruct (write_ok w (tick st) path).
  - split; [|split].
    + cbn [trace]. apply no_failed_write_app; [exact Hno|].
      intros ev [<-|[]]. reflexivity.
    + intros p Hp. cbn [saved disk] in *.
      destruct (pystr_eq_dec path p) as [<-|Hne].
      * rewrite get_set_same. eexists. split; [reflexivity|].
        split; [reflexivity|]. exists s, g. repeat split; auto.
      * rewrite get_set_other by exact Hne.
        apply Hrec. apply in_app_or in Hp.
        destruct Hp as [Hp|[Hp|[]]]; [exact Hp | contradiction].
    + intros p Hp. cbn [saved disk] in *.
      rewrite get_set_other.
      * apply Hunt. intro H. apply Hp. apply in_or_app. now left.
      * intros <-. apply Hp. apply in_or_app. right. now left.
  - assert (Hsame : forall p,
              ~ truncated w (trace st ++
                  [FileWrite s (archive_filename (email_id e)
                                                (safe_sender s)) false]) p ->
              get p (if open_ok w (tick st) path
                     then set path Damaged (disk st) else disk st)
              = get p (disk st)).
    { intros p Hnt. destruct (open_ok w (tick st) path) eqn:Ho;
        [|reflexivity].
      apply get_set_other. intros <-. apply Hnt.
      apply truncated_last; [exact Hno|]. split; [reflexivity|exact Ho]. }
    unfold disk_ok. cbn [saved disk trace]. split; [|split].
    + intros p Hp Hnt. rewrite (Hsame p Hnt). now apply Hrec.
    + intros p Hp Hnt. rewrite (Hsame p Hnt). now apply Hunt.
    + intros p Ht. apply truncated_last in Ht; [|exact Hno].
      destruct Ht as (<- & Ho). fold path in Ho |- *.
      unfold tick. rewrite Ho. apply get_set_same.
Qed.

Lemma save_phase_disk (w : World) (groups : Groups) (decisions : Decisions)
      (disk0 : dict FileContent) (s : pystr) (g : SenderGroup)
      (es : list Email) :
  In (s, delete) decisions -> get s groups = Some g ->
  (forall e, In e es -> In e (emails g)) ->
  forall st,
    no_failed_write (trace st) ->
    records_ok w groups decisions st -> others_untouched disk0 st ->
    match save_phase w s (safe_sender s) es st with
    | Returned st' =>
        no_failed_write (trace st') /\
        records_ok w groups decisions st' /\ others_untouched disk0 st'
    | Raised st' => disk_ok w groups decisions disk0 st'
    end.
Proof.
  intros Hs G. induction es as [|e es IH]; intros Hsub st Hno Hrec Hunt;
    [cbn [save_phase]; auto|].
  cbn [save_phase].
  pose proof (save_email_disk w groups decisions disk0 s g e st Hs G
                (Hsub e (or_introl eq_refl)) Hno Hrec Hunt) as Hstep.
  destruct (save_email w s (safe_sender s) e st) as [st1|st1].
  - destruct Hstep as (Hno1 & Hrec1 & Hunt1).
    apply IH; auto. intros e' He'. apply Hsub. now right.
  - exact Hstep.
Qed.

Lemma process_sender_disk (w : World) (groups : Groups)
      (decisions : Decisions) (disk0 : dict FileContent)
      (s : pystr) (d : Decision) (st : ExecState) :
  In (s, d) decisions ->
  no_failed_write (trace st) ->
  records_ok w groups decisions st -> others_untouched disk0 st ->
  match process_sender w groups s d st with
  | Returned st' =>
      no_failed_write (trace st') /\
      records_ok w groups decisions st' /\ others_untouched disk0 st'
  | Raised st' => disk_ok w groups decisions disk0 st'
  end.
Proof.
  intros Hs Hno Hrec Hunt. unfold process_sender.
  destruct d; [auto|].
  destruct (get s groups) as [g|] eqn:G; [|auto].
  pose proof (save_phase_disk w groups decisions disk0 s g (emails g) Hs G
                (fun e He => He) st Hno Hrec Hunt) as Hsave.
  destruct (save_phase w s (safe_sender s) (emails g) st) as [st1|st1];
    [|exact Hsave].
  destruct Hsave as (Hno1 & Hrec1 & Hunt1).
  destruct (trash_phase_shape w s (emails g) st1) as (Htr & Hsv & Hdk & _).
  split; [|split].
  - rewrite Htr. apply no_failed_write_app; [exact Hno1|].
    apply no_failed_write_trash_events.
  - intros p Hp. rewrite Hsv in Hp. rewrite Hdk. now apply Hrec1.
  - intros p Hp. rewrite Hsv in Hp. rewrite Hdk. now apply Hunt1.
Qed.

Lemma execute_loop_disk (w : World) (groups : Groups)
      (decisions : Decisions) (disk0 : dict FileContent)
      (items : list (pystr * Decision)) :
  (forall x, In x items -> In x decisions) ->
  forall st,
    no_failed_write (trace st) ->
    records_ok w groups decisions st -> others_untouched disk0 st ->
    match execute_loop w groups items st with
    | Returned st' =>
        no_failed_write (trace st') /\
        records_ok w groups decisions st' /\ others_untouched disk0 st'
    | Raised st' => disk_ok w groups decisions disk0 st'
    end.
Proof.
  induction items as [|[s d] items IH]; intros Hsub st Hno Hrec Hunt.
  - cbn [execute_loop]. auto.
  - cbn [execute_loop].
    pose proof (process_sender_disk w groups decisions disk0 s d st
                  (Hsub _ (or_introl eq_refl)) Hno Hrec Hunt) as Hstep.
    destruct (process_sender w groups s d st) as [st1|st1].
    + destruct Hstep as (Hno1 & Hrec1 & Hunt1).
      apply IH; auto. intros x Hx. apply Hsub. now right.
    + exact Hstep.
Qed.

Lemma execute_disk (w : World) (disk0 : dict FileContent)
      (groups : Groups) (decisions : Decisions) :
  let o := execute_actions w disk0 groups decisions in
  disk_ok w groups decisions disk0 (final o) /\
  (is_returned o = true -> no_failed_write (trace (final o))).
Proof.
  intro o. subst o. unfold execute_actions.
  pose proof (execute_loop_disk w groups decisions disk0 decisions
                (fun x H => H) (start disk0)) as H.
  destruct (execute_loop w groups decisions (start disk0)) as [st|st];
    cbn [final is_returned].
  - destruct H as (Hno & Hrec & Hunt).
    + intros ev [].
    + intros p [].
    + intros p _. reflexivity.
    + split; [now apply clean_disk_ok | auto].
  - split; [|discriminate]. apply H.
    + intros ev [].
    + intros p [].
    + intros p _. reflexivity.
Qed.

(** X13.  When the step returns, every saved path holds an archive
    record written by this run: its decision field is "delete", its email
    belongs to the group of a sender marked delete, its normalised sender
    is that sender's key, and the path is the archive path of that email.
    When the step raises, the same holds of every saved path except the
    one that the failed write opened, if it opened one. *)
Theorem saved_files_hold_archives
        (w : World) (disk0 : dict FileContent)
        (groups : Groups) (decisions : Decisions) (p : pystr) :
  let o := execute_actions w disk0 groups decisions in
  let st := final o in
  In p (saved st) ->
  is_returned o = true \/ ~ truncated w (trace st) p ->
  exists r,
    get p (disk st) = Some (Archive r) /\
    decision r = py "delete" /\
    exists k g,
      In (k, delete) decisions /\ get k groups = Some g /\
      In (archived_email r) (emails g) /\
      sender_normalized r = k /\
      p = path_join (save_dir w)
            (archive_filename (email_id (archived_email r))
                              (safe_sender k)).
Proof.
  intros o st Hp Hc.
  destruct (execute_disk w disk0 groups decisions) as ((Hrec & _) & Hret).
  fold o in Hrec, Hret. fold st in Hrec, Hret.
  assert (Hnt : ~ truncated w (trace st) p).
  { destruct Hc as [Hr|Hnt]; [|exact Hnt].
    apply no_failed_write_not_truncated. now apply Hret. }
  destruct (Hrec p Hp Hnt) as (r & G & Hok). exists r. split; [exact G|].
  exact Hok.
Qed.

(** X14.  The step never removes a file.  A path that is not among the
    saved paths and was not opened by a failed write holds at the end
    what it held at the start; a path that a failed write had opened
    holds a damaged file, whatever it held before; and a path that
    existed at the start still exists. *)
Theorem other_files_untouched
        (w : World) (disk0 : dict FileContent)
        (groups : Groups) (decisions : Decisions) (p : pystr) :
  let st := final (execute_actions w disk0 groups decisions) in
  (~ In p (saved st) -> ~ truncated w (trace st) p ->
   get p (disk st) = get p disk0) /\
  (truncated w (trace st) p -> get p (disk st) = Some Damaged) /\
  (mem p disk0 = true -> mem p (disk st) = true).
Proof.
  intro st.
  destruct (execute_disk w disk0 groups decisions)
    as ((_ & Hunt & Hcut) & _).
  fold st in Hunt, Hcut. split; [apply Hunt|]. split; [apply Hcut|].
  intro Hm.
  pose proof (execute_loop_invariant w groups
                (fun _ st' => mem p (disk st') = true)) as Hinv.
  destruct (Hinv) with (items := decisions) (st := start disk0)
    as (r & H).
  - intros s d r st' Hst'. destruct d; [exact Hst'|].
    destruct (get s groups) as [g|] eqn:G.
    + destruct (process_sender_delete w groups s g st' G)
        as (_ & _ & _ & _ & _ & _ & _ & _ & Hmono & _).
      now apply Hmono.
    + rewrite process_sender_idle by (now right). exact Hst'.
  - exact Hm.
  - exact H.
Qed.

(** ** Who is touched *)

(** X15.  Everything the step does concerns a fetched email whose
    normalised sender is marked delete: each write is the archive of such
    an email, each trash call carries the id of such an email, and so does
    each trashed id. *)
Theorem only_marked_senders_touched
        (w : World) (disk0 : dict FileContent) (es : list Email)
        (groups : Groups) (decisions : Decisions) :
  group_by_sender es = Some groups ->
  let st := final (execute_actions w disk0 groups decisions) in
  (forall ev, In ev (trace st) ->
     exists e k,
       In e es /\ normalize_sender (sender e) = Some k /\
       In (k, delete) decisions /\ from_email k e ev) /\
  (forall mid, In mid (trashed st) ->
     exists e k,
       In e es /\ email_id e = mid /\
       normalize_sender (sender e) = Some k /\ In (k, delete) decisions).
Proof.
  intros Hg st. pose proof (groups_of_fetched es groups Hg) as Hinv.
  assert (Hev : forall ev, In ev (trace st) ->
     exists e k,
       In e es /\ normalize_sender (sender e) = Some k /\
       In (k, delete) decisions /\ from_email k e ev).
  { intros ev Hin. unfold st, execute_actions in Hin.
    apply execute_loop_events in Hin.
    destruct Hin as [[]|(k & g & e & Hk & G & He & Hf)].
    apply get_Some_In in G.
    exists e, k. repeat split; auto.
    - now apply (group_email_fetched es groups k g).
    - destruct Hinv as (_ & Hok & _).
      destruct (Hok k g G) as (_ & _ & Hn). now apply Hn. }
  split; [exact Hev|].
  intros mid Hmid.
  destruct (execute_bookkeeping w disk0 groups decisions) as (_ & Htd & _).
  fold st in Htd. rewrite Htd in Hmid.
  apply In_trash_successes in Hmid. destruct Hmid as (s & Hin).
  destruct (Hev _ Hin) as (e & k & He & Hn & Hk & _ & Hid).
  exists e, k. auto.
Qed.

Lemma execute_loop_drop_unknown (w : World) (groups : Groups) (s : pystr)
      (d : Decision) (a b : list (pystr * Decision)) :
  get s groups = None ->
  forall st,
    execute_loop w groups (a ++ (s, d) :: b) st =
    execute_loop w groups (a ++ b) st.
Proof.
  intro G. induction a as [|[k d'] a IH]; intro st.
  - simpl. rewrite process_sender_idle by now right. reflexivity.
  - simpl. destruct (process_sender w groups k d' st);
      [apply IH | reflexivity].
Qed.

(** X16.  A decision for a sender that has no group has no effect,
    whether it says skip or delete: the run is the same as without that
    entry. *)
Theorem unknown_sender_ignored
        (w : World) (disk0 : dict FileContent) (groups : Groups)
        (s : pystr) (d : Decision) (a b : Decisions) :
  get s groups = None ->
  execute_actions w disk0 groups (a ++ (s, d) :: b) =
  execute_actions w disk0 groups (a ++ b).
Proof.
  intro G. unfold execute_actions. now apply execute_loop_drop_unknown.
Qed.

(** ** File names *)

Lemma replace_char_gone (a b : codepoint) (s : pystr) :
  a <> b -> ~ In a (replace_char a b s).
Proof.
  intros Hab Hin. unfold replace_char in Hin. apply in_map_iff in Hin.
  destruct Hin as (x & E & _).
  destruct (N.eqb_spec x a); congruence.
Qed.

Lemma replace_char_keeps_out (a b c : codepoint) (s : pystr) :
  c <> b -> ~ In c s -> ~ In c (replace_char a b s).
Proof.
  intros Hcb Hs Hin. unfold replace_char in Hin. apply in_map_iff in Hin.
  destruct Hin as (x & E & Hx).
  destruct (N.eqb_spec x a); [congruence | subst; contradiction].
Qed.

Lemma replace_char_clean (a b : codepoint) (s : pystr) :
  ~ In a s -> replace_char a b s = s.
Proof.
  intro Hs. unfold replace_char. induction s as [|x s IH]; [reflexivity|].
  simpl. destruct (N.eqb_spec x a) as [->|_].
  - exfalso. apply Hs. now left.
  - f_equal. apply IH. intro H. apply Hs. now right.
Qed.

Lemma firstn_subset {A : Type} (n : nat) (l : list A) (x : A) :
  In x (firstn n l) -> In x l.
Proof.
  revert l. induction n as [|n IH]; intros [|y l]; simpl; auto.
  - intros [].
  - intros [->|H]; auto.
Qed.

(** X17.  The sender part of an archive file name has at most 48
    characters and contains neither "@" nor "."; a key of at most 48
    characters without these two is used as it is.  The file name starts
    with the message id and ends with ".json". *)
Theorem safe_sender_shape (s mid : pystr) :
  List.length (safe_sender s) <= 48 /\
  ~ In AT (safe_sender s) /\ ~ In DOT (safe_sender s) /\
  (List.length s <= 48 -> ~ In AT s -> ~ In DOT s -> safe_sender s = s) /\
  firstn (List.length mid) (archive_filename mid (safe_sender s)) = mid /\
  exists stem, archive_filename mid (safe_sender s) = stem ++ py ".json".
Proof.
  unfold safe_sender, slice_to.
  split; [rewrite length_firstn; lia|].
  split; [|split; [|split; [|split]]].
  - intro H. apply firstn_subset in H.
    revert H. apply replace_char_keeps_out; [discriminate|].
    apply replace_char_gone. discriminate.
  - intro H. apply firstn_subset in H.
    revert H. apply replace_char_gone. discriminate.
  - intros Hlen Hat Hdot.
    rewrite (replace_char_clean AT USCORE s Hat),
      (replace_char_clean DOT USCORE s Hdot).
    now apply firstn_all2.
  - unfold archive_filename.
    rewrite firstn_app, Nat.sub_diag, firstn_all. simpl.
    now rewrite app_nil_r.
  - unfold archive_filename. eexists.
    rewrite !app_assoc. reflexivity.
Qed.

(* ================================================================ *)
(** * Further properties: the run as a whole *)
(* ================================================================ *)

Lemma execute_loop_all_skip (w : World) (groups : Groups)
      (items : list (pystr * Decision)) (st : ExecState) :
  (forall s, ~ In (s, delete) items) ->
  execute_loop w groups items st = Returned st.
Proof.
  induction items as [|[s d] items IH]; intro Hno; [reflexivity|].
  cbn [execute_loop]. destruct d.
  - simpl. apply IH. intros s' H. apply (Hno s'). now right.
  - exfalso. apply (Hno s). now left.
Qed.

(** X18.  When the fetch stage hands on no email, because the listing
    or a [get] failed or because the inbox is empty, the run goes through
    without showing a sender or reading a line, and the execute step
    returns at once: nothing is saved and nothing is trashed. *)
Theorem run_without_emails
        (P : Provider) (w : World) (disk0 : dict FileContent)
        (max_fetch : Z) (inputs : list pystr) :
  fst (fetch_emails P max_fetch) = [] ->
  run_workflow P w disk0 max_fetch inputs =
  {| run_calls := snd (fetch_emails P max_fetch);
     run_shown := [];
     run_exec := Some (Returned (start disk0)) |}.
Proof.
  unfold run_workflow.
  destruct (fetch_emails P max_fetch) as [es calls]. simpl.
  intros ->. reflexivity.
Qed.

Lemma fetch_loop_ids (P : Provider) (ids : list pystr) :
  forall acc es calls,
    fetch_loop P ids acc = (Some es, calls) ->
    forall e, In e es -> In e acc \/ In (CallGet (email_id e)) calls.
Proof.
  induction ids as [|i ids IH]; intros acc es calls Hl e He.
  - simpl in Hl. injection Hl as <- <-. now left.
  - cbn [fetch_loop] in Hl.
    destruct (get_message P i) as [m|]; [|discriminate].
    destruct (fetch_loop P ids (acc ++ [email_of_message i m]))
      as [res calls'] eqn:Hrec.
    injection Hl as -> <-.
    destruct (IH _ _ _ Hrec e He) as [Hin|Hin].
    + apply in_app_or in Hin. destruct Hin as [Hin|[<-|[]]].
      * now left.
      * right. left. reflexivity.
    + right. now right.
Qed.

Lemma fetch_emails_ids (P : Provider) (max_fetch : Z) (e : Email) :
  In e (fst (fetch_emails P max_fetch)) ->
  In (CallGet (email_id e)) (snd (fetch_emails P max_fetch)).
Proof.
  unfold fetch_emails, fetch_try.
  destruct (list_messages P max_fetch) as [res|]; [|intros []].
  destruct (fetch_loop P (match res with Some l => l | None => [] end) [])
    as [[es|] calls] eqn:Hl; [|intros []].
  simpl. intro He.
  destruct (fetch_loop_ids P _ _ _ _ Hl e He) as [[]|Hin]. now right.
Qed.

(** X19.  In a console run every trash call names a message that was
    fetched with [get] in this very run, belongs to a sender the human
    marked delete, and has had its archive file written earlier in the
    run. *)
Theorem run_trashes_only_archived_fetched
        (P : Provider) (w : World) (disk0 : dict FileContent)
        (max_fetch : Z) (inputs : list pystr) (o : Outcome)
        (pre post : list Event) (s mid : pystr) (ok : bool) :
  run_exec (run_workflow P w disk0 max_fetch inputs) = Some o ->
  trace (final o) = pre ++ TrashCall s mid ok :: post ->
  In (CallGet mid) (run_calls (run_workflow P w disk0 max_fetch inputs)) /\
  In (FileWrite s (archive_filename mid (safe_sender s)) true) pre /\
  exists groups decisions,
    group_by_sender (fst (fetch_emails P max_fetch)) = Some groups /\
    fst (human_review groups inputs) = Some decisions /\
    In (s, delete) decisions.
Proof.
  unfold run_workflow.
  pose proof (fetch_emails_ids P max_fetch) as Hids.
  destruct (fetch_emails P max_fetch) as [es calls]. cbn [fst snd] in *.
  destruct (group_by_sender es) as [groups|] eqn:Hg; [|discriminate].
  pose proof (human_review_wf groups inputs) as Hwf.
  destruct (human_review groups inputs) as [[decisions|] shown] eqn:Hh;
    [|discriminate].
  cbn [run_exec run_calls fst] in *. intros Ho Htr. injection Ho as <-.
  specialize (Hwf decisions eq_refl).
  pose proof (groups_of_fetched es groups Hg) as Hinv.
  assert (Hev : In (TrashCall s mid ok)
                   (trace (final (execute_actions w disk0 groups decisions)))).
  { rewrite Htr. apply in_elt. }
  unfold execute_actions in Hev. apply execute_loop_events in Hev.
  destruct Hev as [[]|(k & g & e & Hk & G & He & Hs & Hid)].
  subst k mid.
  split; [|split].
  - apply Hids. apply (group_email_fetched es groups s g); auto.
    now apply get_Some_In.
  - assert (Hcount : forall k g, In (k, g) groups ->
                                 count g = List.length (emails g)).
    { intros k g' Hin. destruct Hinv as (_ & Hok & _).
      now destruct (Hok k g' Hin) as (_ & ? & _). }
    pose proof (execute_trace_safe w disk0 groups decisions Hcount Hwf)
      as Hsafe.
    rewrite Htr in Hsafe. apply trace_safe_app in Hsafe.
    destruct Hsafe as [_ [(g' & _ & _ & Hin) _]]. exact Hin.
  - exists groups, decisions. rewrite Hh. repeat split; auto.
Qed.

Lemma ask_delete_word (inputs : list pystr) (rest : list pystr) :
  ask inputs = Some (delete, rest) ->
  exists line, In line inputs /\
               member (lower (strip line)) delete_words = true.
Proof.
  induction inputs as [|line inputs IH]; [discriminate|].
  cbn [ask].
  destruct (is_empty (lower (strip line)) ||
            member (lower (strip line)) skip_words); [discriminate|].
  destruct (member (lower (strip line)) delete_words) eqn:M.
  - intros _. exists line. split; [now left | exact M].
  - intro H. destruct (IH H) as (l & Hl & Ml). exists l. split; auto.
    now right.
Qed.

Lemma ask_rest (inputs : list pystr) (d : Decision) (rest : list pystr) :
  ask inputs = Some (d, rest) -> forall l, In l rest -> In l inputs.
Proof.
  induction inputs as [|line inputs IH]; [discriminate|].
  cbn [ask].
  destruct (is_empty (lower (strip line)) ||
            member (lower (strip line)) skip_words).
  - intro H. injection H as <- <-. intros l Hl. now right.
  - destruct (member (lower (strip line)) delete_words).
    + intro H. injection H as <- <-. intros l Hl. now right.
    + intros H l Hl. right. now apply IH.
Qed.

Lemma review_loop_no_delete (order : list (pystr * SenderGroup)) :
  forall inputs decisions shown ds,
    (forall l, In l inputs ->
               member (lower (strip l)) delete_words = false) ->
    (forall s, ~ In (s, delete) decisions) ->
    fst (review_loop order inputs decisions shown) = Some ds ->
    forall s, ~ In (s, delete) ds.
Proof.
  induction order as [|[k g] order IH];
    intros inputs decisions shown ds Hno Hd Hr.
  - simpl in Hr. now injection Hr as <-.
  - cbn [review_loop] in Hr.
    destruct (ask inputs) as [[d rest]|] eqn:Ha; [|discriminate].
    apply (IH rest (set k d decisions) (shown ++ [group_sender g]));
      [| |exact Hr].
    + intros l Hl. apply Hno. now apply (ask_rest inputs d rest).
    + destruct d.
      * intros s Hin.
        destruct (get k decisions) as [v0|] eqn:G.
        -- destruct (set_present k v0 skip decisions G)
             as (d1 & d2 & E1 & E2).
           rewrite E2 in Hin. apply (Hd s). rewrite E1.
           apply in_app_or in Hin. apply in_or_app.
           destruct Hin as [Hin|[Hin|Hin]];
             [now left | discriminate | right; now right].
        -- rewrite (set_absent k skip decisions G) in Hin.
           apply in_app_or in Hin.
           destruct Hin as [Hin|[Hin|[]]];
             [now apply (Hd s) | discriminate].
      * exfalso. destruct (ask_delete_word inputs rest Ha) as (l & Hl & M).
        rewrite (Hno l Hl) in M. discriminate.
Qed.

(** X20.  A console run in which no line typed is a delete word does
    nothing to the mailbox or the archive directory: if the execute step
    is reached, it returns at once with no file saved and no message
    trashed. *)
Theorem run_without_delete_word
        (P : Provider) (w : World) (disk0 : dict FileContent)
        (max_fetch : Z) (inputs : list pystr) (o : Outcome) :
  (forall l, In l inputs ->
             member (lower (strip l)) delete_words = false) ->
  run_exec (run_workflow P w disk0 max_fetch inputs) = Some o ->
  o = Returned (start disk0).
Proof.
  intro Hno. unfold run_workflow.
  destruct (fetch_emails P max_fetch) as [es calls].
  destruct (group_by_sender es) as [groups|]; [|discriminate].
  pose proof (review_loop_no_delete (review_order groups) inputs [] []) as H.
  unfold human_review.
  destruct (review_loop (review_order groups) inputs [] [])
    as [[decisions|] shown]; [|discriminate].
  cbn [run_exec]. intro Ho. injection Ho as <-.
  unfold execute_actions. apply execute_loop_all_skip.
  apply (H decisions); auto.
Qed.

(* ================================================================ *)
(** * Further properties: authorisation *)
(* ================================================================ *)

(** X21.  On the console the outcome of authorisation is fixed by the
    token file and the client-secrets file.  A valid cached token is used
    as it is, with nothing refreshed, asked or written.  A token that is
    not valid but expired with a refresh token is refreshed, the service
    is built with the refreshed credentials and these are written to the
    token file.  With no token, or one that is neither valid nor
    refreshable, and a client-secrets file, the consent flow runs, the
    service is built with its credentials and these are written.  A built
    service comes from one of these three cases and from nowhere else.
    The missing-file error is raised only when there is no usable or
    refreshable token and no client-secrets file, and then nothing has
    been done. *)
Theorem get_gmail_service_cases (env : AuthEnv) :
  let res := fst (get_gmail_service env) in
  let evs := snd (get_gmail_service env) in
  (forall c, token_file env = Some c -> valid c = true ->
             res = ServiceBuilt c /\ evs = []) /\
  (forall c, token_file env = Some c -> valid c = false ->
             expired c && has_refresh_token c = true ->
             res = ServiceBuilt (refresh env c) /\
             evs = [Refreshed c; TokenWritten (refresh env c)]) /\
  ((forall c, token_file env = Some c ->
              valid c = false /\
              expired c && has_refresh_token c = false) ->
   credentials_file_exists env = true ->
   res = ServiceBuilt (run_local_server env) /\
   evs = [ConsentFlow; TokenWritten (run_local_server env)]) /\
  (forall c, res = ServiceBuilt c ->
     (token_file env = Some c /\ valid c = true /\ evs = []) \/
     (exists c0, token_file env = Some c0 /\ valid c0 = false /\
                 expired c0 && has_refresh_token c0 = true /\
                 c = refresh env c0 /\
                 evs = [Refreshed c0; TokenWritten c]) \/
     (c = run_local_server env /\
      credentials_file_exists env = true /\
      evs = [ConsentFlow; TokenWritten c])) /\
  (res = MissingCredentialsFile ->
   evs = [] /\ credentials_file_exists env = false /\
   forall c, token_file env = Some c ->
             valid c = false /\
             expired c && has_refresh_token c = false).
Proof.
  intros res evs. subst res evs. unfold get_gmail_service, consent.
  destruct (token_file env) as [c|].
  - destruct (valid c) eqn:V.
    + cbn [fst snd].
      split; [intros c0 E _; injection E as <-; auto|].
      split; [intros c0 E V'; injection E as <-; congruence|].
      split; [intros H _; destruct (H c eq_refl); congruence|].
      split; [|discriminate].
      intros c0 E. injection E as <-. left. auto.
    + destruct (expired c && has_refresh_token c) eqn:R.
      * cbn [fst snd].
        split; [intros c0 E V'; injection E as <-; congruence|].
        split; [intros c0 E _ _; injection E as <-; auto|].
        split; [intros H _; destruct (H c eq_refl); congruence|].
        split; [|discriminate].
        intros c0 E. injection E as <-. right. left.
        exists c. auto.
      * destruct (credentials_file_exists env); cbn [fst snd].
        -- split; [intros c0 E V'; injection E as <-; congruence|].
           split; [intros c0 E _ R'; injection E as <-; congruence|].
           split; [auto|]. split; [|discriminate].
           intros c0 E. injection E as <-. right. right. auto.
        -- split; [intros c0 E V'; injection E as <-; congruence|].
           split; [intros c0 E _ R'; injection E as <-; congruence|].
           split; [intros _ E; discriminate E|].
           split; [discriminate|].
           intros _. split; [reflexivity|]. split; [reflexivity|].
           intros c0 E. injection E as <-. auto.
  - destruct (credentials_file_exists env); cbn [fst snd].
    + split; [intros c0 E; discriminate E|].
      split; [intros c0 E; discriminate E|].
      split; [auto|]. split; [|discriminate].
      intros c0 E. injection E as <-. right. right. auto.
    + split; [intros c0 E; discriminate E|].
      split; [intros c0 E; discriminate E|].
      split; [intros _ E; discriminate E|].
      split; [discriminate|].
      intros _. split; [reflexivity|]. split; [reflexivity|].
      intros c0 E. discriminate E.
Qed.

(** X22.  The two entry points build the service with the same
    credentials, or both report the missing file.  They differ in one
    case: after refreshing an expired token the console writes the new
    token to the token file and the web app does not; in every other case
    they do the same things. *)
Theorem auth_console_and_web (env : AuthEnv) :
  fst (get_gmail_service_app env) = fst (get_gmail_service env) /\
  ((exists c, token_file env = Some c /\ valid c = false /\
              expired c && has_refresh_token c = true /\
              snd (get_gmail_service env) =
                [Refreshed c; TokenWritten (refresh env c)] /\
              snd (get_gmail_service_app env) = [Refreshed c])
   \/
   snd (get_gmail_service_app env) = snd (get_gmail_service env)).
Proof.
  unfold get_gmail_service, get_gmail_service_app.
  destruct (token_file env) as [c|]; [|auto].
  destruct (valid c) eqn:V; [auto|].
  destruct (expired c && has_refresh_token c) eqn:R; [|auto].
  split; [reflexivity|]. left. exists c. auto.
Qed.

(* ================================================================ *)
(** * Further properties: the web session *)
(* ================================================================ *)

Lemma group_stage_returns (st : AgentState) :
  exists g, group_stage st = Some g.
Proof.
  unfold group_stage.
  destruct (group_by_sender_inv (state_emails st)) as (g & Hg & _).
  now exists g.
Qed.

Lemma confirm_some (d d' : Decisions) :
  confirm d = Some d' -> d' = d /\ some_delete d = true.
Proof.
  unfold confirm, some_delete.
  destruct (existsb (Decision_eqb delete) (values d)); [|discriminate].
  intro H. injection H as <-. auto.
Qed.

Ltac break_step :=
  repeat match goal with
         | |- context [match ?x with _ => _ end] => destruct x eqn:?
         end.

Lemma app_step_session_ok (P : Provider) (w : World) (a : AppWorld)
      (ev : UiEvent) :
  session_ok (app_session a) ->
  session_ok (app_session (app_step P w a ev)).
Proof.
  intro Hok. unfold app_step.
  destruct (sess_stage (app_session a)) eqn:Hstage.
  - (* welcome *)
    destruct ev; try exact Hok.
    unfold session_ok. simpl. discriminate.
  - (* fetching *)
    destruct ev; try exact Hok.
    destruct (sess_state (app_session a)) as [st|] eqn:Hst; [|exact Hok].
    destruct (group_stage_returns (fst (fetch_emails_app P st)))
      as (g & ->).
    unfold session_ok, review_groups. simpl. discriminate.
  - (* review *)
    destruct ev; try exact Hok.
    + destruct (review_groups (app_session a)) as [g|] eqn:Hg;
        [|exact Hok].
      destruct (mem (click_target c) g); [|exact Hok].
      unfold session_ok, review_groups in *. simpl.
      rewrite Hg. discriminate.
    + destruct (sess_state (app_session a)) as [st|] eqn:Hst;
        [|exact Hok].
      destruct (review_groups (app_session a)) as [g|] eqn:Hg;
        [|exact Hok].
      destruct (confirm (sess_decisions (app_session a))) as [d|] eqn:Hc;
        [|exact Hok].
      apply confirm_some in Hc. destruct Hc as [-> Hd].
      unfold session_ok. simpl.
      unfold review_groups in Hg. rewrite Hst in Hg.
      eexists _, g, _. repeat split; eauto.
  - (* executing *)
    destruct ev; try exact Hok.
    unfold session_ok in Hok. rewrite Hstage in Hok.
    destruct Hok as (st & g & d & Hst & Hg & Hd & Hsome).
    rewrite Hst, Hg, Hd.
    destruct (execute_actions w (app_disk a) g d) as [x|x]; simpl.
    + unfold session_ok. simpl. eexists _, g, d. repeat split; eauto.
    + unfold session_ok. rewrite Hstage. eexists st, g, d. auto.
  - (* finished *)
    destruct ev; try exact Hok.
    exact I.
Qed.

(** X23.  Whatever the user does in the web app, the session keeps its
    shape: the review stage is only reached with the groups in the state,
    and the executing and finished stages only with groups and with
    confirmed decisions that mark at least one sender delete. *)
Theorem app_session_invariant
        (P : Provider) (w : World) (disk0 : dict FileContent)
        (evs : list UiEvent) :
  session_ok (app_session (app_run P w (app_start disk0) evs)).
Proof.
  unfold app_run.
  assert (H : forall a, session_ok (app_session a) ->
                        session_ok (app_session
                                      (fold_left (app_step P w) evs a))).
  { induction evs as [|ev evs IH]; intros a Ha; [exact Ha|].
    cbn [fold_left]. apply IH. now apply app_step_session_ok. }
  apply H. exact I.
Qed.

Lemma app_step_quiet (P : Provider) (w : World) (a : AppWorld)
      (ev : UiEvent) :
  sess_stage (app_session a) <> executing ->
  app_log (app_step P w a ev) = app_log a /\
  app_disk (app_step P w a ev) = app_disk a.
Proof.
  intro Hne. unfold app_step.
  destruct (sess_stage (app_session a)); [| | |contradiction|];
    destruct ev; auto; break_step; auto.
Qed.

Lemma app_step_stage (P : Provider) (w : World) (a : AppWorld)
      (ev : UiEvent) :
  let s := sess_stage (app_session a) in
  let s' := sess_stage (app_session (app_step P w a ev)) in
  s' = s \/
  (s = welcome /\ s' = fetching /\ exists m, ev = StartCleanup m) \/
  (s = fetching /\ s' = review /\ ev = Rerun) \/
  (s = review /\ s' = executing /\ ev = ConfirmChoices) \/
  (s = executing /\ s' = finished /\ ev = Rerun) \/
  (s = finished /\ s' = welcome /\ ev = NewSession).
Proof.
  intros s s'. subst s s'. unfold app_step.
  destruct (sess_stage (app_session a)) eqn:Hs; destruct ev;
    try (left; exact Hs); break_step; simpl; try (left; exact Hs).
  - right. left. eauto.
  - right. right. left. auto.
  - left. reflexivity.
  - right. right. right. left. auto.
  - right. right. right. right. left. auto.
  - right. right. right. right. right. auto.
Qed.

(** X24.  In the web app nothing is written and no trash call is made
    outside the executing stage, and that stage is only entered by
    "Confirm choices": a script run in any other stage leaves the archive
    directory and the log of writes and trash calls as they are, and as
    long as the user has not confirmed, the directory is what it was when
    the tab was opened. *)
Theorem app_effects_need_confirmation
        (P : Provider) (w : World) (disk0 : dict FileContent) :
  (forall a ev,
      sess_stage (app_session a) <> executing ->
      app_log (app_step P w a ev) = app_log a /\
      app_disk (app_step P w a ev) = app_disk a) /\
  (forall evs,
      ~ In ConfirmChoices evs ->
      app_log (app_run P w (app_start disk0) evs) = [] /\
      app_disk (app_run P w (app_start disk0) evs) = disk0).
Proof.
  split; [apply app_step_quiet|].
  intros evs Hno. unfold app_run.
  assert (H : forall a,
             stage_rank (sess_stage (app_session a)) <= 2 ->
             app_log (fold_left (app_step P w) evs a) = app_log a /\
             app_disk (fold_left (app_step P w) evs a) = app_disk a).
  { induction evs as [|ev evs IH]; intros a Ha; [auto|].
    cbn [fold_left].
    assert (Hq : sess_stage (app_session a) <> executing).
    { intro E. rewrite E in Ha. simpl in Ha. lia. }
    destruct (app_step_quiet P w a ev Hq) as (Hl & Hd).
    rewrite <- Hl, <- Hd. apply IH.
    - intro H. apply Hno. now right.
    - pose proof (app_step_stage P w a ev) as Hs. cbv zeta in Hs.
      destruct Hs as [->|[(_ & -> & _)|[(_ & -> & _)|[(_ & _ & E)
                     |[(E & _)|(E & _)]]]]]; simpl; try lia.
      + exfalso. apply Hno. left. now symmetry.
      + contradiction.
      + rewrite E in Ha. simpl in Ha. lia. }
  apply (H (app_start disk0)). simpl. lia.
Qed.

(** X25.  The stages of the web app follow one another in a fixed
    order: a script run keeps the stage or moves it one step along
    welcome, fetching, review, executing, finished, each move having its
    own trigger, and the only way back is "Start new session", from
    finished to welcome. *)
Theorem app_stage_order (P : Provider) (w : World) (a : AppWorld)
        (ev : UiEvent) :
  let s := sess_stage (app_session a) in
  let s' := sess_stage (app_session (app_step P w a ev)) in
  s' = s \/
  (stage_rank s' = S (stage_rank s) /\
   (s' = fetching -> exists m, ev = StartCleanup m) /\
   (s' = review -> ev = Rerun) /\
   (s' = executing -> ev = ConfirmChoices) /\
   (s' = finished -> ev = Rerun)) \/
  (s = finished /\ s' = welcome /\ ev = NewSession).
Proof.
  pose proof (app_step_stage P w a ev) as H. cbv zeta in *.
  destruct H as [H|[(-> & -> & H)|[(-> & -> & H)|[(-> & -> & H)
               |[(-> & -> & H)|(-> & -> & H)]]]]]; auto;
    right; left; (split; [reflexivity|]);
    repeat split; intro E; try discriminate E; auto.
Qed.

End Agent.

(* ================================================================== *)
(** * Worked examples *)
(* ================================================================== *)

(** Concrete lists of strings are distinct by inspection. *)
Ltac distinct_by_inspection :=
  repeat (constructor; [vm_compute; intuition discriminate|]); constructor.

Ltac no_underscore :=
  repeat (constructor; [vm_compute; intuition discriminate|]); constructor.

(** The example of the specification: three fetched messages, two of
    a@x.com and one of b@y.com; a@x.com is marked delete and b@y.com skip.
    Two files are saved, two ids are trashed, and nothing happens to the
    message of b@y.com. *)
Example spec_example :
  group_by_sender latin_lower Sample.fetched = Some Sample.groups /\
  execute_actions plain_join Sample.calm [] Sample.groups Sample.decisions =
  Returned
    {| saved := [plain_join (py "saved_emails") Sample.file1;
                 plain_join (py "saved_emails") Sample.file3];
       trashed := [py "m1"; py "m3"];
       disk :=
         [(plain_join (py "saved_emails") Sample.file1,
           Archive {| archived_email := Sample.e1;
                      archived_at := py "2024-01-01T00:00:00";
                      decision := py "delete";
                      sender_normalized := Sample.a_x |});
          (plain_join (py "saved_emails") Sample.file3,
           Archive {| archived_email := Sample.e3;
                      archived_at := py "2024-01-01T00:00:00";
                      decision := py "delete";
                      sender_normalized := Sample.a_x |})];
       trace := [FileWrite Sample.a_x Sample.file1 true;
                 FileWrite Sample.a_x Sample.file3 true;
                 TrashCall Sample.a_x (py "m1") true;
                 TrashCall Sample.a_x (py "m3") true] |}.
Proof. split; vm_compute; reflexivity. Qed.

(** ** Group *)

(** C3, the claim as worded fails: in "a>b<c" no address stands between
    angle brackets, so the worded rule keeps the whole string, but the
    code answers "c". *)
Lemma normalize_sender_counterexample :
  normalize_sender latin_lower (py "a>b<c") = Some (py "c") /\
  spec_normalize latin_lower (py "a>b<c") = py "a>b<c" /\
  ~ (forall raw,
        normalize_sender latin_lower raw =
        Some (spec_normalize latin_lower raw)).
Proof.
  split; [vm_compute; reflexivity|]. split; [vm_compute; reflexivity|].
  intro H. specialize (H (py "a>b<c")). vm_compute in H. discriminate H.
Qed.

(** The usual header forms, where code and wording agree. *)
Example normalize_sender_usual :
  normalize_sender latin_lower (py "  Foo Bar < Foo@X.COM > ") =
    Some (py "foo@x.com") /\
  normalize_sender latin_lower (py " Plain@Example.ORG ") =
    Some (py "plain@example.org") /\
  normalize_sender latin_lower (py "a<b<c>") = Some (py "b").
Proof. repeat split; vm_compute; reflexivity. Qed.

(** ** Decide *)

(** C8, the claim as worded fails: the line "x" is no delete trigger,
    yet it does not make the sender skip; the prompt is repeated and the
    next line, "d", marks the sender delete. *)
Lemma decide_inputs_counterexample :
  spec_choice latin_lower (py "x") = skip /\
  ask latin_lower [py "x"; py "d"] = Some (delete, []) /\
  fst (human_review latin_lower Sample.groups [py "x"; py "d"; py ""]) =
    Some [(Sample.a_x, delete); (Sample.b_y, skip)] /\
  ~ (forall line rest,
        ask latin_lower (line :: rest) =
        Some (spec_choice latin_lower line, rest)).
Proof.
  split; [vm_compute; reflexivity|]. split; [vm_compute; reflexivity|].
  split; [vm_compute; reflexivity|].
  intro H. specialize (H (py "x") [py "d"]). vm_compute in H. discriminate H.
Qed.

(** The lines " KEEP ", "Trash" and "maybe" at the prompt, and a whole
    review: with the lines "x", "d" and "" the sender a@x.com, shown
    first, is marked delete by "d" after "x" was refused, and b@y.com is
    marked skip by the empty line. *)
Lemma decide_inputs_witness :
  ask latin_lower [py " KEEP "; py "d"] = Some (skip, [py "d"]) /\
  ask latin_lower [py "Trash"] = Some (delete, []) /\
  ask latin_lower [py "maybe"; py ""] = ask latin_lower [py ""] /\
  current_choice Sample.only_a Sample.b_y = skip /\
  get Sample.a_x [(Sample.a_x, delete); (Sample.b_y, skip)] = Some delete /\
  human_review latin_lower Sample.groups [py "x"; py "d"; py ""] =
    (Some [(Sample.a_x, delete); (Sample.b_y, skip)],
     [Sample.a_x; Sample.b_y]).
Proof.
  split; [|split; [|split; [|split; [|split]]]].
  - refine (proj1 (decide_inputs latin_lower (py " KEEP ") [py "d"]
                     Sample.only_a Sample.b_y) _).
    right. vm_compute. auto.
  - refine (proj1 (proj2 (decide_inputs latin_lower (py "Trash") []
                            Sample.only_a Sample.b_y)) _).
    vm_compute. auto.
  - refine (proj1 (proj2 (proj2 (decide_inputs latin_lower (py "maybe")
                                   [py ""] Sample.only_a Sample.b_y)))
              _ _ _).
    + vm_compute. reflexivity.
    + vm_compute. intuition discriminate.
    + vm_compute. intuition discriminate.
  - refine (proj1 (proj2 (proj2 (proj2 (proj2
              (decide_inputs latin_lower [] [] Sample.only_a Sample.b_y)))))
              _).
    vm_compute. reflexivity.
  - pose proof (proj1 (proj2 (proj2 (proj2 (proj2 (proj2 (proj2 (proj2
                  (decide_inputs latin_lower (py "d") [py ""] []
                                 Sample.a_x)))))))))
      as Hloop.
    destruct (Hloop {| group_sender := Sample.a_x;
                       emails := [Sample.e1; Sample.e3]; count := 2 |}
                    [(Sample.b_y, {| group_sender := Sample.b_y;
                                     emails := [Sample.e2]; count := 1 |})]
                    [])
      as (_ & _ & _ & _ & Hfinal).
    refine (proj2 (Hfinal [(Sample.a_x, delete); (Sample.b_y, skip)] _ _)
              _).
    + vm_compute. intuition discriminate.
    + vm_compute. reflexivity.
    + vm_compute. auto.
  - destruct (decide_inputs latin_lower [] [] [] [])
      as (_ & _ & _ & _ & _ & _ & _ & _ & Hreview).
    apply (Hreview Sample.groups [py "x"; py "d"; py ""]).
    + distinct_by_inspection.
    + vm_compute. lia.
Defined.

Lemma review_order_witness :
  exists ds,
    fst (human_review latin_lower Sample.groups [py "d"; py ""]) = Some ds.
Proof.
  refine (proj2 (proj2
            (proj2 (proj2 (proj2 (proj2
               (review_order_descending_stable latin_lower Sample.groups))))
               [py "d"; py ""])) _ _).
  - repeat constructor.
  - vm_compute. auto.
Defined.

(** The larger group comes first even when it was met last. *)
Example review_order_example :
  List.map fst
    (review_order
       [(Sample.b_y, {| group_sender := Sample.b_y;
                        emails := [Sample.e2]; count := 1 |});
        (py "c@z", {| group_sender := py "c@z"; emails := []; count := 1 |});
        (Sample.a_x, {| group_sender := Sample.a_x;
                        emails := [Sample.e1; Sample.e3]; count := 2 |})]) =
  [Sample.a_x; Sample.b_y; py "c@z"].
Proof. vm_compute. reflexivity. Qed.

(** ** Fetch *)

Lemma fetch_listing_failure_witness :
  fetch_emails latin_lower Base64.urlsafe_b64decode
               Base64.ascii_decode_replace Sample.unreachable 10 =
  ([], [CallList 10]).
Proof.
  apply (fetch_listing_failure latin_lower Base64.urlsafe_b64decode
           Base64.ascii_decode_replace Sample.unreachable 10).
  reflexivity.
Defined.

(** C7, the claim as worded fails: the bodies "aGVsbG8=extra" (text
    after the padding) and "!!!!" (no character of the alphabet) are
    malformed base64, yet the decoder accepts both, and their previews are
    "hello" and the empty string, not the sentinel. *)
Lemma decode_failure_counterexample :
  Base64.well_formed (py "aGVsbG8=extra") = false /\
  Base64.well_formed (py "!!!!") = false /\
  Base64.well_formed (py "aGVsbG8=") = true /\
  extract_body (payload Sample2.trailing) = py "aGVsbG8=extra" /\
  extract_body (payload Sample2.garbage) = py "!!!!" /\
  Base64.urlsafe_b64decode (py "aGVsbG8=extra") = Some (py "hello") /\
  Base64.urlsafe_b64decode (py "!!!!") = Some [] /\
  preview (email_of_message latin_lower Base64.urlsafe_b64decode
             Base64.ascii_decode_replace (py "m8") Sample2.trailing) =
    py "hello" /\
  preview (email_of_message latin_lower Base64.urlsafe_b64decode
             Base64.ascii_decode_replace (py "m9") Sample2.garbage) = [] /\
  ~ (forall mid msg,
        extract_body (payload msg) <> [] ->
        Base64.well_formed (extract_body (payload msg)) = false ->
        preview (email_of_message latin_lower Base64.urlsafe_b64decode
                   Base64.ascii_decode_replace mid msg) =
        py "[decode error]").
Proof.
  repeat (split; [vm_compute; reflexivity|]).
  intro H. specialize (H (py "m8") Sample2.trailing).
  vm_compute in H.
  assert (E : forall A (x y : A) (l l' : list A),
                x :: l = y :: l' -> x = y)
    by (intros A x y l l' E'; now injection E').
  specialize (H ltac:(discriminate) eq_refl). apply E in H.
  discriminate H.
Qed.

Lemma decode_failure_witness :
  exists es,
    fetch_emails latin_lower Base64.urlsafe_b64decode
                 Base64.ascii_decode_replace Sample.inbox 10 =
      (es, CallList 10 :: List.map CallGet [py "m7"]) /\
    List.map email_id es = [py "m7"] /\
    In (email_of_message latin_lower Base64.urlsafe_b64decode
          Base64.ascii_decode_replace (py "m7") Sample.broken) es /\
    preview (email_of_message latin_lower Base64.urlsafe_b64decode
               Base64.ascii_decode_replace (py "m7") Sample.broken) =
      py "[decode error]".
Proof.
  destruct (decode_failure_gives_sentinel latin_lower
              Base64.urlsafe_b64decode Base64.ascii_decode_replace
              Sample.inbox 10 [py "m7"] (py "m7") Sample.broken)
    as (es & Hrun & Hids & Hin & Hbad & _).
  - reflexivity.
  - constructor; [|constructor]. exists Sample.broken. reflexivity.
  - left. reflexivity.
  - reflexivity.
  - vm_compute. discriminate.
  - exists es. split; [exact Hrun|]. split; [exact Hids|].
    split; [exact Hin|]. apply Hbad. vm_compute. reflexivity.
Defined.

(** What the decoder used here does with well-formed and with cut-short
    input. *)
Example decoder_examples :
  Base64.urlsafe_b64decode (py "aGVsbG8=") = Some (py "hello") /\
  Base64.urlsafe_b64decode (py "aGVsbG8") = None /\
  Base64.urlsafe_b64decode (py "a") = None.
Proof. repeat split; vm_compute; reflexivity. Qed.

(** ** Execute *)


Lemma absent_sender_witness :
  execute_actions plain_join Sample.calm [] Sample.groups
                  (set Sample.b_y skip Sample.only_a) =
  execute_actions plain_join Sample.calm [] Sample.groups Sample.only_a.
Proof.
  apply (absent_sender_is_skip latin_lower plain_join Sample.calm [] Sample.fetched
           Sample.groups Sample.only_a Sample.b_y).
  - vm_compute. reflexivity.
  - distinct_by_inspection.
  - vm_compute. reflexivity.
Defined.


(** The run with the failing call: "m1" is left out of the trashed ids,
    "m3" is trashed all the same, both files are saved. *)
Example trash_failure_example :
  let st := final (execute_actions plain_join Sample.flaky [] Sample.groups
                                   Sample.decisions) in
  trace st = [FileWrite Sample.a_x Sample.file1 true;
              FileWrite Sample.a_x Sample.file3 true;
              TrashCall Sample.a_x (py "m1") false;
              TrashCall Sample.a_x (py "m3") true] /\
  trashed st = [py "m3"] /\
  List.length (saved st) = 2.
Proof. repeat split; vm_compute; reflexivity. Qed.

(** C10, the claim as worded fails: the ids "a" and "a_b" are distinct,
    yet with the senders b@c.d and c@d both messages are archived under
    the name "a_b_c_d.json", and the second write replaces the first
    file. *)
Lemma archive_names_counterexample :
  NoDup (List.map email_id [Sample.c1; Sample.c2]) /\
  group_by_sender latin_lower [Sample.c1; Sample.c2] =
    Some Sample.clash_groups /\
  written_files
    (trace (final (execute_actions plain_join Sample.calm [] Sample.clash_groups
                                   Sample.clash_decisions))) =
    [py "a_b_c_d.json"; py "a_b_c_d.json"] /\
  ~ NoDup (written_files
             (trace (final (execute_actions plain_join Sample.calm []
                              Sample.clash_groups Sample.clash_decisions)))) /\
  List.length
    (disk (final (execute_actions plain_join Sample.calm [] Sample.clash_groups
                                  Sample.clash_decisions))) = 1.
Proof.
  split; [distinct_by_inspection|].
  split; [vm_compute; reflexivity|].
  split; [vm_compute; reflexivity|].
  split; [|vm_compute; reflexivity].
  intro H. vm_compute in H. inversion H as [|x l Hx _]. apply Hx. now left.
Qed.

Lemma archive_names_witness :
  NoDup (written_files
           (trace (final (execute_actions plain_join Sample.calm []
                            Sample.groups Sample.decisions)))) /\
  NoDup (saved (final (execute_actions plain_join Sample.calm []
                         Sample.groups Sample.decisions))).
Proof.
  pose proof (archive_names_distinct latin_lower plain_join Sample.calm []
                Sample.fetched Sample.groups Sample.decisions)
    as H.
  destruct H as (Hnames & Hpaths & _).
  - vm_compute. reflexivity.
  - distinct_by_inspection.
  - no_underscore.
  - distinct_by_inspection.
  - split; [exact Hnames|]. apply Hpaths.
    intros f1 f2 _ _ E. unfold plain_join in E.
    apply app_inv_head in E. now apply app_inv_head in E.
Defined.

(* ================================================================== *)
(** * Worked examples for the further properties *)
(* ================================================================== *)

(** ** Fetch *)

Lemma header_fields_witness :
  sender (email_of_message latin_lower Base64.urlsafe_b64decode
      Base64.ascii_decode_replace (py "m1") Sample2.twice_from) = py "second@x.com".
Proof.
  pose proof (header_fields_last_wins latin_lower Base64.urlsafe_b64decode
                Base64.ascii_decode_replace (py "m1") Sample2.twice_from)
    as H.
  cbv zeta in H. destruct H as (H & _).
  refine (proj1 (H [ {| name := py "FROM"; value := py "first@x.com" |};
                     {| name := py "Subject"; value := py "Hi" |} ]
                   {| name := py "from"; value := py "second@x.com" |}
                   [] eq_refl _) _).
  - intros h' [].
  - vm_compute. reflexivity.
Defined.

Lemma body_of_multipart_witness :
  extract_body Sample2.html_only = [] /\
  make_preview Base64.urlsafe_b64decode
      Base64.ascii_decode_replace (extract_body Sample2.html_only) = [].
Proof.
  refine (proj2 (body_of_multipart Base64.urlsafe_b64decode
                   Base64.ascii_decode_replace Sample2.html_only
                   _ eq_refl) _).
  intros q [<-|[]]. vm_compute. reflexivity.
Defined.

Lemma preview_bounded_witness :
  make_preview Base64.urlsafe_b64decode
      Base64.ascii_decode_replace Sample2.long_body =
    firstn 140 (Base64.ascii_decode_replace (repeat 65%N 450))
    ++ [ELLIPSIS] /\
  List.length (make_preview Base64.urlsafe_b64decode
      Base64.ascii_decode_replace Sample2.long_body) = 141.
Proof.
  refine (proj2 (proj2 (preview_bounded Base64.urlsafe_b64decode
                          Base64.ascii_decode_replace Sample2.long_body)
                   (repeat 65%N 450) _ _) _).
  - vm_compute. discriminate.
  - vm_compute. reflexivity.
  - vm_compute. repeat constructor.
Defined.

Lemma fetch_get_failure_witness :
  fetch_emails latin_lower Base64.urlsafe_b64decode
      Base64.ascii_decode_replace Sample2.half_broken 10 =
  ([], [CallList 10; CallGet (py "m1"); CallGet (py "m2")]).
Proof.
  refine (proj1 (fetch_get_failure latin_lower Base64.urlsafe_b64decode
                   Base64.ascii_decode_replace Sample2.half_broken 10
                   [py "m1"] [py "m3"] (py "m2") (initial_state 10)
                   _ _ _)).
  - reflexivity.
  - constructor; [|constructor]. exists Sample2.twice_from.
    vm_compute. reflexivity.
  - vm_compute. reflexivity.
Defined.

Lemma fetch_success_witness :
  exists msgs,
    Forall2 (fun i m => get_message Sample.inbox i = ApiOk m)
            [py "m7"] msgs /\
    fetch_emails latin_lower Base64.urlsafe_b64decode
      Base64.ascii_decode_replace Sample.inbox 10 =
      (List.map (fun im => email_of_message latin_lower Base64.urlsafe_b64decode
      Base64.ascii_decode_replace (fst im) (snd im))
                (combine [py "m7"] msgs),
       CallList 10 :: List.map CallGet [py "m7"]).
Proof.
  refine (proj1 (fetch_success latin_lower Base64.urlsafe_b64decode
                   Base64.ascii_decode_replace Sample.inbox 10)
            [py "m7"] _ _).
  - reflexivity.
  - constructor; [|constructor]. exists Sample.broken. reflexivity.
Defined.

(** ** Group *)

Lemma groups_never_empty_witness :
  1 <= 2 /\
  exists e, In e Sample.fetched /\ In e [Sample.e1; Sample.e3] /\
            normalize_sender latin_lower (sender e) = Some Sample.a_x.
Proof.
  refine (proj2 (groups_never_empty latin_lower Sample.fetched
                   Sample.groups Sample.a_x
                   {| group_sender := Sample.a_x;
                      emails := [Sample.e1; Sample.e3]; count := 2 |} _) _).
  - vm_compute. reflexivity.
  - left. reflexivity.
Defined.

(** ** Decide *)

Lemma human_review_outcome_witness :
  human_review latin_lower Sample.groups [py "x"; py "d"; py ""] =
  (Some [(Sample.a_x, delete); (Sample.b_y, skip)],
   [Sample.a_x; Sample.b_y]).
Proof.
  pose proof (human_review_outcome latin_lower Sample.groups
                [py "x"; py "d"; py ""]) as H.
  assert (Hwf : wf Sample.groups) by distinct_by_inspection.
  specialize (H Hwf). cbv zeta in H. destruct H as (H & _).
  rewrite H; [vm_compute; reflexivity | vm_compute; repeat constructor].
Defined.

(** ** Execute *)

Lemma run_without_write_failure_witness :
  exists st,
    execute_actions plain_join Sample.flaky [] Sample.groups Sample.decisions =
      Returned st /\
    saved st =
      plan_paths plain_join Sample.flaky (delete_plan Sample.groups Sample.decisions) /\
    trash_calls (trace st) =
      plan_ids (delete_plan Sample.groups Sample.decisions) /\
    List.length (saved st) = List.length (trash_calls (trace st)) /\
    ((forall n m, trash_ok Sample.flaky n m = true) ->
     trashed st = plan_ids (delete_plan Sample.groups Sample.decisions)).
Proof.
  apply (run_without_write_failure plain_join Sample.flaky [] Sample.groups
           Sample.decisions).
  intros n p. reflexivity.
Defined.

Lemma write_failure_witness :
  match execute_actions plain_join Sample2.disk_full [] Sample.groups
                        Sample.decisions with
  | Returned st => no_failed_write (trace st)
  | Raised st =>
      exists tr s f,
        trace st = tr ++ [FileWrite s f false] /\
        no_failed_write tr /\
        forall mid ok, ~ In (TrashCall s mid ok) (trace st)
  end.
Proof.
  apply (write_failure_stops_step plain_join Sample2.disk_full [] Sample.groups
           Sample.decisions).
  distinct_by_inspection.
Defined.

(** The run with the failing write: the first file is saved, the second
    write fails, and no trash call is made. *)
Example write_failure_example :
  exists st,
    execute_actions plain_join Sample2.disk_full [] Sample.groups Sample.decisions =
      Raised st /\
    trace st = [FileWrite Sample.a_x Sample.file1 true;
                FileWrite Sample.a_x Sample.file3 false] /\
    trashed st = [].
Proof. eexists. repeat split; vm_compute; reflexivity. Qed.

Lemma saved_files_witness :
  exists r,
    get (plain_join (py "saved_emails") Sample.file1)
        (disk (final (execute_actions plain_join Sample.calm [] Sample.groups
                                      Sample.decisions))) =
      Some (Archive r) /\
    decision r = py "delete" /\
    exists k g,
      In (k, delete) Sample.decisions /\ get k Sample.groups = Some g /\
      In (archived_email r) (emails g) /\
      sender_normalized r = k /\
      plain_join (py "saved_emails") Sample.file1 =
      plain_join (save_dir Sample.calm)
        (archive_filename (email_id (archived_email r)) (safe_sender k)).
Proof.
  apply (saved_files_hold_archives plain_join Sample.calm [] Sample.groups
           Sample.decisions (plain_join (py "saved_emails") Sample.file1)).
  - vm_compute. left. reflexivity.
  - left. vm_compute. reflexivity.
Defined.

(** Two messages archived under one name, and the second write fails
    after the open: the path is among the saved paths, and the file that
    held the archive of the first message is damaged. *)
Example truncated_archive_example :
  exists st,
    execute_actions plain_join Sample2.full_later [] Sample.clash_groups
                    Sample.clash_decisions = Raised st /\
    trace st = [FileWrite (py "b@c.d") (py "a_b_c_d.json") true;
                TrashCall (py "b@c.d") (py "a") true;
                FileWrite (py "c@d") (py "a_b_c_d.json") false] /\
    saved st = [py "saved_emails/a_b_c_d.json"] /\
    trashed st = [py "a"] /\
    disk st = [(py "saved_emails/a_b_c_d.json", Damaged)].
Proof. eexists. repeat split; vm_compute; reflexivity. Qed.

(** The second write fails after the open.  A file the step has nothing
    to do with is as it was; the file at the path of the failed write,
    an archive of an earlier run, is damaged. *)
Lemma other_files_witness :
  get Sample2.old_file
      (disk (final (execute_actions plain_join Sample2.disk_full
                      [(Sample2.old_file, Archive Sample2.old_record);
                       (plain_join (py "saved_emails") Sample.file3,
                        Archive Sample2.old_record)]
                      Sample.groups Sample.decisions))) =
    get Sample2.old_file
        [(Sample2.old_file, Archive Sample2.old_record);
         (plain_join (py "saved_emails") Sample.file3,
          Archive Sample2.old_record)] /\
  get (plain_join (py "saved_emails") Sample.file3)
      (disk (final (execute_actions plain_join Sample2.disk_full
                      [(Sample2.old_file, Archive Sample2.old_record);
                       (plain_join (py "saved_emails") Sample.file3,
                        Archive Sample2.old_record)]
                      Sample.groups Sample.decisions))) =
    Some Damaged.
Proof.
  split.
  - refine (proj1 (other_files_untouched plain_join Sample2.disk_full
                     [(Sample2.old_file, Archive Sample2.old_record);
                      (plain_join (py "saved_emails") Sample.file3,
                       Archive Sample2.old_record)]
                     Sample.groups Sample.decisions Sample2.old_file) _ _).
    + vm_compute. intuition discriminate.
    + intros (pre & s & f & post & E & Hp & _).
      destruct pre as [|a [|b pre]]; vm_compute in E.
      * discriminate E.
      * injection E as _ _ Hf _. subst f. vm_compute in Hp.
        discriminate Hp.
      * destruct pre; discriminate E.
  - refine (proj1 (proj2
              (other_files_untouched plain_join Sample2.disk_full
                 [(Sample2.old_file, Archive Sample2.old_record);
                  (plain_join (py "saved_emails") Sample.file3,
                   Archive Sample2.old_record)]
                 Sample.groups Sample.decisions
                 (plain_join (py "saved_emails") Sample.file3))) _).
    exists [FileWrite Sample.a_x Sample.file1 true], Sample.a_x,
      Sample.file3, [].
    split; [vm_compute; reflexivity|]. split; reflexivity.
Defined.

Lemma only_marked_witness :
  exists e k,
    In e Sample.fetched /\ email_id e = py "m3" /\
    normalize_sender latin_lower (sender e) = Some k /\
    In (k, delete) Sample.decisions.
Proof.
  refine (proj2 (only_marked_senders_touched latin_lower plain_join Sample.calm []
                   Sample.fetched Sample.groups Sample.decisions _)
            (py "m3") _).
  - vm_compute. reflexivity.
  - vm_compute. right. left. reflexivity.
Defined.

Lemma unknown_sender_witness :
  execute_actions plain_join Sample.calm [] Sample.groups
                  ([(Sample.a_x, delete)] ++ (py "nobody@z", delete) :: []) =
  execute_actions plain_join Sample.calm [] Sample.groups ([(Sample.a_x, delete)] ++ []).
Proof.
  apply (unknown_sender_ignored plain_join Sample.calm [] Sample.groups
           (py "nobody@z") delete [(Sample.a_x, delete)] []).
  vm_compute. reflexivity.
Defined.

Lemma safe_sender_witness : safe_sender (py "plain") = py "plain".
Proof.
  refine (proj1 (proj2 (proj2 (proj2
            (safe_sender_shape (py "plain") (py "m1"))))) _ _ _).
  - vm_compute. repeat constructor.
  - vm_compute. intuition discriminate.
  - vm_compute. intuition discriminate.
Defined.

(** A long address is cut, and "@" and "." are replaced. *)
Example safe_sender_example :
  safe_sender (py "first.last@a-very-long-department.example-university.org")
  = py "first_last_a-very-long-department_example-univer".
Proof. vm_compute. reflexivity. Qed.

(** ** The run as a whole *)

Lemma run_without_emails_witness :
  run_workflow latin_lower Base64.urlsafe_b64decode
      Base64.ascii_decode_replace plain_join Sample.unreachable Sample.calm [] 10 [py "d"] =
  {| run_calls := snd (fetch_emails latin_lower Base64.urlsafe_b64decode
      Base64.ascii_decode_replace Sample.unreachable 10);
     run_shown := [];
     run_exec := Some (Returned (start [])) |}.
Proof.
  apply (run_without_emails latin_lower Base64.urlsafe_b64decode
           Base64.ascii_decode_replace plain_join Sample.unreachable Sample.calm []
           10 [py "d"]).
  vm_compute. reflexivity.
Defined.

Lemma run_trashes_witness :
  In (CallGet (py "m1"))
     (run_calls (run_workflow latin_lower Base64.urlsafe_b64decode
      Base64.ascii_decode_replace plain_join Sample2.small_inbox Sample.calm [] 10
                            [py "d"])) /\
  In (FileWrite (py "second@x.com")
        (archive_filename (py "m1") (safe_sender (py "second@x.com"))) true)
     [FileWrite (py "second@x.com") (py "m1_second_x_com.json") true] /\
  exists groups decisions,
    group_by_sender latin_lower
      (fst (fetch_emails latin_lower Base64.urlsafe_b64decode
      Base64.ascii_decode_replace Sample2.small_inbox 10)) = Some groups /\
    fst (human_review latin_lower groups [py "d"]) = Some decisions /\
    In (py "second@x.com", delete) decisions.
Proof.
  apply (run_trashes_only_archived_fetched latin_lower
           Base64.urlsafe_b64decode Base64.ascii_decode_replace plain_join
           Sample2.small_inbox Sample.calm [] 10 [py "d"]
           (match run_exec (run_workflow latin_lower Base64.urlsafe_b64decode
                          Base64.ascii_decode_replace plain_join Sample2.small_inbox
                          Sample.calm [] 10 [py "d"]) with
            | Some o => o
            | None => Returned (start [])
            end)
           [FileWrite (py "second@x.com") (py "m1_second_x_com.json") true]
           [] (py "second@x.com") (py "m1") true).
  - vm_compute. reflexivity.
  - vm_compute. reflexivity.
Defined.

Lemma run_without_delete_word_witness :
  match run_exec (run_workflow latin_lower Base64.urlsafe_b64decode
      Base64.ascii_decode_replace plain_join Sample2.small_inbox Sample.calm [] 10
                             [py "maybe"; py ""]) with
  | Some o => o = Returned (start [])
  | None => True
  end.
Proof.
  destruct (run_exec (run_workflow latin_lower Base64.urlsafe_b64decode
      Base64.ascii_decode_replace plain_join Sample2.small_inbox Sample.calm [] 10
                                 [py "maybe"; py ""])) as [o|] eqn:E;
    [|exact I].
  apply (run_without_delete_word latin_lower Base64.urlsafe_b64decode
           Base64.ascii_decode_replace plain_join Sample2.small_inbox Sample.calm []
           10 [py "maybe"; py ""] o).
  - intros l [<-|[<-|[]]]; vm_compute; reflexivity.
  - exact E.
Defined.

(** ** Authorisation *)

(** A returning user with an expired token, and a user with neither a
    token nor a client-secrets file. *)
Lemma get_gmail_service_witness :
  (fst (get_gmail_service Sample2.returning_user) =
     ServiceBuilt Sample2.renewed /\
   snd (get_gmail_service Sample2.returning_user) =
     [Refreshed Sample2.stale; TokenWritten Sample2.renewed]) /\
  (snd (get_gmail_service Sample2.bare) = [] /\
   credentials_file_exists Sample2.bare = false /\
   forall c, token_file Sample2.bare = Some c ->
             valid c = false /\ expired c && has_refresh_token c = false).
Proof.
  split.
  - destruct (get_gmail_service_cases Sample2.returning_user)
      as (_ & Hrefresh & _).
    apply (Hrefresh Sample2.stale); reflexivity.
  - destruct (get_gmail_service_cases Sample2.bare)
      as (_ & _ & _ & _ & Hmissing).
    apply Hmissing. reflexivity.
Defined.

(** A returning user: the console stores the refreshed token, the web
    app does not. *)
Example refresh_example :
  get_gmail_service Sample2.returning_user =
    (ServiceBuilt Sample2.renewed,
     [Refreshed Sample2.stale; TokenWritten Sample2.renewed]) /\
  get_gmail_service_app Sample2.returning_user =
    (ServiceBuilt Sample2.renewed, [Refreshed Sample2.stale]).
Proof. split; reflexivity. Qed.

(** ** The web session *)

Lemma app_effects_witness :
  app_log (app_run latin_lower Base64.urlsafe_b64decode
             Base64.ascii_decode_replace plain_join Sample2.small_inbox Sample.calm
             (app_start [])
             [StartCleanup 10; Rerun;
              Press (DeleteClick (py "second@x.com")); Rerun]) = [] /\
  app_disk (app_run latin_lower Base64.urlsafe_b64decode
              Base64.ascii_decode_replace plain_join Sample2.small_inbox Sample.calm
              (app_start [])
              [StartCleanup 10; Rerun;
               Press (DeleteClick (py "second@x.com")); Rerun]) = [].
Proof.
  refine (proj2 (app_effects_need_confirmation latin_lower
                   Base64.urlsafe_b64decode Base64.ascii_decode_replace plain_join
                   Sample2.small_inbox Sample.calm [])
            [StartCleanup 10; Rerun;
             Press (DeleteClick (py "second@x.com")); Rerun] _).
  intros [H|[H|[H|[H|[]]]]]; discriminate H.
Defined.

(** A whole session: start, fetch, mark the sender delete, confirm,
    execute.  One file is saved and one message trashed. *)
Example app_session_example :
  let a := app_run latin_lower Base64.urlsafe_b64decode
             Base64.ascii_decode_replace plain_join Sample2.small_inbox Sample.calm
             (app_start [])
             [StartCleanup 10; Rerun;
              Press (DeleteClick (py "second@x.com"));
              ConfirmChoices; Rerun] in
  sess_stage (app_session a) = finished /\
  app_log a =
    [FileWrite (py "second@x.com") (py "m1_second_x_com.json") true;
     TrashCall (py "second@x.com") (py "m1") true].
Proof. split; vm_compute; reflexivity. Qed.
